(** * NonLinearPDEPricer: a shallow embedding of the pricing engine

    The development follows the source modules:
    - [Underlying.py]: spot / volatility state with validating setters;
    - [Payoff.py]: the payoff classes (terminal value, constraint,
      Dirichlet boundaries, continuous barriers);
    - [NonLinearPDESolver.py]: mesh construction and [solvePDE];
    - [Greeks.py]: bump-and-reprice on top of [solvePDE];
    - [PDESolver_NonLinear.py]: [computeGreeksAtSpot], the Greeks of one
      spot slide.

    Conventions of the embedding.
    - A Python [float] or a [numpy.float64] carries a rational number
      ([Q]); rounding, NaN and signed zeros are not represented.  Equality
      of such numbers is [Qeq] (written [==]).  The two infinities exist
      only where the source writes them: the continuous barriers.
    - Python is dynamically typed, and the code inspects types
      ([type(vol) is float]) and attributes ([perf.shape]); values that
      reach those places are elements of [pyval], which keeps a Python
      [float] apart from a [numpy.float64].
    - NumPy arrays that are attributes of the solver or that are handed to
      a payoff method are objects in a store ([arrays]); a location is an
      index into the store.  Arrays that stay local to one expression are
      plain lists.
    - The [Underlying] object is shared between the solver and the Greeks
      driver; it is a component of the mutable [world].
    - A Python call either returns or raises: computations live in the
      state-and-exception monad [M]. *)

From Stdlib Require Import QArith Qminmax Qabs ZArith List String Lia Lqa.
From stdpp Require Import base list.

Set Warnings "-register-all".

Local Open Scope Q_scope.

(** ** Python values and exceptions *)

Inductive pyval : Type :=
| VNone
| VInt (z : Z)
| VFloat (q : Q)          (* Python float *)
| VNp (q : Q)             (* numpy.float64 scalar, or 0-d ndarray *)
| VStr (s : string)
| VTuple (l : list pyval).

Inductive exn : Type :=
| Exception (msg : string)
| TypeError
| AttributeError
| IndexError
| ValueError
| UnboundLocalError
| ZeroDivisionError
| LinAlgError.

(** ** Underlying.py *)

Record Underlying : Type := mkUnderlying {
  spot : pyval;
  reference_spot : pyval;
  vol : pyval;
  reference_vol : pyval;
  is_non_linear : option bool      (* None until the first setVol *)
}.

Definition loc := nat.

Record world : Type := World {
  udl : Underlying;
  arrays : list (list Q)
}.

Definition M (A : Type) : Type := world -> (exn + A) * world.

Definition ret {A} (a : A) : M A := fun w => (inr a, w).
Definition raise {A} (e : exn) : M A := fun w => (inl e, w).
Definition bind {A B} (m : M A) (k : A -> M B) : M B :=
  fun w => match m w with
           | (inl e, w') => (inl e, w')
           | (inr a, w') => k a w'
           end.
Definition lift {A} (r : exn + A) : M A := fun w => (r, w).

Declare Scope py_scope.
Delimit Scope py_scope with py.
Notation "x <- m ;; k" := (bind m (fun x => k))
  (at level 100, m at next level, right associativity) : py_scope.
Notation "m ;;; k" := (bind m (fun _ => k))
  (at level 100, right associativity) : py_scope.
Local Open Scope py_scope.

Definition Qltb (x y : Q) : bool := negb (Qle_bool y x).

(** [x <= 0.0], [x < y] ... on Python numbers; any other operand type
    raises TypeError. *)
Definition num_val (v : pyval) : exn + Q :=
  match v with
  | VInt z => inr (inject_Z z)
  | VFloat q => inr q
  | VNp q => inr q
  | _ => inl TypeError
  end.

Definition validateVol (vol : pyval) : exn + unit :=
  match vol with
  | VFloat v =>
      if Qle_bool v 0
      then inl (Exception "validateVol : Volatility cannot be negative")
      else inr tt
  | VTuple l =>
      match l with
      | [VFloat v0; VFloat v1] =>
          if negb (Qltb 0 v0 && Qle_bool v0 v1)
          then inl (Exception
                 "validateVol : Non-Linear Volatility must satisfy 0 < vol_bid <= vol_ask")
          else inr tt
      | _ => inl (Exception
                 "validateVol : Non-Linear Volatility must have exactly 2 float elements (vol_bid, vol_ask)")
      end
  | _ => inl (Exception "validateVol : Unsupported type for Volatility")
  end.

Definition validateSpot (spot : pyval) : exn + unit :=
  match num_val spot with
  | inl e => inl e
  | inr s => if Qle_bool s 0
             then inl (Exception "validateSpot : Spot cannot be negative")
             else inr tt
  end.

Definition is_tuple (v : pyval) : bool :=
  match v with VTuple _ => true | _ => false end.

Definition modify_udl (f : Underlying -> Underlying) : M unit :=
  fun w => (inr tt, World (f (udl w)) (arrays w)).

(** Attribute assignments [self.x = v]. *)
Definition assign_spot (v : pyval) (u : Underlying) : Underlying :=
  mkUnderlying v (reference_spot u) (vol u) (reference_vol u) (is_non_linear u).
Definition assign_reference_spot (v : pyval) (u : Underlying) : Underlying :=
  mkUnderlying (spot u) v (vol u) (reference_vol u) (is_non_linear u).
Definition assign_vol (v : pyval) (u : Underlying) : Underlying :=
  mkUnderlying (spot u) (reference_spot u) v (reference_vol u) (is_non_linear u).
Definition assign_reference_vol (v : pyval) (u : Underlying) : Underlying :=
  mkUnderlying (spot u) (reference_spot u) (vol u) v (is_non_linear u).
Definition assign_is_non_linear (b : option bool) (u : Underlying) : Underlying :=
  mkUnderlying (spot u) (reference_spot u) (vol u) (reference_vol u) b.

Definition setSpot (spot : pyval) : M unit :=
  lift (validateSpot spot) ;;;
  modify_udl (assign_spot spot).

Definition setVol (vol : pyval) : M unit :=
  lift (validateVol vol) ;;;
  modify_udl (assign_vol vol) ;;;
  modify_udl (assign_is_non_linear (Some (is_tuple vol))).

(** [0.5 * (reference_vol[0] + reference_vol[1])]; validation has made both
    components Python floats. *)
Definition mid_vol (v : pyval) : exn + pyval :=
  match v with
  | VTuple l =>
      match l !! 0%nat, l !! 1%nat with
      | Some a, Some b =>
          match num_val a, num_val b with
          | inr x, inr y => inr (VFloat ((1#2) * (x + y)))
          | _, _ => inl TypeError
          end
      | _, _ => inl IndexError
      end
  | _ => inl TypeError
  end.

Definition setReferenceVol (reference_vol : pyval) : M unit :=
  lift (validateVol reference_vol) ;;;
  modify_udl (assign_reference_vol reference_vol) ;;;
  if is_tuple reference_vol
  then (m <- lift (mid_vol reference_vol) ;; modify_udl (assign_reference_vol m))
  else ret tt.

Definition setReferenceSpot (reference_spot : pyval) : M unit :=
  lift (validateSpot reference_spot) ;;;
  modify_udl (assign_reference_spot reference_spot).

(** [Underlying.__init__]: the attribute [is_non_linear] is created first;
    the other attributes do not exist yet, which the record cannot say, so
    the constructor starts from placeholders that every setter overwrites
    before anything reads them. *)
Definition blank_Underlying : Underlying :=
  mkUnderlying VNone VNone VNone VNone None.

Definition Underlying_init (spot vol : pyval) : exn + Underlying :=
  let w0 := World blank_Underlying [] in
  match (setSpot spot ;;; setReferenceSpot spot ;;;
         setVol vol ;;; setReferenceVol vol) w0 with
  | (inl e, _) => inl e
  | (inr _, w) => inr (udl w)
  end.

Definition getSpot : M pyval := fun w => (inr (spot (udl w)), w).
Definition getVol : M pyval := fun w => (inr (vol (udl w)), w).
Definition getReferenceSpot : M pyval := fun w => (inr (reference_spot (udl w)), w).
Definition getReferenceVol : M pyval := fun w => (inr (reference_vol (udl w)), w).
(** [isNonLinear()] is only ever used as a condition; [None] is falsy. *)
Definition isNonLinear : M bool :=
  fun w => (inr (match is_non_linear (udl w) with Some b => b | None => false end), w).




(** ** The array store *)

(** A location outside the store cannot arise in Python; the embedding
    gives it an outcome of its own so that every function is total.
    [NonFinite] stands for the places where the source goes on computing
    with NaN or an infinity (a mesh step of a one-point mesh, a division
    by a zero step), which rational numbers do not represent. *)
Inductive outcome_tag : Type := InvalidReference | NonFinite.

Definition model_exn (t : outcome_tag) : exn :=
  match t with
  | InvalidReference => Exception "embedding: location outside the store"
  | NonFinite => Exception "embedding: NaN or infinite arithmetic"
  end.

Definition alloc (a : list Q) : M loc :=
  fun w => (inr (length (arrays w)), World (udl w) (arrays w ++ [a])).

Definition read (l : loc) : M (list Q) :=
  fun w => match arrays w !! l with
           | Some a => (inr a, w)
           | None => (inl (model_exn InvalidReference), w)
           end.

Definition write (l : loc) (a : list Q) : M unit :=
  fun w => match arrays w !! l with
           | Some _ => (inr tt, World (udl w) (<[l := a]> (arrays w)))
           | None => (inl (model_exn InvalidReference), w)
           end.

(** [a[0]], [a[-1]], [a[i]] and the matching stores; Python raises
    IndexError out of range. *)
Definition first_elt (a : list Q) : exn + Q :=
  match a !! 0%nat with Some x => inr x | None => inl IndexError end.
Definition last_elt (a : list Q) : exn + Q :=
  match last a with Some x => inr x | None => inl IndexError end.
Definition set_first (a : list Q) (v : Q) : exn + list Q :=
  match a with [] => inl IndexError | _ => inr (<[0%nat := v]> a) end.
Definition set_last (a : list Q) (v : Q) : exn + list Q :=
  match a with [] => inl IndexError | _ => inr (<[pred (length a) := v]> a) end.

(** ** Payoff.py *)

(** [-np.inf], a finite float, [+np.inf]. *)
Inductive xfloat : Type := NegInf | Fin (q : Q) | PosInf.

Definition xltb_l (b : xfloat) (s : Q) : bool :=      (* b < s *)
  match b with NegInf => true | Fin q => Qltb q s | PosInf => false end.
Definition xltb_r (s : Q) (b : xfloat) : bool :=      (* s < b *)
  match b with NegInf => false | Fin q => Qltb s q | PosInf => true end.
Definition isfinite (b : xfloat) : bool :=
  match b with Fin _ => true | _ => false end.

(** What [getPayoff] may be applied to: the spot mesh (an array in the
    store) or the current spot (whatever [Underlying] holds). *)
Inductive operand : Type := OScalar (v : pyval) | OArray (l : loc).

(** The helper [barrier], on one element:
    [perf = (spot - barrier) * (-1.0 if is_down else 1.0)],
    [ind = 1.0 where perf >= 0.0 else 0.0], [(1.0 - ind) if is_out else ind]. *)
Definition barrier (spot barrier : Q) (is_down is_out : bool) : Q :=
  let perf := (spot - barrier) * (if is_down then - (1) else 1) in
  let ind := if Qle_bool 0 perf then 1 else 0 in
  if is_out then 1 - ind else ind.

(** NumPy evaluates a payoff body on its whole operand.  On an array the
    body is applied to every element and the result is a new array; on a
    [numpy.float64] it is applied to the number.  On a Python [float] or
    [int] the arithmetic and [np.maximum] work as well, but [barrier]
    reads [perf.shape], an attribute Python numbers do not have:
    [uses_shape] tells whether the body calls [barrier].  Any other operand
    fails at the first subtraction. *)
Definition broadcast (uses_shape : bool) (body : Q -> Q) (S : operand) : M operand :=
  match S with
  | OArray l => a <- read l ;; r <- alloc (map body a) ;; ret (OArray r)
  | OScalar (VNp s) => ret (OScalar (VNp (body s)))
  | OScalar (VFloat s) =>
      if uses_shape then raise AttributeError else ret (OScalar (VNp (body s)))
  | OScalar (VInt z) =>
      if uses_shape then raise AttributeError
      else ret (OScalar (VNp (body (inject_Z z))))
  | OScalar _ => raise TypeError
  end.

Record PayoffBase : Type := mkBase {
  t_expiry : Q;                (* args["Expiry"] *)
  notional : option Q          (* args.get("Notional", None) *)
}.

Inductive Payoff : Type :=
| AmericanCall (base : PayoffBase) (strike : Q)
| UpAndOutCallSpread (base : PayoffBase) (strike upper_strike ko_barrier : Q)
| DownAndOutPut (base : PayoffBase) (strike ko_barrier rebate : Q)
| DoubleNoTouch (base : PayoffBase) (ko_barrier_down ko_barrier_up : Q).

Definition base_of (p : Payoff) : PayoffBase :=
  match p with
  | AmericanCall b _ | UpAndOutCallSpread b _ _ _
  | DownAndOutPut b _ _ _ | DoubleNoTouch b _ _ => b
  end.

Definition getExpiry (p : Payoff) : Q := t_expiry (base_of p).
Definition getNotional (p : Payoff) : option Q := notional (base_of p).

Definition payoff_body (p : Payoff) (S : Q) : Q :=
  match p with
  | AmericanCall _ strike => Qmax (S - strike) 0
  | UpAndOutCallSpread _ strike upper_strike ko_barrier =>
      let call := Qmax (S - strike) 0 in
      let upper_call := Qmax (S - upper_strike) 0 in
      let ko_indicator := barrier S ko_barrier false true in
      (call - upper_call) * ko_indicator
  | DownAndOutPut _ strike ko_barrier rebate =>
      let put := Qmax (strike - S) 0 in
      let ko_indicator := barrier S ko_barrier true true in
      put * ko_indicator + rebate * (1 - ko_indicator)
  | DoubleNoTouch _ ko_barrier_down ko_barrier_up =>
      let ko_indicator_down := barrier S ko_barrier_down true true in
      let ko_indicator_up := barrier S ko_barrier_up false true in
      ko_indicator_down * ko_indicator_up
  end.

Definition calls_barrier (p : Payoff) : bool :=
  match p with AmericanCall _ _ => false | _ => true end.

Definition getPayoff (p : Payoff) (S : operand) : M operand :=
  broadcast (calls_barrier p) (payoff_body p) S.

(** [solution[-1] = v] and [solution[0] = v], in place. *)
Definition store_last (solution : loc) (v : Q) : M unit :=
  a <- read solution ;; a' <- lift (set_last a v) ;; write solution a'.
Definition store_first (solution : loc) (v : Q) : M unit :=
  a <- read solution ;; a' <- lift (set_first a v) ;; write solution a'.

(** [np.maximum(x, y)] on two arrays; shapes that differ raise ValueError
    (the length-one broadcast of NumPy is not modelled: the solver only
    ever passes two arrays of [nb_x_steps] elements). *)
Definition np_maximum2 (x y : list Q) : exn + list Q :=
  if Nat.eqb (length x) (length y) then inr (zip_with Qmax x y) else inl ValueError.

Definition getConstraint (p : Payoff) (S : loc) (t : Q) (solution : loc) : M loc :=
  match p with
  | AmericanCall _ strike =>
      s <- read S ;;
      let exercise_value := map (fun x => Qmax (x - strike) 0) s in
      sol <- read solution ;;
      r <- lift (np_maximum2 exercise_value sol) ;;
      alloc r
  | UpAndOutCallSpread _ _ _ ko_barrier =>
      s <- read S ;;
      top <- lift (last_elt s) ;;
      (if Qle_bool ko_barrier top then store_last solution 0 else ret tt) ;;;
      ret solution
  | DownAndOutPut _ _ ko_barrier rebate =>
      s <- read S ;;
      bottom <- lift (first_elt s) ;;
      (if Qle_bool bottom ko_barrier then store_first solution rebate else ret tt) ;;;
      ret solution
  | DoubleNoTouch _ ko_barrier_down ko_barrier_up =>
      s <- read S ;;
      bottom <- lift (first_elt s) ;;
      (if Qle_bool bottom ko_barrier_down then store_first solution 0 else ret tt) ;;;
      s' <- read S ;;
      top <- lift (last_elt s') ;;
      (if Qle_bool ko_barrier_up top then store_last solution 0 else ret tt) ;;;
      ret solution
  end.

(** Every class declares [getDirichletBoundaries(self, S, t)]: two
    positional parameters.  A call with any other number of arguments
    raises TypeError before the body runs. *)
Definition getDirichletBoundaries (p : Payoff) (args : list operand) : M (Q * Q) :=
  match args with
  | [S'; t] =>
      match p with
      | AmericanCall _ strike =>
          match S' with
          | OArray l =>
              s <- read l ;; top <- lift (last_elt s) ;;
              ret (0, Qmax (top - strike) 0)
          | OScalar (VNp _) => raise IndexError
          | OScalar _ => raise TypeError
          end
      | UpAndOutCallSpread _ _ _ _ => ret (0, 0)
      | DownAndOutPut _ _ _ rebate => ret (rebate, 0)
      | DoubleNoTouch _ _ _ => ret (0, 0)
      end
  | _ => raise TypeError
  end.

Definition getContinousBarriers (p : Payoff) : xfloat * xfloat :=
  match p with
  | AmericanCall _ _ => (NegInf, PosInf)
  | UpAndOutCallSpread _ _ _ ko_barrier => (NegInf, Fin ko_barrier)
  | DownAndOutPut _ _ ko_barrier _ => (Fin ko_barrier, PosInf)
  | DoubleNoTouch _ ko_barrier_down ko_barrier_up =>
      (Fin ko_barrier_down, Fin ko_barrier_up)
  end.

(** ** NonLinearPDESolver.py *)

(** [np.linspace(start, stop, num, endpoint=True, retstep=True)], after
    NumPy's implementation: the samples are [i * step + start] for
    [i < num], the last one is then overwritten by [stop] when [num > 1],
    and [step = (stop - start) / (num - 1)]; with fewer than two samples the
    returned step is NaN ([None] here). *)
Definition linspace (start stop : Q) (num : nat) : list Q * option Q :=
  match num with
  | O => ([], None)
  | 1%nat => ([start], None)
  | _ =>
      let div := pred num in
      let step := (stop - start) / inject_Z (Z.of_nat div) in
      (map (fun i => inject_Z (Z.of_nat i) * step + start) (seq 0 div) ++ [stop],
       Some step)
  end.

Record NonLinearPDESolver : Type := mkSolver {
  payoff : Payoff;
  t_mesh : loc;
  dT : option Q;
  nb_t_steps : nat;
  x_mesh : loc;
  dX : option Q;
  nb_x_steps : nat;
  s_mesh : loc;
  nb_non_linear_iter : nat;
  nb_non_linear_tol : Q
}.

(** [np.sign]. *)
Definition np_sign (x : Q) : Q :=
  match x ?= 0 with Lt => - (1) | Eq => 0 | Gt => 1 end.

(** [vol[k]] on the volatility of the Underlying. *)
Definition vol_component (vol : pyval) (k : nat) : exn + Q :=
  match vol with
  | VTuple l => match l !! k with Some v => num_val v | None => inl IndexError end
  | _ => inl TypeError
  end.

(** The discrete second difference of the previous iterate:
    [gamma = zeros(n)], the interior entries [1 .. n-2] receive
    [(1 + dX/2) u[j-1] - 2 u[j] + (1 - dX/2) u[j+1]], and the whole array
    is divided by [dX * dX].  The value is the exact one; the
    floating-point expression can differ from it by a rounding residue,
    which decides the sign where the exact value is zero and the operands
    are not exactly representable. *)
Definition gamma_entry (n : nat) (dX : Q) (u : list Q) (j : nat) : Q :=
  (if (1 <=? j)%nat && (j <? n - 1)%nat
   then (1 + (1#2) * dX) * nth (j - 1) u 0 - 2 * nth j u 0
        + (1 - (1#2) * dX) * nth (j + 1) u 0
   else 0) / (dX * dX).

Definition gamma_array (n : nat) (dX : Q) (u : list Q) : exn + list Q :=
  if (2 <? n)%nat && (length u <? n)%nat then inl IndexError
  else inr (map (gamma_entry n dX u) (seq 0 n)).

(** [vol[0] + (vol[1] - vol[0]) * 0.5 * (1.0 + np.sign(-gamma * notional))]. *)
Definition choose_vol (vol0 vol1 notional g : Q) : Q :=
  vol0 + (vol1 - vol0) * (1#2) * (1 + np_sign (- g * notional)).

(** [a[0] = a[1]] then [a[-1] = a[-2]]. *)
Definition copy_edges (a : list Q) : exn + list Q :=
  match a !! 1%nat with
  | None => inl IndexError
  | Some a1 =>
      let a' := <[0%nat := a1]> a in
      match a' !! (length a' - 2)%nat with
      | None => inl IndexError
      | Some b => inr (<[(length a' - 1)%nat := b]> a')
      end
  end.

Definition optimizedVol (vol0 vol1 notional : Q) (gamma : list Q) : exn + list Q :=
  copy_edges (map (choose_vol vol0 vol1 notional) gamma).

(** The three rows of [bandedMatrix] as [solveOneStep] fills them; the two
    corner entries it never assigns keep the zero of [np.zeros]. *)
Definition band_upper (n : nat) (firstOrder secondOrder : Q) (halfVar : list Q) : list Q :=
  map (fun j => if (1 <=? j)%nat
                then nth (j - 1) halfVar 0 * (firstOrder - secondOrder) else 0)
      (seq 0 n).
Definition diagonal (secondOrder : Q) (halfVar : list Q) : list Q :=
  map (fun h => 1 + 2 * h * secondOrder) halfVar.
Definition band_lower (n : nat) (firstOrder secondOrder : Q) (halfVar : list Q) : list Q :=
  map (fun j => if (j <? n - 1)%nat
                then nth (j + 1) halfVar 0 * (- firstOrder - secondOrder) else 0)
      (seq 0 n).

Definition halfVar_of (vol : list Q) : list Q := map (fun v => (1#2) * v * v) vol.

(** [firstOrder = -0.5 * dT / dX], [secondOrder = -dT / (dX * dX)]. *)
Definition coefficients (dT dX : option Q) : option (Q * Q) :=
  match dT, dX with
  | Some t, Some x =>
      if Qeq_bool x 0 then None
      else Some (- (1#2) * t / x, - t / (x * x))
  | _, _ => None
  end.

Definition notional_missing (notional : option Q) : bool :=
  match notional with None => true | Some n => Qeq_bool n 0 end.

(** [float(premium)]. *)
Definition py_float (premium : operand) : M pyval :=
  match premium with
  | OScalar (VNp q) => ret (VFloat q)
  | OScalar (VFloat q) => ret (VFloat q)
  | OScalar (VInt z) => ret (VFloat (inject_Z z))
  | _ => raise TypeError
  end.

Definition as_array (o : operand) : M loc :=
  match o with OArray l => ret l | OScalar _ => raise TypeError end.

Definition index (a : list Q) (i : nat) : exn + Q :=
  match a !! i with Some x => inr x | None => inl IndexError end.


(** Arithmetic of Python numbers as [computeGreeks] uses it: a result is a
    [numpy.float64] as soon as one operand is, a Python [float] when a
    [float] meets a [float] or an [int], an [int] for two [int]s.  The
    operands are numbers in every use; anything else raises TypeError
    (sequence repetition by an [int] is not modelled). *)
Definition py_arith (fq : Q -> Q -> Q) (fz : Z -> Z -> Z) (a b : pyval) : exn + pyval :=
  match a, b with
  | VInt x, VInt y => inr (VInt (fz x y))
  | VInt x, VFloat y => inr (VFloat (fq (inject_Z x) y))
  | VFloat x, VInt y => inr (VFloat (fq x (inject_Z y)))
  | VFloat x, VFloat y => inr (VFloat (fq x y))
  | VNp x, VInt y => inr (VNp (fq x (inject_Z y)))
  | VInt x, VNp y => inr (VNp (fq (inject_Z x) y))
  | VNp x, VFloat y | VFloat x, VNp y | VNp x, VNp y => inr (VNp (fq x y))
  | _, _ => inl TypeError
  end.

Definition py_add := py_arith Qplus Z.add.
Definition py_sub := py_arith Qminus Z.sub.
Definition py_mul := py_arith Qmult Z.mul.

Definition is_np (v : pyval) : bool := match v with VNp _ => true | _ => false end.

(** [a / b]: Python raises ZeroDivisionError on a zero divisor; NumPy
    returns an infinity or NaN instead, which is not represented. *)
Definition py_div (a b : pyval) : exn + pyval :=
  match num_val a, num_val b with
  | inr x, inr y =>
      if Qeq_bool y 0
      then inl (if is_np a || is_np b then model_exn NonFinite else ZeroDivisionError)
      else inr (if is_np a || is_np b then VNp (x / y) else VFloat (x / y))
  | _, _ => inl TypeError
  end.

(** ** The non-linear fixed point of one time step

    The non-linear branch of the time loop, with the enclosing closure
    [solveOneStep] (at the current [i]) as its parameter [solve]; the
    other parameters are the attributes of [self] it reads. *)
Section FixedPoint.

Variable lin_norm : list Q -> Q.
Variable nb_x_steps : nat.
Variable dX : option Q.
Variable nb_non_linear_iter : nat.
Variable nb_non_linear_tol : Q.
Variable solve : list Q -> loc -> M loc.

(** [gamma] and [optimizedVol] of one pass, from [solution_prev_iter]. *)
Definition next_vol (vol0 vol1 : Q) (notional : option Q) (solution_prev_iter : loc)
    : M (list Q) :=
  prev <- read solution_prev_iter ;;
  dx <- lift (match dX with
              | Some x => inr x | None => inl (model_exn NonFinite) end) ;;
  gamma <- lift (gamma_array nb_x_steps dx prev) ;;
  notional' <- lift (match notional with
                     | Some n => inr n | None => inl TypeError end) ;;
  lift (optimizedVol vol0 vol1 notional' gamma).

(** [lin.norm(solution_curr_iter - solution_prev_iter) / self.nb_x_steps
     <= self.nb_non_linear_tol] *)
Definition converged (solution_curr_iter solution_prev_iter : loc) : M bool :=
  curr <- read solution_curr_iter ;;
  prev <- read solution_prev_iter ;;
  ret (Qle_bool (lin_norm (zip_with Qminus curr prev)
                 / inject_Z (Z.of_nat nb_x_steps))
                nb_non_linear_tol).

(** The [while nlIter < self.nb_non_linear_iter] loop.  [fuel] is
    [nb_non_linear_iter - nlIter]; the result is the binding of
    [solution_curr_iter] when the loop is left ([None]: never assigned)
    and the final [nlIter]. *)
Fixpoint non_linear_loop (vol0 vol1 : Q) (notional : option Q) (solution : loc)
    (fuel nlIter : nat) (solution_prev_iter : loc) (solution_curr_iter : option loc)
    : M (option loc * nat) :=
  match fuel with
  | O => ret (solution_curr_iter, nlIter)
  | S fuel' =>
      optVol <- next_vol vol0 vol1 notional solution_prev_iter ;;
      curr <- solve optVol solution ;;
      let nlIter := S nlIter in
      stop <- converged curr solution_prev_iter ;;
      if stop then ret (Some curr, nlIter)
      else non_linear_loop vol0 vol1 notional solution fuel' nlIter curr (Some curr)
  end.

(** The non-linear branch.  The name [solution_curr_iter] is local to
    [solvePDE]; if the loop body never runs it is unbound when
    [solution = solution_curr_iter] reads it (with a zero iteration cap
    that already happens at the first time step, so a binding left by an
    earlier time step is never read). *)
Definition non_linear_step (vol : pyval) (notional : option Q) (solution : loc)
    : M loc :=
  v0 <- lift (vol_component vol 0) ;;
  v1 <- lift (vol_component vol 1) ;;
  let initVol := replicate nb_x_steps ((1#2) * (v0 + v1)) in
  solution_prev_iter <- solve initVol solution ;;
  r <- non_linear_loop v0 v1 notional solution
         nb_non_linear_iter 0 solution_prev_iter None ;;
  match fst r with
  | Some solution_curr_iter => ret solution_curr_iter
  | None => raise UnboundLocalError
  end.

End FixedPoint.

(** The operand of [np.log]: a Python [float] or a [numpy.float64] is
    taken as it is; a Python [int] is first converted to a NumPy integer,
    which exists from [-2^63] up to [2^64 - 1], and beyond that range the
    call raises TypeError (the number stays a Python object, which has no
    [log] method).  Of the other values only the refusal of [None] and of
    a string is modelled; the setters store none of them. *)
Definition np_log_operand (v : pyval) : exn + Q :=
  match v with
  | VFloat q => inr q
  | VNp q => inr q
  | VInt z =>
      if ((- 2 ^ 63 <=? z) && (z <? 2 ^ 64))%Z then inr (inject_Z z) else inl TypeError
  | _ => inl TypeError
  end.

Section Solver.

(** Library functions the solver calls: [np.log], [np.exp], [np.sqrt],
    [scipy.linalg.norm], [scipy.linalg.solve_banded] on the three rows
    and the right-hand side, and the evaluation of
    [scipy.interpolate.CubicSpline(x, y)] at a point. *)
Variables np_log np_exp np_sqrt : Q -> Q.
Variable lin_norm : list Q -> Q.
Variable solve_banded : list Q -> list Q -> list Q -> list Q -> exn + list Q.
Variable CubicSpline : list Q -> list Q -> Q -> exn + Q.

Definition clamp_down (down_barrier : xfloat) (x_min : Q) : Q :=
  match down_barrier with
  | Fin d => if Qle_bool x_min (np_log d) then np_log d else x_min
  | _ => x_min
  end.
Definition clamp_up (up_barrier : xfloat) (x_max : Q) : Q :=
  match up_barrier with
  | Fin u => if Qle_bool (np_log u) x_max then np_log u else x_max
  | _ => x_max
  end.

Definition NonLinearPDESolver_init (payoff : Payoff) (nb_t_steps nb_x_steps : nat)
    (nb_std_down nb_std_up : Q) (nb_non_linear_iter : nat) (nb_non_linear_tol : Q)
    : M NonLinearPDESolver :=
  let '(t, dT) := linspace (getExpiry payoff) 0 nb_t_steps in
  t_mesh <- alloc t ;;
  let '(down_barrier, up_barrier) := getContinousBarriers payoff in
  rs <- getReferenceSpot ;; rs <- lift (np_log_operand rs) ;;
  rv <- getReferenceVol ;; rv <- lift (num_val rv) ;;
  let x_min := np_log rs + nb_std_down * rv * np_sqrt (getExpiry payoff) in
  rs' <- getReferenceSpot ;; rs' <- lift (np_log_operand rs') ;;
  rv' <- getReferenceVol ;; rv' <- lift (num_val rv') ;;
  let x_max := np_log rs' + nb_std_up * rv' * np_sqrt (getExpiry payoff) in
  let x_min := clamp_down down_barrier x_min in
  let x_max := clamp_up up_barrier x_max in
  let '(x, dX) := linspace x_min x_max nb_x_steps in
  x_mesh <- alloc x ;;
  s_mesh <- alloc (map np_exp x) ;;
  (match down_barrier with
   | Fin d => if Qeq_bool (np_log d) x_min then store_first s_mesh d else ret tt
   | _ => ret tt
   end) ;;;
  (match up_barrier with
   | Fin u => if Qeq_bool (np_log u) x_max then store_last s_mesh u else ret tt
   | _ => ret tt
   end) ;;;
  ret (mkSolver payoff t_mesh dT nb_t_steps x_mesh dX nb_x_steps s_mesh
                nb_non_linear_iter nb_non_linear_tol).

Section SolvePDE.

Variable self : NonLinearPDESolver.

(** The closure [solveOneStep(vol, solution_before)]; it reads the loop
    variable [i] of the enclosing time loop.  [lin.solve_banded] is
    called with [overwrite_b=True] and its result is dropped: the
    solution is what the call leaves in [solution_after]. *)
Definition solveOneStep (i : nat) (vol : list Q) (solution_before : loc) : M loc :=
  let n := nb_x_steps self in
  let halfVar := halfVar_of vol in
  let bandedMatrix :=
    match coefficients (dT self) (dX self) with
    | Some (firstOrder, secondOrder) =>
        Some (band_upper n firstOrder secondOrder halfVar,
              diagonal secondOrder halfVar,
              band_lower n firstOrder secondOrder halfVar)
    | None => None
    end in
  before <- read solution_before ;;
  solution_after <- alloc before ;;
  t <- read (t_mesh self) ;;
  t_next <- lift (index t (i + 1)) ;;
  boundaries <- getDirichletBoundaries (payoff self)
                  [OArray (s_mesh self); OScalar (VNp t_next); OArray solution_after] ;;
  match bandedMatrix with
  | None => raise (model_exn NonFinite)
  | Some (upper, diag, lower) =>
      b <- read solution_after ;;
      b0 <- lift (first_elt b) ;;
      l0 <- lift (index lower 0) ;;
      b <- lift (set_first b (b0 - l0 * fst boundaries)) ;;
      write solution_after b ;;;
      b <- read solution_after ;;
      b_last <- lift (last_elt b) ;;
      u_last <- lift (last_elt upper) ;;
      b <- lift (set_last b (b_last - u_last * snd boundaries)) ;;
      write solution_after b ;;;
      b <- read solution_after ;;
      x <- lift (solve_banded upper diag lower b) ;;
      write solution_after x ;;;
      getConstraint (payoff self) (s_mesh self) t_next solution_after
  end.

(** The body of [for i in range(self.nb_t_steps - 1)]. *)
Definition time_step (notional : option Q) (i : nat) (solution : loc) : M loc :=
  vol <- getVol ;;
  nl <- isNonLinear ;;
  if nl then
    non_linear_step lin_norm (nb_x_steps self) (dX self)
      (nb_non_linear_iter self) (nb_non_linear_tol self)
      (solveOneStep i) vol notional solution
  else
    v <- lift (num_val vol) ;;
    solveOneStep i (replicate (nb_x_steps self) v) solution.

Fixpoint time_loop (notional : option Q) (steps : list nat) (solution : loc) : M loc :=
  match steps with
  | [] => ret solution
  | i :: steps' =>
      solution' <- time_step notional i solution ;;
      time_loop notional steps' solution'
  end.

Definition dT_nonneg : bool :=
  match dT self with Some d => Qle_bool 0 d | None => false end.

(** [self.dT >= 0.0 or not (continuous_barriers[0] < spot < continuous_barriers[1])] *)
Definition fast_path (spot : pyval) : M bool :=
  if dT_nonneg then ret true
  else
    s <- lift (num_val spot) ;;
    let continuous_barriers := getContinousBarriers (payoff self) in
    ret (negb (xltb_l (fst continuous_barriers) s
               && xltb_r s (snd continuous_barriers))).

Definition solvePDE : M pyval :=
  spot <- getSpot ;;
  let notional := getNotional (payoff self) in
  fast <- fast_path spot ;;
  if fast then
    premium <- getPayoff (payoff self) (OScalar spot) ;;
    py_float premium
  else
    nl <- isNonLinear ;;
    if nl && notional_missing notional
    then raise (Exception "Non Linear PDE: Expecting a non-null notional")
    else
      solution <- getPayoff (payoff self) (OArray (s_mesh self)) ;;
      solution <- as_array solution ;;
      t <- read (t_mesh self) ;;
      t0 <- lift (index t 0) ;;
      solution <- getConstraint (payoff self) (s_mesh self) t0 solution ;;
      solution <- time_loop notional (seq 0 (nb_t_steps self - 1)) solution ;;
      x <- read (x_mesh self) ;;
      sol <- read solution ;;
      s <- lift (num_val spot) ;;
      premium <- lift (CubicSpline x sol (np_log s)) ;;
      ret (VNp premium).

End SolvePDE.

(** ** Greeks.py *)

Definition computeGreeks (pde_solver : NonLinearPDESolver) (bump_for_delta : Q)
    : M (pyval * pyval * pyval * pyval) :=
  (* Preserve previous state. *)
  spot <- getSpot ;;
  (* Compute the states. *)
  spot_bump <- lift (py_mul (VFloat bump_for_delta) spot) ;;
  premium <- solvePDE pde_solver ;;
  down <- lift (py_sub spot spot_bump) ;;
  setSpot down ;;;
  premium_minus <- solvePDE pde_solver ;;
  up <- lift (py_add spot spot_bump) ;;
  setSpot up ;;;
  premium_plus <- solvePDE pde_solver ;;
  setSpot spot ;;;
  nl <- isNonLinear ;;
  premium_linear <-
    (if nl then
       vol <- getVol ;;
       mid <- lift (mid_vol vol) ;;
       setVol mid ;;;
       premium_linear <- solvePDE pde_solver ;;
       setVol vol ;;;
       ret premium_linear
     else ret premium) ;;
  (* Compute the Greeks by finite differences. *)
  d1 <- lift (py_sub premium_plus premium_minus) ;;
  d2 <- lift (py_mul (VFloat 100) d1) ;;
  d3 <- lift (py_mul (VFloat 2) spot_bump) ;;
  delta <- lift (py_div d2 d3) ;;
  g1 <- lift (py_mul (VFloat 2) premium) ;;
  g2 <- lift (py_sub premium_plus g1) ;;
  g3 <- lift (py_add g2 premium_minus) ;;
  g4 <- lift (py_mul (VFloat 100) g3) ;;
  g5 <- lift (py_mul spot_bump spot_bump) ;;
  gamma <- lift (py_div g4 g5) ;;
  surprime <- lift (py_sub premium premium_linear) ;;
  ret (premium, delta, gamma, surprime).

End Solver.

(** ** Vocabulary of the statements *)

Inductive setter : Type := SetSpot | SetReferenceSpot | SetVol | SetReferenceVol.

Definition run_setter (s : setter) : pyval -> M unit :=
  match s with
  | SetSpot => setSpot
  | SetReferenceSpot => setReferenceSpot
  | SetVol => setVol
  | SetReferenceVol => setReferenceVol
  end.

(** The inputs validation rejects. *)
Inductive rejected_spot : pyval -> Prop :=
| spot_non_positive v q : num_val v = inr q -> q <= 0 -> rejected_spot v.

Inductive rejected_vol : pyval -> Prop :=
| vol_non_positive v q : num_val v = inr q -> q <= 0 -> rejected_vol v
| vol_not_two_floats l :
    (forall bid ask, l <> [VFloat bid; VFloat ask]) -> rejected_vol (VTuple l)
| vol_unordered bid ask :
    ~ (0 < bid /\ bid <= ask) -> rejected_vol (VTuple [VFloat bid; VFloat ask]).

Definition rejected (s : setter) (v : pyval) : Prop :=
  match s with
  | SetSpot | SetReferenceSpot => rejected_spot v
  | SetVol | SetReferenceVol => rejected_vol v
  end.

Definition sample_underlying : Underlying :=
  mkUnderlying (VNp 100) (VNp 100) (VTuple [VFloat (3#20); VFloat (1#5)])
               (VFloat (7#40)) (Some true).

(** ** Library functions on rationals

    Rational counterparts of the library functions, for the statements
    below that are evaluated on concrete data: truncated series for the
    exponential and the logarithm, Newton's iteration for the square
    root, the Euclidean norm through that square root, elimination
    without pivoting for the tridiagonal solve, and interpolation between
    the two neighbouring nodes in place of the cubic spline.  Intermediate
    results are cut to fifteen decimal places. *)

Definition cut (q : Q) : Q :=
  ((Qnum q * 1000000000000000) / Zpos (Qden q))%Z # 1000000000000000.

Fixpoint exp_series (k n : nat) (x : Q) : Q :=
  match k with
  | O => 1
  | S k' => 1 + x / inject_Z (Z.of_nat n) * exp_series k' (S n) x
  end.

Fixpoint repeat_square (k : nat) (y : Q) : Q :=
  match k with
  | O => y
  | S k' => repeat_square k' (cut (y * y))
  end.

Definition exp_approx (x : Q) : Q :=
  repeat_square 4 (cut (exp_series 12 1 (cut (x / 16)))).

(** [x = m * 2^k] with [1 <= m < 2]. *)
Fixpoint mantissa (fuel : nat) (m : Q) (k : Z) : Q * Z :=
  match fuel with
  | O => (m, k)
  | S fuel' =>
      if Qle_bool 2 m then mantissa fuel' (cut (m / 2)) (k + 1)
      else if Qltb m 1 then mantissa fuel' (cut (m * 2)) (k - 1)
      else (m, k)
  end.

Fixpoint atanh_series (k n : nat) (z2 : Q) : Q :=
  match k with
  | O => 0
  | S k' => 1 / inject_Z (Z.of_nat n) + z2 * atanh_series k' (S (S n)) z2
  end.

Definition ln2 : Q := 6931471805599453 # 10000000000000000.

(** Meaningless on non-positive arguments, where [np.log] is not finite. *)
Definition log_approx (x : Q) : Q :=
  if Qle_bool x 0 then 0
  else
    let '(m, k) := mantissa 128 x 0 in
    let z := cut ((m - 1) / (m + 1)) in
    cut (inject_Z k * ln2 + 2 * z * atanh_series 8 1 (cut (z * z))).

Fixpoint newton_sqrt (k : nat) (x r : Q) : Q :=
  match k with
  | O => r
  | S k' => newton_sqrt k' x (cut ((r + x / r) / 2))
  end.

Definition sqrt_approx (x : Q) : Q :=
  if Qle_bool x 0 then 0 else newton_sqrt 8 (cut x) (cut ((x + 1) / 2)).

Definition norm_approx (v : list Q) : Q :=
  sqrt_approx (Qred (fold_right (fun x acc => x * x + acc) 0 v)).

(** Forward elimination then back substitution on the banded storage
    [upper[j] = a[j-1][j]], [diag[j] = a[j][j]], [lower[j] = a[j+1][j]]. *)
Fixpoint eliminate (rows : list (Q * Q * Q * Q)) (c' d' : Q)
    : exn + list (Q * Q) :=
  match rows with
  | [] => inr []
  | (a, b, c, d) :: rest =>
      let den := b - a * c' in
      if Qeq_bool den 0 then inl LinAlgError
      else
        let cn := Qred (c / den) in
        let dn := Qred ((d - a * d') / den) in
        match eliminate rest cn dn with
        | inl e => inl e
        | inr tl => inr ((cn, dn) :: tl)
        end
  end.

Fixpoint back_substitute (cd : list (Q * Q)) : list Q :=
  match cd with
  | [] => []
  | (c, d) :: rest =>
      let xs := back_substitute rest in
      Qred (d - c * nth 0 xs 0) :: xs
  end.

Definition tridiagonal_solve (upper diag lower b : list Q) : exn + list Q :=
  if negb (Nat.eqb (length diag) (length b)) then inl ValueError
  else
    let n := length b in
    let rows :=
      map (fun j => (nth (j - 1) lower 0, nth j diag 0, nth (j + 1) upper 0, nth j b 0))
          (seq 0 n) in
    match eliminate rows 0 0 with
    | inl e => inl e
    | inr cd => inr (back_substitute cd)
    end.

Fixpoint interpolate (x y : list Q) (p : Q) : exn + Q :=
  match x, y with
  | x0 :: ((x1 :: _) as x'), y0 :: ((y1 :: _) as y') =>
      if Qle_bool x1 x0 then inl ValueError
      else if Qle_bool p x1 || Nat.eqb (length x') 1
           then inr (Qred (y0 + (y1 - y0) * (p - x0) / (x1 - x0)))
           else interpolate x' y' p
  | _, _ => inl ValueError
  end.

(** The solver and the Greeks on these functions. *)
Definition init_q := NonLinearPDESolver_init log_approx exp_approx sqrt_approx.
Definition solvePDE_q := solvePDE log_approx norm_approx tridiagonal_solve interpolate.
Definition computeGreeks_q :=
  computeGreeks log_approx norm_approx tridiagonal_solve interpolate.

(** [NonLinearPDESolver(payoff, underlying, nb_t_steps, nb_x_steps)] in a
    world that holds [underlying] and no array yet, followed by [run] on
    the solver. *)
Definition with_solver {A} (payoff : Payoff) (underlying : Underlying)
    (nb_t_steps nb_x_steps : nat) (run : NonLinearPDESolver -> M A)
    : (exn + A) * world :=
  (self <- init_q payoff nb_t_steps nb_x_steps (- (6)) 6 50 (1 # 100000000) ;;
   run self) (World underlying []).

(** ** Sample contracts and market states *)

Definition put_3900 (notional : option Q) : Payoff :=
  DownAndOutPut (mkBase 1 notional) 4200 3900 0.
Definition call_100 (notional : option Q) : Payoff :=
  AmericanCall (mkBase 1 notional) 100.
Definition call_spread_120 (notional : option Q) : Payoff :=
  UpAndOutCallSpread (mkBase 1 notional) 100 110 120.
Definition no_touch_80_120 (notional : option Q) : Payoff :=
  DoubleNoTouch (mkBase (1#12) notional) 80 120.

(** [Underlying(spot, 0.2)] and [Underlying(spot, (0.15, 0.2))]. *)
Definition linear_at (spot : pyval) : Underlying :=
  mkUnderlying spot spot (VFloat (1#5)) (VFloat (1#5)) (Some false).
Definition non_linear_at (spot : pyval) : Underlying :=
  mkUnderlying spot spot (VTuple [VFloat (3#20); VFloat (1#5)])
               (VFloat ((1#2) * ((3#20) + (1#5)))) (Some true).

Definition missing_notional_error : exn :=
  Exception "Non Linear PDE: Expecting a non-null notional".

(** An option that has expired (zero time to expiry). *)
Definition expired_call_100 : Payoff := AmericanCall (mkBase 0 None) 100.

(** ** Vocabulary of the fixed-point statements *)

Section FixedPointVocabulary.

Variable lin_norm : list Q -> Q.
Variable nb_x_steps : nat.
Variable dX : option Q.
Variable nb_non_linear_iter : nat.
Variable nb_non_linear_tol : Q.
Variable solve : list Q -> loc -> M loc.
Variable notional : option Q.
Variable solution : loc.

(** One pass of the loop body: the volatility chosen from the previous
    iterate, then the re-solve from [solution]. *)
Definition pass (vol0 vol1 : Q) (solution_prev_iter : loc) : M loc :=
  optVol <- next_vol nb_x_steps dX vol0 vol1 notional solution_prev_iter ;;
  solve optVol solution.

(** [within_tolerance curr prev w b]: in world [w] the test
    [norm(curr - prev) / nb_x_steps <= nb_non_linear_tol] evaluates to [b]. *)
Definition within_tolerance (curr prev : loc) (w : world) (b : bool) : Prop :=
  fst (converged lin_norm nb_x_steps nb_non_linear_tol curr prev w) = inr b.

(** [passes prev w trace met]: started from the iterate [prev] in world
    [w], the loop computes the iterates of [trace] in that order (each
    with the world its pass leaves); it goes on after an iterate only if
    that one misses the tolerance, and [met] tells whether the last one
    meets it. *)
Fixpoint passes (vol0 vol1 : Q) (prev : loc) (w : world)
    (trace : list (loc * world)) (met : bool)
    : Prop :=
  match trace with
  | [] => True
  | (curr, w1) :: rest =>
      pass vol0 vol1 prev w = (inr curr, w1)
      /\ match rest with
         | [] => within_tolerance curr prev w1 met
         | _ :: _ => within_tolerance curr prev w1 false /\ passes vol0 vol1 curr w1 rest met
         end
  end.

End FixedPointVocabulary.

(** A step solver on which the fixed point can be run: the implicit step
    of [solveOneStep] with zero boundary values and no constraint. *)
Definition plain_implicit_step (dT dX : Q) (n : nat) (vol : list Q) (solution_before : loc)
    : M loc :=
  before <- read solution_before ;;
  match coefficients (Some dT) (Some dX) with
  | None => raise (model_exn NonFinite)
  | Some (firstOrder, secondOrder) =>
      let halfVar := halfVar_of vol in
      x <- lift (tridiagonal_solve (band_upper n firstOrder secondOrder halfVar)
                   (diagonal secondOrder halfVar)
                   (band_lower n firstOrder secondOrder halfVar) before) ;;
      alloc x
  end.

Definition sample_fixed_point (cap : nat) : (exn + loc) * world :=
  non_linear_step norm_approx 5 (Some (1#10)) cap (1 # 100000000)
    (plain_implicit_step (- (1#100)) (1#10) 5)
    (VTuple [VFloat (3#20); VFloat (1#5)]) (Some (- (1))) 0%nat
    (World (non_linear_at (VNp 100)) [[0; 0; 1; 3; 6]]).

(** ** What a call leaves untouched

    [stable n w w']: the Underlying is the same object state and the
    arrays at the locations below [n] have the same contents (the store
    may have grown).  [frames n m P]: run in a store that has at least [n]
    arrays, [m] is stable for [n] whether it returns or raises, and what
    it returns satisfies [P]. *)

Definition stable (n : nat) (w w' : world) : Prop :=
  udl w' = udl w
  /\ (length (arrays w) <= length (arrays w'))%nat
  /\ forall l, (l < n)%nat -> arrays w' !! l = arrays w !! l.

Definition frames {A} (n : nat) (m : M A) (P : A -> Prop) : Prop :=
  forall w, (n <= length (arrays w))%nat ->
    stable n w (snd (m w)) /\ forall a, fst (m w) = inr a -> P a.

Definition fresh (n : nat) (l : loc) : Prop := (n <= l)%nat.

Definition fresh_operand (n : nat) (o : operand) : Prop :=
  match o with OArray l => fresh n l | OScalar _ => True end.

(** [post m u Phi]: when [m], started with the Underlying in state [u],
    returns [a], the Underlying is then in a state [u'] with [Phi a u']. *)
Definition post {A} (m : M A) (u : Underlying) (Phi : A -> Underlying -> Prop) : Prop :=
  forall w a w', udl w = u -> m w = (inr a, w') -> Phi a (udl w').

(** The state of an Underlying that its setters can produce: the flag
    says whether the volatility is a pair of floats or a number. *)
Definition consistent (u : Underlying) : Prop :=
  match is_non_linear u with
  | Some true => exists bid ask, vol u = VTuple [VFloat bid; VFloat ask]
  | _ => exists v, num_val (vol u) = inr v
  end.

(** A conditional store into [solution] returns, keeps the Underlying and
    every other array, and leaves [solution] with as many elements. *)
Definition kept (solution : loc) (a : list Q) (w w' : world) : Prop :=
  udl w' = udl w
  /\ length (arrays w') = length (arrays w)
  /\ (forall l, l <> solution -> arrays w' !! l = arrays w !! l)
  /\ exists a', arrays w' !! solution = Some a' /\ length a' = length a.

(** ** Vocabulary of the further properties *)

(** The inputs validation accepts. *)
Definition valid_spot (v : pyval) : Prop :=
  exists q, num_val v = inr q /\ 0 < q.

Definition valid_vol (v : pyval) : Prop :=
  (exists q, v = VFloat q /\ 0 < q)
  \/ (exists bid ask, v = VTuple [VFloat bid; VFloat ask] /\ 0 < bid /\ bid <= ask).

(** The attributes a call did not assign. *)
Definition same_but_spot (u u' : Underlying) : Prop :=
  reference_spot u' = reference_spot u /\ vol u' = vol u
  /\ reference_vol u' = reference_vol u /\ is_non_linear u' = is_non_linear u.
Definition same_but_reference_spot (u u' : Underlying) : Prop :=
  spot u' = spot u /\ vol u' = vol u
  /\ reference_vol u' = reference_vol u /\ is_non_linear u' = is_non_linear u.
Definition same_but_vol (u u' : Underlying) : Prop :=
  spot u' = spot u /\ reference_spot u' = reference_spot u
  /\ reference_vol u' = reference_vol u.
Definition same_but_reference_vol (u u' : Underlying) : Prop :=
  spot u' = spot u /\ reference_spot u' = reference_spot u
  /\ vol u' = vol u /\ is_non_linear u' = is_non_linear u.

(** What a payoff is worth once a continuous barrier is breached, whether a
    spot lies strictly inside the barriers, and the payoff of the contract
    without its barrier. *)
Definition knock_out_value (p : Payoff) : Q :=
  match p with
  | DownAndOutPut _ _ _ rebate => rebate
  | _ => 0
  end.

Definition inside_barriers (p : Payoff) (s : Q) : bool :=
  xltb_l (fst (getContinousBarriers p)) s && xltb_r s (snd (getContinousBarriers p)).

Definition alive_value (p : Payoff) (s : Q) : Q :=
  match p with
  | AmericanCall _ strike => Qmax (s - strike) 0
  | UpAndOutCallSpread _ strike upper_strike _ =>
      Qmax (s - strike) 0 - Qmax (s - upper_strike) 0
  | DownAndOutPut _ strike _ _ => Qmax (strike - s) 0
  | DoubleNoTouch _ _ _ => 1
  end.

(** The contents [getConstraint] gives the solution [a] on the spot mesh
    [s]: the early-exercise floor, or the knocked-out end nodes. *)
Definition constrained_values (p : Payoff) (s a : list Q) : list Q :=
  match p with
  | AmericanCall _ strike =>
      zip_with Qmax (map (fun x => Qmax (x - strike) 0) s) a
  | UpAndOutCallSpread _ _ _ ko_barrier =>
      match last s with
      | Some top => if Qle_bool ko_barrier top then <[pred (length a) := 0]> a else a
      | None => a
      end
  | DownAndOutPut _ _ ko_barrier rebate =>
      match s !! 0%nat with
      | Some bottom => if Qle_bool bottom ko_barrier then <[0%nat := rebate]> a else a
      | None => a
      end
  | DoubleNoTouch _ ko_barrier_down ko_barrier_up =>
      let a1 := match s !! 0%nat with
                | Some bottom =>
                    if Qle_bool bottom ko_barrier_down then <[0%nat := 0]> a else a
                | None => a
                end in
      match last s with
      | Some top => if Qle_bool ko_barrier_up top then <[pred (length a1) := 0]> a1 else a1
      | None => a1
      end
  end.

(** Contracts whose parameters are ordered the usual way: the upper strike
    of a call spread is not below its strike, a rebate is not negative. *)
Definition ordered_parameters (p : Payoff) : Prop :=
  match p with
  | UpAndOutCallSpread _ strike upper_strike _ => strike <= upper_strike
  | DownAndOutPut _ _ _ rebate => 0 <= rebate
  | _ => True
  end.

(** The largest value the payoff of a capped contract can take. *)
Definition payoff_cap (p : Payoff) : option Q :=
  match p with
  | UpAndOutCallSpread _ strike upper_strike _ => Some (upper_strike - strike)
  | DoubleNoTouch _ _ _ => Some 1
  | _ => None
  end.

(** The test of the fast path of [solvePDE], at a spot that is a number:
    [self.dT >= 0.0 or not (barriers[0] < spot < barriers[1])]. *)
Definition on_fast_path (self : NonLinearPDESolver) (s : Q) : bool :=
  dT_nonneg self || negb (inside_barriers (payoff self) s).

(** The states of an Underlying its constructor and setters produce: the
    volatility passes validation and the flag tells whether it is a pair. *)
Definition well_formed (u : Underlying) : Prop :=
  valid_vol (vol u) /\ is_non_linear u = Some (is_tuple (vol u)).

(** What [computeGreeks] never touches: the reference spot and the
    reference volatility of the Underlying, on which the meshes were
    built, and the contents of the arrays that exist. *)
Definition keeps_references (w w' : world) : Prop :=
  reference_spot (udl w') = reference_spot (udl w)
  /\ reference_vol (udl w') = reference_vol (udl w)
  /\ forall l a, arrays w !! l = Some a -> arrays w' !! l = Some a.

(** [always R m]: the world [m] leaves is related by [R] to the world it
    was run in, whether it returns or raises. *)
Definition always {A} (R : world -> world -> Prop) (m : M A) : Prop :=
  forall w, R w (snd (m w)).

(** A value that is a float, Python's or NumPy's. *)
Definition float_value (v : pyval) (q : Q) : Prop := v = VFloat q \/ v = VNp q.

(** Contracts whose finite continuous barriers are positive, so that their
    logarithms are numbers. *)
Definition positive_barriers (p : Payoff) : Prop :=
  (forall b, fst (getContinousBarriers p) = Fin b -> 0 < b)
  /\ (forall b, snd (getContinousBarriers p) = Fin b -> 0 < b).

(** ** Banded systems

    [solve_banded((1, 1), ab, b)] reads its matrix from the three rows of
    [ab]: entry [(i, j)] of the matrix is [ab[1 + i - j, j]].  Row [i] of
    the matrix has [ab[2, i - 1]] left of the diagonal, [ab[1, i]] on it
    and [ab[0, i + 1]] right of it. *)
Definition sub_entry (lower : list Q) (i : nat) : Q :=
  match i with O => 0 | S j => nth j lower 0 end.
Definition super_entry (upper : list Q) (i : nat) : Q := nth (S i) upper 0.

(** Row [i] of the product of the matrix with the vector [x]. *)
Definition banded_row (upper diag lower x : list Q) (i : nat) : Q :=
  sub_entry lower i * (match i with O => 0 | S j => nth j x 0 end)
  + nth i diag 0 * nth i x 0
  + super_entry upper i * nth (S i) x 0.

(** [f 0 + ... + f (k - 1)]. *)
Fixpoint sumQ (f : nat -> Q) (k : nat) : Q :=
  match k with
  | O => 0
  | S k' => sumQ f k' + f k'
  end.

(** ** PDESolver_NonLinear.py *)

Section Driver.

Variables np_log np_exp np_sqrt : Q -> Q.
Variable lin_norm : list Q -> Q.
Variable solve_banded : list Q -> list Q -> list Q -> list Q -> exn + list Q.
Variable CubicSpline : list Q -> list Q -> Q -> exn + Q.

(** [computeGreeksAtSpot(spot, payoff, underlying)].  The function works
    on [deepcopy(underlying)]: a world of its own that starts with a copy
    of the Underlying and no array.  The solver is built with 253 time
    nodes and 500 spot nodes and the defaults of its other parameters
    ([-6.0], [6.0], [50], [1.0e-8]); [computeGreeks] runs with its default
    bump [0.01]. *)
Definition computeGreeksAtSpot (spot : pyval) (payoff : Payoff) (underlying : Underlying)
    : (exn + (pyval * pyval * pyval * pyval)) * world :=
  (setReferenceSpot spot ;;;
   setSpot spot ;;;
   pde_solver <- NonLinearPDESolver_init np_log np_exp np_sqrt payoff 253 500
                   (- (6)) 6 50 (1 # 100000000) ;;
   computeGreeks np_log lin_norm solve_banded CubicSpline pde_solver (1 # 100))
  (World underlying []).

End Driver.

(** The sequence [y] moved one place up, with 0 in front: the left
    neighbours of its entries. *)
Definition shifted (y : nat -> Q) (i : nat) : Q :=
  match i with O => 0 | S j => y j end.

(** * Properties *)

(** ** Underlying: construction *)

Example init_linear :
  Underlying_init (VFloat 100) (VFloat (1#5))
  = inr (mkUnderlying (VFloat 100) (VFloat 100) (VFloat (1#5)) (VFloat (1#5)) (Some false)).
Proof. reflexivity. Qed.

Example init_non_linear :
  Underlying_init (VNp 100) (VTuple [VFloat (3#20); VFloat (1#5)])
  = inr (mkUnderlying (VNp 100) (VNp 100) (VTuple [VFloat (3#20); VFloat (1#5)])
                      (VFloat ((1#2) * ((3#20) + (1#5)))) (Some true)).
Proof. reflexivity. Qed.

Example init_np_vol_rejected :
  Underlying_init (VFloat 100) (VNp (1#5))
  = inl (Exception "validateVol : Unsupported type for Volatility").
Proof. reflexivity. Qed.


(** ** Numbers and the monad *)

Lemma Qltb_lt (x y : Q) : Qltb x y = true <-> x < y.
Proof.
  unfold Qltb. rewrite negb_true_iff. split.
  - intros H. apply Qnot_le_lt. intros Hle.
    apply Qle_bool_iff in Hle. congruence.
  - intros H. destruct (Qle_bool y x) eqn:E; [|reflexivity].
    apply Qle_bool_iff in E. exfalso. exact (Qlt_not_le _ _ H E).
Qed.

Lemma bind_ok {A B} (m : M A) (k : A -> M B) w a w' :
  m w = (inr a, w') -> bind m k w = k a w'.
Proof. intros H. unfold bind. now rewrite H. Qed.

Lemma bind_inv {A B} (m : M A) (k : A -> M B) w r w' :
  bind m k w = (r, w') ->
  (exists e, m w = (inl e, w') /\ r = inl e)
  \/ (exists a w1, m w = (inr a, w1) /\ k a w1 = (r, w')).
Proof.
  unfold bind. destruct (m w) as [[e|a] w1]; intros H.
  - left. exists e. now inversion H.
  - right. now exists a, w1.
Qed.

(** ** Underlying: setters that raise leave the object alone *)



Lemma validateSpot_rejects v : rejected_spot v -> exists e, validateSpot v = inl e.
Proof.
  intros [v' q Hv Hq]. unfold validateSpot. rewrite Hv.
  apply Qle_bool_iff in Hq. rewrite Hq. eauto.
Qed.

Lemma validateVol_rejects v : rejected_vol v -> exists e, validateVol v = inl e.
Proof.
  intros [v' q Hv Hq | l Hl | bid ask Hord].
  - destruct v'; simpl in Hv; try discriminate; simpl; eauto.
    inversion Hv; subst. apply Qle_bool_iff in Hq. rewrite Hq. eauto.
  - simpl. destruct l as [|[] [|[] [|]]]; eauto.
    exfalso. eapply Hl. reflexivity.
  - simpl. destruct (Qltb 0 bid && Qle_bool bid ask) eqn:E; simpl; eauto.
    exfalso. apply Hord. apply andb_true_iff in E as [E1 E2].
    split; [now apply Qltb_lt | now apply Qle_bool_iff].
Qed.

(** Once validation has passed, the midpoint of the pair is defined. *)
Lemma mid_vol_after_validation l :
  validateVol (VTuple l) = inr tt -> exists m, mid_vol (VTuple l) = inr m.
Proof.
  simpl. destruct l as [|[] [|[] [|]]]; try discriminate.
  intros _. simpl. eauto.
Qed.

(** Whatever the reason a setter raises for, the world is then the one it
    was called in. *)
Lemma setter_raise_frame s v w e :
  fst (run_setter s v w) = inl e -> run_setter s v w = (inl e, w).
Proof.
  destruct s; simpl.
  - unfold setSpot, bind, lift. destruct (validateSpot v) as [e'|[]]; simpl.
    + now intros [= ->].
    + discriminate.
  - unfold setReferenceSpot, bind, lift. destruct (validateSpot v) as [e'|[]]; simpl.
    + now intros [= ->].
    + discriminate.
  - unfold setVol, bind, lift. destruct (validateVol v) as [e'|[]]; simpl.
    + now intros [= ->].
    + discriminate.
  - unfold setReferenceVol, bind, lift.
    destruct (validateVol v) as [e'|[]] eqn:Hval; simpl.
    + now intros [= ->].
    + destruct v as [| | | | |l]; cbn [is_tuple]; try (cbn; discriminate).
      destruct (mid_vol_after_validation _ Hval) as [m Hm].
      rewrite Hm. cbn. discriminate.
Qed.

(** C10.  A setter called with an input that validation rejects raises,
    and the world it leaves is the one it found: spot, reference spot,
    volatility, reference volatility and the non-linear flag are all
    unchanged. *)
Theorem setters_atomic_on_rejection (s : setter) (v : pyval) (w : world) :
  rejected s v -> exists e, run_setter s v w = (inl e, w).
Proof.
  intros Hrej.
  assert (exists e, fst (run_setter s v w) = inl e) as [e He].
  { destruct s; simpl in Hrej |- *.
    - destruct (validateSpot_rejects _ Hrej) as [e He].
      exists e. unfold setSpot, bind, lift. now rewrite He.
    - destruct (validateSpot_rejects _ Hrej) as [e He].
      exists e. unfold setReferenceSpot, bind, lift. now rewrite He.
    - destruct (validateVol_rejects _ Hrej) as [e He].
      exists e. unfold setVol, bind, lift. now rewrite He.
    - destruct (validateVol_rejects _ Hrej) as [e He].
      exists e. unfold setReferenceVol, bind, lift. now rewrite He. }
  exists e. now apply setter_raise_frame.
Qed.


Lemma setters_atomic_on_rejection_witness :
  exists e, run_setter SetVol (VTuple [VFloat (1#5); VFloat (3#20)])
                       (World sample_underlying [])
            = (inl e, World sample_underlying []).
Proof.
  apply (setters_atomic_on_rejection SetVol).
  simpl. apply vol_unordered. intros [_ H]. vm_compute in H. apply H. reflexivity.
Defined.

(** ** The implicit step: diagonal of the banded system *)

Lemma coefficients_inv dT dX firstOrder secondOrder :
  coefficients (Some dT) (Some dX) = Some (firstOrder, secondOrder) ->
  ~ dX == 0 /\ firstOrder = - (1#2) * dT / dX /\ secondOrder = - dT / (dX * dX).
Proof.
  unfold coefficients. destruct (Qeq_bool dX 0) eqn:E; [discriminate|].
  intros [= <- <-]. repeat split.
  intros H. apply Qeq_bool_iff in H. congruence.
Qed.

Lemma Qsquare_pos (x : Q) : ~ x == 0 -> 0 < x * x.
Proof.
  intros Hx. destruct (Qlt_le_dec 0 x) as [Hpos|Hle].
  - now apply Qmult_lt_0_compat.
  - assert (x < 0) as Hneg.
    { apply Qle_lt_or_eq in Hle as [H|H]; [exact H|]. now elim Hx. }
    assert (0 < - x) as Hpos by lra.
    assert ((- x) * (- x) == x * x) as Heq by ring.
    rewrite <- Heq. now apply Qmult_lt_0_compat.
Qed.

(** In an implicit step with [dT < 0] and a non-degenerate space step,
    the diagonal entry of a node with positive local volatility [v] is
    [1 - v^2 dT / dX^2], that is [1 + v^2 |dT| / dX^2], and it is strictly
    greater than 1. *)
Lemma diagonal_exceeds_one (dT dX firstOrder secondOrder : Q)
    (vol : list Q) (j : nat) (v : Q) :
  coefficients (Some dT) (Some dX) = Some (firstOrder, secondOrder) ->
  dT < 0 ->
  vol !! j = Some v ->
  0 < v ->
  exists d, diagonal secondOrder (halfVar_of vol) !! j = Some d
            /\ d == 1 - v * v * dT / (dX * dX)
            /\ 1 < d.
Proof.
  intros Hc HdT Hv Hpos.
  apply coefficients_inv in Hc as (HdX & _ & ->).
  exists (1 + 2 * ((1#2) * v * v) * (- dT / (dX * dX))).
  assert (0 < dX * dX) as Hsq by now apply Qsquare_pos.
  assert (~ dX * dX == 0) as Hsq0 by lra.
  split; [|split].
  - unfold diagonal, halfVar_of.
    rewrite !list_lookup_fmap, Hv. reflexivity.
  - field. exact HdX.
  - assert (0 < v * v * (- dT) * / (dX * dX)) as H.
    { repeat apply Qmult_lt_0_compat; try assumption; try lra.
      now apply Qinv_lt_0_compat. }
    assert (1 + 2 * ((1#2) * v * v) * (- dT / (dX * dX))
            == 1 + v * v * (- dT) * / (dX * dX)) as Heq by (field; exact HdX).
    rewrite Heq. lra.
Qed.

(** ** The non-linear loop: choice of the volatility *)

Lemma np_sign_pos x : 0 < x -> np_sign x = 1.
Proof.
  intros H. unfold np_sign.
  destruct (Qcompare_spec x 0) as [E|E|E]; try reflexivity; exfalso;
    [rewrite E in H|]; lra.
Qed.

Lemma np_sign_neg x : x < 0 -> np_sign x = - (1).
Proof.
  intros H. unfold np_sign.
  destruct (Qcompare_spec x 0) as [E|E|E]; try reflexivity; exfalso;
    [rewrite E in H|]; lra.
Qed.

Lemma np_sign_zero x : x == 0 -> np_sign x = 0.
Proof.
  intros H. unfold np_sign.
  destruct (Qcompare_spec x 0) as [E|E|E]; try reflexivity; exfalso;
    rewrite H in E; lra.
Qed.

Lemma choose_vol_cases (bid ask notional g : Q) :
  (0 < - g * notional -> choose_vol bid ask notional g == ask)
  /\ (- g * notional < 0 -> choose_vol bid ask notional g == bid)
  /\ (- g * notional == 0 -> choose_vol bid ask notional g == (1#2) * (bid + ask)).
Proof.
  unfold choose_vol. repeat split; intros H.
  - rewrite (np_sign_pos _ H). ring.
  - rewrite (np_sign_neg _ H). ring.
  - rewrite (np_sign_zero _ H). ring.
Qed.

Lemma copy_edges_inv (a r : list Q) :
  copy_edges a = inr r ->
  (2 <= length a)%nat
  /\ length r = length a
  /\ (forall j, (1 <= j < length a - 1)%nat -> r !! j = a !! j)
  /\ r !! 0%nat = r !! 1%nat
  /\ r !! (length a - 1)%nat = r !! (length a - 2)%nat.
Proof.
  unfold copy_edges.
  destruct (a !! 1%nat) as [a1|] eqn:H1; [|discriminate].
  rewrite length_insert.
  destruct (<[0%nat := a1]> a !! (length a - 2)%nat) as [b|] eqn:H2; [|discriminate].
  intros [= <-].
  assert (1 < length a)%nat as Hlen by (eapply lookup_lt_Some; eassumption).
  split; [lia|]. split; [now rewrite !length_insert|].
  split; [|split].
  - intros j Hj. rewrite !list_lookup_insert_ne by lia. reflexivity.
  - destruct (decide (length a = 2%nat)) as [E|E].
    + rewrite E in *. simpl in *.
      rewrite list_lookup_insert_eq by (rewrite length_insert; lia).
      rewrite list_lookup_insert_ne by lia.
      rewrite list_lookup_insert_eq by lia. rewrite <- H2.
      rewrite list_lookup_insert_eq by lia. reflexivity.
    + rewrite !(list_lookup_insert_ne _ (length a - 1)) by lia.
      rewrite list_lookup_insert_eq by lia.
      rewrite list_lookup_insert_ne by lia. now rewrite H1.
  - rewrite list_lookup_insert_eq by (rewrite length_insert; lia).
    destruct (decide (length a = 2%nat)) as [E|E].
    + rewrite E in *. simpl in *.
      rewrite list_lookup_insert_ne by lia. now rewrite H2.
    + rewrite list_lookup_insert_ne by lia. now rewrite H2.
Qed.

Lemma gamma_array_inv n dX u gamma :
  gamma_array n dX u = inr gamma ->
  length gamma = n /\ forall j, (j < n)%nat -> gamma !! j = Some (gamma_entry n dX u j).
Proof.
  unfold gamma_array. destruct (_ && _); [discriminate|]. intros [= <-].
  split; [now rewrite length_map, length_seq|].
  intros j Hj. rewrite list_lookup_fmap, lookup_seq_lt by exact Hj. reflexivity.
Qed.

(** C4 (as the code has it).  In a pass of the fixed-point loop, with
    [gamma] the second difference of the previous iterate [u], the
    volatility handed to the re-solve is, at every interior node, the ask
    where [-gamma * notional > 0], the bid where [-gamma * notional < 0]
    and the midpoint of the two where [-gamma * notional = 0]; each edge
    node has the volatility of its neighbour. *)
Theorem optimizedVol_selection (n : nat) (dX bid ask notional : Q)
    (u gamma vols : list Q) :
  gamma_array n dX u = inr gamma ->
  optimizedVol bid ask notional gamma = inr vols ->
  length vols = n
  /\ (forall j, (1 <= j < n - 1)%nat ->
        exists g v,
          gamma !! j = Some g /\ vols !! j = Some v
          /\ g = ((1 + (1#2) * dX) * nth (j - 1) u 0 - 2 * nth j u 0
                  + (1 - (1#2) * dX) * nth (j + 1) u 0) / (dX * dX)
          /\ (0 < - g * notional -> v == ask)
          /\ (- g * notional < 0 -> v == bid)
          /\ (- g * notional == 0 -> v == (1#2) * (bid + ask)))
  /\ vols !! 0%nat = vols !! 1%nat
  /\ vols !! (n - 1)%nat = vols !! (n - 2)%nat.
Proof.
  intros Hg Hv.
  apply gamma_array_inv in Hg as [Hlen Hentry].
  unfold optimizedVol in Hv. apply copy_edges_inv in Hv.
  rewrite length_map, Hlen in Hv.
  destruct Hv as (Hn & Hlv & Hint & H0 & Hlast).
  split; [exact Hlv|]. split; [|split; assumption].
  intros j Hj.
  exists (gamma_entry n dX u j), (choose_vol bid ask notional (gamma_entry n dX u j)).
  split; [apply Hentry; lia|]. split.
  { rewrite (Hint j Hj), list_lookup_fmap, Hentry by lia. reflexivity. }
  split.
  { unfold gamma_entry.
    replace ((1 <=? j)%nat && (j <? n - 1)%nat) with true; [reflexivity|].
    symmetry. apply andb_true_iff. split.
    - apply Nat.leb_le. lia.
    - apply Nat.ltb_lt. lia. }
  apply choose_vol_cases.
Qed.

Lemma optimizedVol_selection_witness :
  exists gamma vols,
    gamma_array 4 1 [0; 1; 4; 9] = inr gamma
    /\ optimizedVol (1#10) (3#10) (- (1)) gamma = inr vols
    /\ length vols = 4%nat
    /\ vols !! 0%nat = vols !! 1%nat.
Proof.
  eexists. eexists.
  split; [reflexivity|]. split; [reflexivity|].
  pose proof (optimizedVol_selection 4 1 (1#10) (3#10) (- (1)) [0; 1; 4; 9]
                _ _ eq_refl eq_refl) as (Hlen & _ & Hedge & _).
  split; [exact Hlen | exact Hedge].
Defined.

(** The claim asks for the ask wherever [-gamma * notional >= 0].  On a
    flat iterate the second difference is zero, and the code selects the
    midpoint there, not the ask. *)
Lemma optimizedVol_zero_gamma_is_mid :
  exists gamma vols g v,
    gamma_array 3 1 [1; 1; 1] = inr gamma
    /\ optimizedVol (1#10) (3#10) 1 gamma = inr vols
    /\ gamma !! 1%nat = Some g /\ 0 <= - g * 1
    /\ vols !! 1%nat = Some v
    /\ v == 1#5 /\ ~ v == 3#10.
Proof.
  eexists. eexists. eexists. eexists.
  split; [reflexivity|]. split; [reflexivity|].
  split; [reflexivity|]. split; [vm_compute; discriminate|].
  split; [reflexivity|]. split; [reflexivity|].
  intros H. vm_compute in H. discriminate.
Qed.

(** ** solvePDE: the fast path and the notional check *)

Section SolvePDEFacts.

Variables np_log : Q -> Q.
Variable lin_norm : list Q -> Q.
Variable solve_banded : list Q -> list Q -> list Q -> list Q -> exn + list Q.
Variable CubicSpline : list Q -> list Q -> Q -> exn + Q.

Lemma fast_path_world self v w : snd (fast_path self v w) = w.
Proof.
  unfold fast_path. destruct (dT_nonneg self); [reflexivity|].
  unfold bind, lift, ret. now destruct (num_val v).
Qed.

(** On the fast path [solvePDE] is [float(self.payoff.getPayoff(spot))]. *)
Lemma solvePDE_fast_path self w :
  fst (fast_path self (spot (udl w)) w) = inr true ->
  solvePDE np_log lin_norm solve_banded CubicSpline self w = bind (getPayoff (payoff self) (OScalar (spot (udl w)))) py_float w.
Proof.
  intros Hfast. unfold solvePDE, getSpot. unfold bind at 1.
  pose proof (fast_path_world self (spot (udl w)) w) as Hw.
  unfold bind at 1.
  destruct (fast_path self (spot (udl w)) w) as [r w'].
  simpl in Hfast, Hw. subst. reflexivity.
Qed.

(** With a [numpy.float64] spot the fast path returns the payoff at the
    spot and touches nothing. *)
Lemma solvePDE_fast_path_numpy_spot self w s :
  spot (udl w) = VNp s ->
  fst (fast_path self (VNp s) w) = inr true ->
  solvePDE np_log lin_norm solve_banded CubicSpline self w = (inr (VFloat (payoff_body (payoff self) s)), w).
Proof.
  intros Hs Hfast. rewrite solvePDE_fast_path by now rewrite Hs.
  rewrite Hs. reflexivity.
Qed.

(** With a Python [float] spot the three payoffs that call [barrier] raise
    AttributeError on the fast path. *)
Lemma solvePDE_fast_path_float_spot self w s :
  spot (udl w) = VFloat s ->
  fst (fast_path self (VFloat s) w) = inr true ->
  calls_barrier (payoff self) = true ->
  solvePDE np_log lin_norm solve_banded CubicSpline self w = (inl AttributeError, w).
Proof.
  intros Hs Hfast Hb. rewrite solvePDE_fast_path by now rewrite Hs.
  rewrite Hs. unfold getPayoff, broadcast, bind. now rewrite Hb.
Qed.

(** What the fast path can raise has nothing to do with the notional. *)
Lemma fast_path_outcome_not_missing_notional (p : Payoff) (v : pyval) (w : world) :
  fst (bind (getPayoff p (OScalar v)) py_float w) <> inl missing_notional_error.
Proof.
  unfold getPayoff, broadcast, bind.
  destruct v; destruct (calls_barrier p); simpl; discriminate.
Qed.

(** C3 (as the code has it).  With a spot that is a number, a non-linear
    Underlying and a notional that is [None] or [0.0]: when the fast path
    is not taken (the time step is not [>= 0] and the spot lies strictly
    inside the barriers) [solvePDE] raises the missing-notional error and
    leaves the world as it was, no array created or written; on the fast
    path (the time step is [>= 0], or the spot is at or beyond a barrier)
    the notional is not looked at: the call is [float(getPayoff(spot))],
    and whatever that raises is not the missing-notional error. *)
Theorem missing_notional_raises (self : NonLinearPDESolver) (w : world) (s : Q) :
  num_val (spot (udl w)) = inr s ->
  is_non_linear (udl w) = Some true ->
  (getNotional (payoff self) = None
   \/ exists n, getNotional (payoff self) = Some n /\ n == 0) ->
  ((forall d, dT self = Some d -> d < 0) ->
   inside_barriers (payoff self) s = true ->
   solvePDE np_log lin_norm solve_banded CubicSpline self w
   = (inl missing_notional_error, w))
  /\ ((exists d, dT self = Some d /\ 0 <= d)
      \/ inside_barriers (payoff self) s = false ->
      solvePDE np_log lin_norm solve_banded CubicSpline self w
      = bind (getPayoff (payoff self) (OScalar (spot (udl w)))) py_float w
      /\ fst (solvePDE np_log lin_norm solve_banded CubicSpline self w)
         <> inl missing_notional_error).
Proof.
  intros Hs Hnl Hn.
  assert (notional_missing (getNotional (payoff self)) = true) as Hmiss.
  { destruct Hn as [-> | (n & -> & Hz)]; [reflexivity|].
    simpl. now apply Qeq_bool_iff. }
  split.
  - intros HdT Hin.
    assert (fast_path self (spot (udl w)) w = (inr false, w)) as Hfast.
    { unfold fast_path, dT_nonneg.
      destruct (dT self) as [d|] eqn:Ed.
      - destruct (Qle_bool 0 d) eqn:E.
        { apply Qle_bool_iff in E. specialize (HdT d eq_refl). lra. }
        unfold bind, lift, ret. rewrite Hs. unfold inside_barriers in Hin.
        now rewrite Hin.
      - unfold bind, lift, ret. rewrite Hs. unfold inside_barriers in Hin.
        now rewrite Hin. }
    unfold solvePDE, getSpot. unfold bind at 1. unfold bind at 1.
    rewrite Hfast. unfold bind, isNonLinear. rewrite Hnl, Hmiss. reflexivity.
  - intros Hfp.
    assert (fst (fast_path self (spot (udl w)) w) = inr true) as Hfast.
    { unfold fast_path, dT_nonneg. destruct Hfp as [(d & -> & Hd)|Hout].
      - apply Qle_bool_iff in Hd. now rewrite Hd.
      - destruct (match dT self with Some d => Qle_bool 0 d | None => false end);
          [reflexivity|].
        unfold bind, lift, ret. rewrite Hs. unfold inside_barriers in Hout.
        now rewrite Hout. }
    rewrite (solvePDE_fast_path self w Hfast).
    split; [reflexivity|apply fast_path_outcome_not_missing_notional].
Qed.

End SolvePDEFacts.

Lemma missing_notional_raises_witness :
  (exists self w,
     with_solver (put_3900 (Some 0)) (non_linear_at (VNp 4000)) 3 5 ret = (inr self, w)
     /\ solvePDE_q self w = (inl missing_notional_error, w))
  /\ (exists self w,
        with_solver (put_3900 None) (non_linear_at (VNp 3800)) 3 5 ret = (inr self, w)
        /\ fst (solvePDE_q self w) <> inl missing_notional_error).
Proof.
  split.
  - let r := eval vm_compute in
               (with_solver (put_3900 (Some 0)) (non_linear_at (VNp 4000)) 3 5 ret) in
    match r with
    | (inr ?self, ?w) =>
        exists self, w; split; [vm_compute; reflexivity|];
        apply (missing_notional_raises log_approx norm_approx tridiagonal_solve
                 interpolate self w 4000 eq_refl eq_refl);
        [right; exists 0; split; reflexivity
        |intros d [= <-]; vm_compute; reflexivity
        |vm_compute; reflexivity]
    end.
  - let r := eval vm_compute in
               (with_solver (put_3900 None) (non_linear_at (VNp 3800)) 3 5 ret) in
    match r with
    | (inr ?self, ?w) =>
        exists self, w; split; [vm_compute; reflexivity|];
        apply (missing_notional_raises log_approx norm_approx tridiagonal_solve
                 interpolate self w 3800 eq_refl eq_refl);
        [left; reflexivity|right; vm_compute; reflexivity]
    end.
Defined.

(** The error is not raised regardless of the spot: below the barrier the
    fast path returns the rebate although the Underlying is non-linear and
    the notional is absent. *)
Lemma missing_notional_not_raised_on_fast_path :
  is_non_linear (non_linear_at (VNp 3800)) = Some true
  /\ getNotional (put_3900 None) = None
  /\ fst (with_solver (put_3900 None) (non_linear_at (VNp 3800)) 3 5 solvePDE_q)
     = inr (VFloat 0).
Proof. repeat apply conj; vm_compute; reflexivity. Qed.

(** C2.  The spot 3800 is below the barrier 3900 of the down-and-out put,
    so [solvePDE] takes the fast path, where the payoff at the spot is the
    rebate 0; with the spot held as a Python [float] the call raises
    AttributeError instead of returning it. *)
Theorem fast_path_python_float_spot_raises :
  fst (with_solver (put_3900 None) (linear_at (VFloat 3800)) 3 5
         (fun self => fast_path self (VFloat 3800))) = inr true
  /\ payoff_body (put_3900 None) 3800 == 0
  /\ fst (with_solver (put_3900 None) (linear_at (VFloat 3800)) 3 5 solvePDE_q)
     = inl AttributeError.
Proof. repeat apply conj; vm_compute; reflexivity. Qed.




(** ** What a call leaves untouched *)

Lemma stable_refl n w : stable n w w.
Proof. repeat split; auto. Qed.

Lemma stable_trans n w1 w2 w3 : stable n w1 w2 -> stable n w2 w3 -> stable n w1 w3.
Proof.
  intros (Hu & Hl & Ha) (Hu' & Hl' & Ha'). repeat split.
  - congruence.
  - lia.
  - intros l Hlt. rewrite Ha', Ha by exact Hlt. reflexivity.
Qed.

Lemma frames_ret {A} n (a : A) (P : A -> Prop) : P a -> frames n (ret a) P.
Proof.
  intros HP w _. split; [apply stable_refl|]. simpl. now intros a' [= <-].
Qed.

Lemma frames_raise {A} n e (P : A -> Prop) : frames n (raise e) P.
Proof. intros w _. split; [apply stable_refl|]. simpl. discriminate. Qed.

Lemma frames_lift {A} n (r : exn + A) (P : A -> Prop) :
  (forall a, r = inr a -> P a) -> frames n (lift r) P.
Proof. intros HP w _. split; [apply stable_refl|]. simpl. exact HP. Qed.

Lemma frames_bind {A B} n (m : M A) (k : A -> M B) (P : A -> Prop) (R : B -> Prop) :
  frames n m P -> (forall a, P a -> frames n (k a) R) -> frames n (bind m k) R.
Proof.
  intros Hm Hk w Hn. destruct (Hm w Hn) as [Hst HP]. unfold bind.
  destruct (m w) as [[e|a] w1]; simpl in *.
  - split; [exact Hst|discriminate].
  - destruct Hst as (Hu & Hl & Ha).
    destruct (Hk a (HP a eq_refl) w1 ltac:(lia)) as [Hst' HR].
    split; [|exact HR].
    eapply stable_trans; [|exact Hst']. repeat split; assumption.
Qed.

Lemma frames_weaken {A} n (m : M A) (P R : A -> Prop) :
  frames n m P -> (forall a, P a -> R a) -> frames n m R.
Proof.
  intros Hm HPR w Hn. destruct (Hm w Hn) as [Hst HP]. split; auto.
Qed.

Lemma frames_read n l : frames n (read l) (fun _ => True).
Proof.
  intros w _. unfold read. destruct (arrays w !! l); simpl;
    (split; [apply stable_refl|auto]).
Qed.

Lemma frames_alloc n a : frames n (alloc a) (fresh n).
Proof.
  intros w Hn. unfold alloc, fresh. simpl. split.
  - repeat split; simpl.
    + rewrite length_app. lia.
    + intros l Hl. apply lookup_app_l. lia.
  - now intros l [= <-].
Qed.

Lemma frames_write n l a : fresh n l -> frames n (write l a) (fun _ => True).
Proof.
  intros Hl w Hn. unfold write. destruct (arrays w !! l); simpl.
  - split; [|auto]. repeat split; simpl.
    + rewrite length_insert. lia.
    + intros l' Hl'. apply list_lookup_insert_ne. unfold fresh in Hl. lia.
  - split; [apply stable_refl|auto].
Qed.

Lemma frames_getter {A} n (f : Underlying -> A) :
  frames n (fun w => (inr (f (udl w)), w)) (fun _ => True).
Proof. intros w _. split; [apply stable_refl|auto]. Qed.

Create HintDb frames.
#[local] Hint Resolve frames_ret frames_raise frames_read frames_alloc
  frames_write : frames.

Ltac frames_step :=
  lazymatch goal with
  | |- frames _ (bind (read _) _) _ =>
      eapply frames_bind; [apply frames_read|intros ? _]
  | |- frames _ (bind (alloc _) _) _ =>
      eapply frames_bind; [apply frames_alloc|intros ? ?]
  | |- frames _ (bind (lift _) _) _ =>
      eapply frames_bind; [apply frames_lift with (P := fun _ => True); auto|intros ? _]
  | |- frames _ (bind (write _ _) _) _ =>
      eapply frames_bind; [apply frames_write; assumption|intros ? _]
  | |- frames _ (ret _) _ => apply frames_ret
  | |- frames _ (raise _) _ => apply frames_raise
  | |- frames _ (lift _) _ => apply frames_lift
  | |- frames _ (read _) _ => eapply frames_weaken; [apply frames_read|auto]
  | |- frames _ (alloc _) _ => eapply frames_weaken; [apply frames_alloc|auto]
  | |- frames _ (write _ _) _ =>
      eapply frames_weaken; [apply frames_write; assumption|auto]
  | |- frames _ (if ?b then _ else _) _ => destruct b
  end.

Lemma frames_store_first n l v : fresh n l -> frames n (store_first l v) (fun _ => True).
Proof. intros Hl. unfold store_first. repeat frames_step; auto. Qed.

Lemma frames_store_last n l v : fresh n l -> frames n (store_last l v) (fun _ => True).
Proof. intros Hl. unfold store_last. repeat frames_step; auto. Qed.


Lemma frames_getPayoff n p S : frames n (getPayoff p S) (fresh_operand n).
Proof.
  unfold getPayoff, broadcast.
  destruct S as [[]|l]; repeat frames_step; simpl; auto.
Qed.

Lemma frames_getConstraint n p S t solution :
  fresh n solution -> frames n (getConstraint p S t solution) (fresh n).
Proof.
  intros Hs. destruct p; simpl.
  - repeat frames_step; auto.
  - frames_step. frames_step.
    eapply frames_bind with (P := fun _ => True).
    + frames_step; [now apply frames_store_last|now apply frames_ret].
    + intros _ _. now apply frames_ret.
  - frames_step. frames_step.
    eapply frames_bind with (P := fun _ => True).
    + frames_step; [now apply frames_store_first|now apply frames_ret].
    + intros _ _. now apply frames_ret.
  - frames_step. frames_step.
    eapply frames_bind with (P := fun _ => True).
    + frames_step; [now apply frames_store_first|now apply frames_ret].
    + intros _ _. frames_step. frames_step.
      eapply frames_bind with (P := fun _ => True).
      * frames_step; [now apply frames_store_last|now apply frames_ret].
      * intros _ _. now apply frames_ret.
Qed.

Lemma frames_getDirichletBoundaries n p args :
  frames n (getDirichletBoundaries p args) (fun _ => True).
Proof.
  unfold getDirichletBoundaries.
  destruct args as [|S' [|t [|]]]; try apply frames_raise.
  destruct p; try (now apply frames_ret).
  destruct S' as [[]|l]; repeat frames_step; auto.
Qed.

Section FixedPointFrames.

Variable lin_norm : list Q -> Q.
Variable nb_x_steps : nat.
Variable dX : option Q.
Variable nb_non_linear_tol : Q.
Variable solve : list Q -> loc -> M loc.
Variable n : nat.
Hypothesis frames_solve : forall vol solution, frames n (solve vol solution) (fresh n).

Lemma frames_next_vol vol0 vol1 notional prev :
  frames n (next_vol nb_x_steps dX vol0 vol1 notional prev) (fun _ => True).
Proof. unfold next_vol. repeat frames_step; auto. Qed.

Lemma frames_converged curr prev :
  frames n (converged lin_norm nb_x_steps nb_non_linear_tol curr prev) (fun _ => True).
Proof. unfold converged. repeat frames_step; auto. Qed.

Lemma frames_non_linear_loop vol0 vol1 notional solution fuel :
  forall nlIter prev curr,
    match curr with Some l => fresh n l | None => True end ->
    frames n (non_linear_loop lin_norm nb_x_steps dX nb_non_linear_tol solve
                vol0 vol1 notional solution fuel nlIter prev curr)
           (fun r => match fst r with Some l => fresh n l | None => True end).
Proof.
  induction fuel as [|fuel IH]; intros nlIter prev curr Hcurr; simpl.
  - now apply frames_ret.
  - eapply frames_bind; [apply frames_next_vol|intros optVol _].
    eapply frames_bind; [apply frames_solve|intros c Hc].
    eapply frames_bind; [apply frames_converged|intros stop _].
    destruct stop.
    + now apply frames_ret.
    + now apply IH.
Qed.

Lemma frames_non_linear_step nb_non_linear_iter vol notional solution :
  frames n (non_linear_step lin_norm nb_x_steps dX nb_non_linear_iter
              nb_non_linear_tol solve vol notional solution) (fresh n).
Proof.
  unfold non_linear_step. frames_step. frames_step.
  eapply frames_bind; [apply frames_solve|intros prev Hprev].
  eapply frames_bind; [apply frames_non_linear_loop; exact I|intros r Hr].
  destruct r as [[l|] k]; simpl in *; [apply frames_ret; exact Hr|apply frames_raise].
Qed.

End FixedPointFrames.

Section SolvePDEFrames.

Variables np_log : Q -> Q.
Variable lin_norm : list Q -> Q.
Variable solve_banded : list Q -> list Q -> list Q -> list Q -> exn + list Q.
Variable CubicSpline : list Q -> list Q -> Q -> exn + Q.
Variable self : NonLinearPDESolver.
Variable n : nat.

Lemma frames_solveOneStep i vol solution_before :
  frames n (solveOneStep solve_banded self i vol solution_before) (fresh n).
Proof.
  unfold solveOneStep.
  frames_step. frames_step. frames_step. frames_step.
  eapply frames_bind; [apply frames_getDirichletBoundaries|intros boundaries _].
  destruct (coefficients (dT self) (dX self)) as [[firstOrder secondOrder]|];
    [|apply frames_raise].
  repeat frames_step.
  now apply frames_getConstraint.
Qed.

Lemma frames_time_step notional i solution :
  frames n (time_step lin_norm solve_banded self notional i solution) (fresh n).
Proof.
  unfold time_step.
  eapply frames_bind; [apply (frames_getter n vol)|intros vol _].
  eapply frames_bind; [apply frames_getter with (f := fun u =>
      match is_non_linear u with Some b => b | None => false end)|intros nl _].
  destruct nl.
  - apply frames_non_linear_step. intros. apply frames_solveOneStep.
  - frames_step. apply frames_solveOneStep.
Qed.

Lemma frames_time_loop notional steps :
  forall solution, fresh n solution ->
    frames n (time_loop lin_norm solve_banded self notional steps solution) (fresh n).
Proof.
  induction steps as [|i steps IH]; intros solution Hs; simpl.
  - now apply frames_ret.
  - eapply frames_bind; [apply frames_time_step|exact IH].
Qed.

Lemma frames_fast_path v : frames n (fast_path self v) (fun _ => True).
Proof.
  unfold fast_path. destruct (dT_nonneg self); [now apply frames_ret|].
  frames_step. now apply frames_ret.
Qed.

Lemma frames_py_float o : frames n (py_float o) (fun _ => True).
Proof. destruct o as [[]|]; simpl; auto with frames. Qed.

Lemma frames_solvePDE :
  frames n (solvePDE np_log lin_norm solve_banded CubicSpline self) (fun _ => True).
Proof.
  unfold solvePDE.
  eapply frames_bind; [apply (frames_getter n spot)|intros spot _].
  eapply frames_bind; [apply frames_fast_path|intros fast _].
  destruct fast.
  - eapply frames_bind; [apply frames_getPayoff|intros premium _].
    apply frames_py_float.
  - eapply frames_bind; [apply frames_getter with (f := fun u =>
        match is_non_linear u with Some b => b | None => false end)|intros nl _].
    destruct (nl && _); [apply frames_raise|].
    eapply frames_bind; [apply frames_getPayoff|intros solution Hsol].
    eapply frames_bind with (P := fresh n).
    { destruct solution; simpl; [apply frames_raise|now apply frames_ret]. }
    intros sol Hfresh. frames_step. frames_step.
    eapply frames_bind; [now apply frames_getConstraint|intros sol' Hsol'].
    eapply frames_bind; [now apply frames_time_loop|intros sol'' Hsol''].
    repeat frames_step. auto.
Qed.

End SolvePDEFrames.

(** Every array that exists when [solvePDE] is called has the same
    contents when it returns or raises, and so has the Underlying. *)
Lemma solvePDE_stable np_log lin_norm solve_banded CubicSpline self w :
  stable (length (arrays w)) w
         (snd (solvePDE np_log lin_norm solve_banded CubicSpline self w)).
Proof. now apply frames_solvePDE. Qed.

Lemma solvePDE_udl np_log lin_norm solve_banded CubicSpline self w :
  udl (snd (solvePDE np_log lin_norm solve_banded CubicSpline self w)) = udl w.
Proof. apply solvePDE_stable. Qed.

(** ** Greeks: what happens to the Underlying *)


Lemma post_bind {A B} (m : M A) (k : A -> M B) u Phi Psi :
  post m u Phi -> (forall a u1, Phi a u1 -> post (k a) u1 Psi) ->
  post (bind m k) u Psi.
Proof.
  intros Hm Hk w b w' Hu Hrun.
  apply bind_inv in Hrun as [(e & _ & H)|(a & w1 & Hrun & Hrest)]; [discriminate|].
  eapply Hk; [eapply Hm; eassumption|reflexivity|exact Hrest].
Qed.

Lemma post_lift {A} (r : exn + A) u : post (lift r) u (fun a u1 => r = inr a /\ u1 = u).
Proof. intros w a w' Hu [= -> <-]. auto. Qed.

Lemma post_ret {A} (a : A) u : post (ret a) u (fun a' u1 => a' = a /\ u1 = u).
Proof. intros w a' w' Hu [= <- <-]. auto. Qed.

Lemma post_getter {A} (f : Underlying -> A) u :
  post (fun w => (inr (f (udl w)), w)) u (fun a u1 => a = f u /\ u1 = u).
Proof. intros w a w' Hu [= <- <-]. subst. auto. Qed.

Lemma post_setSpot v u : post (setSpot v) u (fun _ u1 => u1 = assign_spot v u).
Proof.
  intros w a w' Hu. unfold setSpot, bind, lift, modify_udl.
  destruct (validateSpot v); [discriminate|]. intros [= <-]. simpl. now subst.
Qed.

Lemma post_setVol v u :
  post (setVol v) u
       (fun _ u1 => u1 = assign_is_non_linear (Some (is_tuple v)) (assign_vol v u)).
Proof.
  intros w a w' Hu. unfold setVol, bind, lift, modify_udl.
  destruct (validateVol v); [discriminate|]. intros [= <-]. simpl. now subst.
Qed.

Lemma post_weaken {A} (m : M A) u (Phi Psi : A -> Underlying -> Prop) :
  post m u Phi -> (forall a u1, Phi a u1 -> Psi a u1) -> post m u Psi.
Proof. intros Hm H w a w' Hu Hrun. eapply H, Hm; eassumption. Qed.

Lemma mid_vol_tuple v m : mid_vol v = inr m -> is_tuple v = true.
Proof. destruct v; simpl; try discriminate. reflexivity. Qed.

Lemma py_sub_self p s : py_sub p p = inr s -> exists q, num_val s = inr q /\ q == 0.
Proof.
  destruct p; simpl; try discriminate; intros [= <-]; simpl; eexists;
    (split; [reflexivity|]).
  - rewrite Z.sub_diag. reflexivity.
  - ring.
  - ring.
Qed.

Lemma assign_spot_back v1 v2 u : assign_spot (spot u) (assign_spot v1 (assign_spot v2 u)) = u.
Proof. now destruct u. Qed.

Section GreeksFacts.

Variables np_log : Q -> Q.
Variable lin_norm : list Q -> Q.
Variable solve_banded : list Q -> list Q -> list Q -> list Q -> exn + list Q.
Variable CubicSpline : list Q -> list Q -> Q -> exn + Q.
Variable pde_solver : NonLinearPDESolver.

Lemma post_solvePDE u :
  post (solvePDE np_log lin_norm solve_banded CubicSpline pde_solver) u
       (fun _ u1 => u1 = u).
Proof.
  intros w a w' Hu Hrun.
  pose proof (solvePDE_udl np_log lin_norm solve_banded CubicSpline pde_solver w) as H.
  rewrite Hrun in H. simpl in H. congruence.
Qed.

(** The volatility block of [computeGreeks], entered with the premium
    already computed. *)
Lemma post_premium_linear (nl : bool) (premium : pyval) u :
  nl = match is_non_linear u with Some b => b | None => false end ->
  post (if nl then
          bind getVol (fun vol =>
          bind (lift (mid_vol vol)) (fun mid =>
          bind (setVol mid) (fun _ =>
          bind (solvePDE np_log lin_norm solve_banded CubicSpline pde_solver)
               (fun premium_linear =>
          bind (setVol vol) (fun _ => ret premium_linear)))))
        else ret premium) u
       (fun premium_linear u1 => u1 = u /\ (nl = false -> premium_linear = premium)).
Proof.
  intros Hnl. destruct nl.
  - eapply post_bind; [apply (post_getter vol)|intros vol' u1 [-> ->]].
    eapply post_bind; [apply post_lift|intros mid u1 [Hmid ->]].
    eapply post_bind; [apply post_setVol|intros _ u1 ->].
    eapply post_bind; [apply post_solvePDE|intros pl u1 ->].
    eapply post_bind; [apply post_setVol|intros _ u1 ->].
    eapply post_weaken; [apply post_ret|intros a u1 [-> ->]].
    split; [|discriminate].
    rewrite (mid_vol_tuple _ _ Hmid).
    destruct u as [s rs v rv [[]|]]; simpl in *; try discriminate. reflexivity.
  - eapply post_weaken; [apply post_ret|intros a u1 [-> ->]]. auto.
Qed.

(** When [computeGreeks] returns, the Underlying is in the state it was
    called in, and for a linear Underlying the surprime is zero. *)
Lemma post_computeGreeks bump_for_delta u :
  post (computeGreeks np_log lin_norm solve_banded CubicSpline pde_solver bump_for_delta) u
       (fun g u1 =>
          u1 = u
          /\ ((match is_non_linear u with Some b => b | None => false end) = false ->
              exists q, num_val (snd g) = inr q /\ q == 0)).
Proof.
  unfold computeGreeks.
  eapply post_bind; [apply (post_getter spot)|intros spot0 u1 [-> ->]].
  eapply post_bind; [apply post_lift|intros spot_bump u1 [_ ->]].
  eapply post_bind; [apply post_solvePDE|intros premium u1 ->].
  eapply post_bind; [apply post_lift|intros down u1 [_ ->]].
  eapply post_bind; [apply post_setSpot|intros _ u1 ->].
  eapply post_bind; [apply post_solvePDE|intros premium_minus u1 ->].
  eapply post_bind; [apply post_lift|intros up u1 [_ ->]].
  eapply post_bind; [apply post_setSpot|intros _ u1 ->].
  eapply post_bind; [apply post_solvePDE|intros premium_plus u1 ->].
  eapply post_bind; [apply post_setSpot|intros _ u1 ->].
  rewrite assign_spot_back.
  eapply post_bind; [apply (post_getter (fun u =>
      match is_non_linear u with Some b => b | None => false end))
    |intros nl u1 [Hnl ->]].
  eapply post_bind; [apply post_premium_linear with (premium := premium); exact Hnl
    |intros premium_linear u1 [-> Hlin]].
  do 10 (eapply post_bind; [apply post_lift|intros ? u1 [_ ->]]).
  eapply post_bind; [apply post_lift|intros surprime u1 [Hsur ->]].
  eapply post_weaken; [apply post_ret|intros g u1 [-> ->]].
  split; [reflexivity|]. simpl. intros Hflag.
  rewrite Hlin in Hsur by congruence.
  now apply py_sub_self in Hsur.
Qed.

(** C6.  With a linear Underlying ([isNonLinear()] false), the surprime
    that [computeGreeks] returns is zero, for every payoff. *)
Theorem linear_surprime_is_zero (bump_for_delta : Q) (w w' : world)
    (premium delta gamma surprime : pyval) :
  fst (isNonLinear w) = inr false ->
  computeGreeks np_log lin_norm solve_banded CubicSpline pde_solver bump_for_delta w
  = (inr (premium, delta, gamma, surprime), w') ->
  exists q, num_val surprime = inr q /\ q == 0.
Proof.
  intros Hlin Hrun.
  destruct (post_computeGreeks bump_for_delta (udl w) w _ w' eq_refl Hrun) as [_ H].
  apply H. unfold isNonLinear in Hlin. simpl in Hlin. congruence.
Qed.

(** On the exit that returns the four numbers, [computeGreeks] has put the
    Underlying back: spot, volatility and the non-linear flag are those of
    the call. *)
Lemma computeGreeks_restores_on_return bump_for_delta w w' g :
  computeGreeks np_log lin_norm solve_banded CubicSpline pde_solver bump_for_delta w
  = (inr g, w') ->
  udl w' = udl w.
Proof.
  intros Hrun.
  now destruct (post_computeGreeks bump_for_delta (udl w) w _ w' eq_refl Hrun).
Qed.

End GreeksFacts.

Lemma linear_surprime_is_zero_witness :
  exists self w w' premium delta gamma surprime,
    with_solver expired_call_100 (linear_at (VNp 110)) 3 5 ret = (inr self, w)
    /\ computeGreeks_q self (1#100) w = (inr (premium, delta, gamma, surprime), w')
    /\ exists q, num_val surprime = inr q /\ q == 0.
Proof.
  let r := eval vm_compute in
             (with_solver expired_call_100 (linear_at (VNp 110)) 3 5 ret) in
  match r with
  | (inr ?s, ?w) =>
      exists s, w; do 5 eexists;
      split; [vm_compute; reflexivity|];
      split; [vm_compute; reflexivity|];
      eapply (linear_surprime_is_zero log_approx norm_approx tridiagonal_solve
                interpolate s (1#100) w);
      vm_compute; reflexivity
  end.
Defined.

(** C7.  A spot of 3899 is below the barrier 3900; the first two solves
    take the fast path, the up-bump moves the spot to 3937.99, inside the
    barrier, where the solve raises (non-linear Underlying, no notional).
    The exception leaves [computeGreeks] with the bumped spot still in
    the Underlying. *)
Theorem computeGreeks_raise_leaves_bumped_spot :
  exists self w w',
    with_solver (put_3900 None) (non_linear_at (VNp 3899)) 3 5 ret = (inr self, w)
    /\ spot (udl w) = VNp 3899
    /\ computeGreeks_q self (1#100) w = (inl missing_notional_error, w')
    /\ exists q, spot (udl w') = VNp q /\ q == 393799 # 100.
Proof.
  do 3 eexists.
  split; [vm_compute; reflexivity|].
  split; [reflexivity|].
  split; [vm_compute; reflexivity|].
  eexists. split; [reflexivity|]. reflexivity.
Qed.

(** ** The meshes: alignment with the barriers, and what solvePDE leaves alone *)

Lemma linspace_ends (start stop : Q) (num : nat) :
  (2 <= num)%nat ->
  exists x step x0,
    linspace start stop num = (x, Some step)
    /\ length x = num
    /\ x !! 0%nat = Some x0 /\ x0 == start
    /\ last x = Some stop.
Proof.
  intros Hnum. destruct num as [|[|k]]; try lia.
  unfold linspace.
  eexists. eexists. eexists. split; [reflexivity|].
  split.
  { rewrite length_app, length_map, length_seq. simpl. lia. }
  split; [|split].
  - simpl. reflexivity.
  - simpl. ring.
  - apply last_snoc.
Qed.

Lemma store_first_run l v a w :
  arrays w !! l = Some a -> a <> [] ->
  store_first l v w = (inr tt, World (udl w) (<[l := <[0%nat := v]> a]> (arrays w))).
Proof.
  intros Hl Ha. unfold store_first, bind, read, lift, write. rewrite Hl.
  destruct a as [|a0 a]; [congruence|]. simpl. rewrite Hl. reflexivity.
Qed.

Lemma store_last_run l v a w :
  arrays w !! l = Some a -> a <> [] ->
  store_last l v w
  = (inr tt, World (udl w) (<[l := <[pred (length a) := v]> a]> (arrays w))).
Proof.
  intros Hl Ha. unfold store_last, bind, read, lift, write. rewrite Hl.
  destruct a as [|a0 a]; [congruence|]. simpl. rewrite Hl. reflexivity.
Qed.


Lemma snap_run {A} (down up : xfloat) (c1 c2 : Q -> bool) (l : loc) (r : A)
    (s0 : list Q) (w : world) :
  arrays w !! l = Some s0 -> (2 <= length s0)%nat ->
  exists s,
    bind (match down with
          | Fin d => if c1 d then store_first l d else ret tt
          | _ => ret tt
          end)
      (fun _ =>
         bind (match up with
               | Fin u => if c2 u then store_last l u else ret tt
               | _ => ret tt
               end)
           (fun _ => ret r)) w
    = (inr r, World (udl w) (<[l := s]> (arrays w)))
    /\ length s = length s0
    /\ (forall d, down = Fin d -> c1 d = true -> s !! 0%nat = Some d)
    /\ (forall u, up = Fin u -> c2 u = true -> last s = Some u).
Proof.
  intros Hl Hlen.
  assert (s0 <> []) as Hne by (intros ->; simpl in Hlen; lia).
  set (s1 := match down with
             | Fin d => if c1 d then <[0%nat := d]> s0 else s0
             | _ => s0
             end).
  set (s2 := match up with
             | Fin u => if c2 u then <[pred (length s1) := u]> s1 else s1
             | _ => s1
             end).
  assert (length s1 = length s0) as Hlen1.
  { unfold s1. destruct down as [|d|]; try reflexivity.
    destruct (c1 d); [apply length_insert|reflexivity]. }
  assert (length s2 = length s0) as Hlen2.
  { unfold s2. destruct up as [|u|]; try exact Hlen1.
    destruct (c2 u); [now rewrite length_insert|exact Hlen1]. }
  assert (s1 <> []) as Hne1 by (intros E; rewrite E in Hlen1; simpl in Hlen1; lia).
  exists s2.
  assert (exists w1, match down with
                     | Fin d => if c1 d then store_first l d else ret tt
                     | _ => ret tt
                     end w = (inr tt, w1)
                     /\ udl w1 = udl w /\ arrays w1 = <[l := s1]> (arrays w))
    as (w1 & Hrun1 & Hu1 & Ha1).
  { unfold s1. destruct down as [|d|];
      try (exists w; repeat split; now rewrite list_insert_id).
    destruct (c1 d).
    - eexists. split; [apply (store_first_run _ _ _ _ Hl Hne)|]. split; reflexivity.
    - exists w; repeat split; now rewrite list_insert_id. }
  assert (arrays w1 !! l = Some s1) as Hl1.
  { rewrite Ha1. apply list_lookup_insert_eq. eapply lookup_lt_Some; eassumption. }
  assert (exists w2, match up with
                     | Fin u => if c2 u then store_last l u else ret tt
                     | _ => ret tt
                     end w1 = (inr tt, w2)
                     /\ udl w2 = udl w /\ arrays w2 = <[l := s2]> (arrays w))
    as (w2 & Hrun2 & Hu2 & Ha2).
  { unfold s2. destruct up as [|u|];
      try (exists w1; repeat split; assumption).
    destruct (c2 u).
    - eexists. split; [apply (store_last_run _ _ _ _ Hl1 Hne1)|]. split; [exact Hu1|].
      simpl. rewrite Ha1. apply list_insert_insert_eq.
    - exists w1; repeat split; assumption. }
  split; [|split; [|split]].
  - rewrite (bind_ok _ _ _ _ _ Hrun1), (bind_ok _ _ _ _ _ Hrun2).
    unfold ret. destruct w2 as [u2 a2]. simpl in *. now subst.
  - exact Hlen2.
  - intros d -> Hc. unfold s2, s1. rewrite Hc.
    assert (<[0%nat := d]> s0 !! 0%nat = Some d) as H0
      by (apply list_lookup_insert_eq; lia).
    destruct up as [|u|]; try exact H0.
    destruct (c2 u); [|exact H0].
    rewrite list_lookup_insert_ne; [exact H0|].
    rewrite length_insert. lia.
  - intros u -> Hc. unfold s2. rewrite Hc.
    rewrite last_lookup, length_insert.
    apply list_lookup_insert_eq. lia.
Qed.

Section InitFacts.
Variables np_log np_exp np_sqrt : Q -> Q.

Lemma init_meshes (payoff : Payoff) (nb_t_steps nb_x_steps : nat)
    (nb_std_down nb_std_up : Q) (nb_non_linear_iter : nat) (nb_non_linear_tol : Q)
    (w : world) (rs rv : Q) :
  np_log_operand (reference_spot (udl w)) = inr rs ->
  num_val (reference_vol (udl w)) = inr rv ->
  (2 <= nb_x_steps)%nat ->
  let x_min0 := np_log rs + nb_std_down * rv * np_sqrt (getExpiry payoff) in
  let x_max0 := np_log rs + nb_std_up * rv * np_sqrt (getExpiry payoff) in
  exists self w' t x s,
    NonLinearPDESolver_init np_log np_exp np_sqrt payoff nb_t_steps nb_x_steps
      nb_std_down nb_std_up nb_non_linear_iter nb_non_linear_tol w = (inr self, w')
    /\ arrays w' !! t_mesh self = Some t
    /\ arrays w' !! x_mesh self = Some x
    /\ arrays w' !! s_mesh self = Some s
    /\ (forall d, fst (getContinousBarriers payoff) = Fin d ->
          x_min0 <= np_log d ->
          (exists x0, x !! 0%nat = Some x0 /\ x0 == np_log d) /\ s !! 0%nat = Some d)
    /\ (forall u, snd (getContinousBarriers payoff) = Fin u ->
          np_log u <= x_max0 ->
          last x = Some (np_log u) /\ last s = Some u).
Proof.
  intros Hrs Hrv Hnx x_min0 x_max0.
  unfold NonLinearPDESolver_init.
  destruct (linspace (getExpiry payoff) 0 nb_t_steps) as [t dT].
  destruct (getContinousBarriers payoff) as [down up].
  unfold bind at 1. unfold alloc at 1. cbn beta iota.
  unfold bind at 1. unfold getReferenceSpot at 1. cbn [udl arrays].
  unfold bind at 1. unfold lift at 1. rewrite Hrs.
  unfold bind at 1. unfold getReferenceVol at 1. cbn [udl arrays].
  unfold bind at 1. unfold lift at 1. rewrite Hrv.
  unfold bind at 1. unfold getReferenceSpot at 1. cbn [udl arrays].
  unfold bind at 1. unfold lift at 1. rewrite Hrs.
  unfold bind at 1. unfold getReferenceVol at 1. cbn [udl arrays].
  unfold bind at 1. unfold lift at 1. rewrite Hrv.
  fold x_min0 x_max0.
  set (x_min := clamp_down np_log down x_min0).
  set (x_max := clamp_up np_log up x_max0).
  destruct (linspace_ends x_min x_max nb_x_steps Hnx)
    as (x & step & x0 & Hlin & Hlenx & Hx0 & Hx0eq & Hxlast).
  rewrite Hlin.
  unfold bind at 1. unfold alloc at 1. cbn [udl arrays].
  unfold bind at 1. unfold alloc at 1. cbn [udl arrays].
  set (w2 := World (udl w) (((arrays w ++ [t]) ++ [x]) ++ [map np_exp x])).
  set (l := length ((arrays w ++ [t]) ++ [x])).
  assert (arrays w2 !! l = Some (map np_exp x)) as Hl.
  { unfold w2, l. cbn [arrays]. apply list_lookup_middle. reflexivity. }
  edestruct (snap_run down up
               (fun d => Qeq_bool (np_log d) x_min) (fun u => Qeq_bool (np_log u) x_max)
               l (mkSolver payoff (length (arrays w)) dT nb_t_steps
                           (length (arrays w ++ [t])) (Some step) nb_x_steps l
                           nb_non_linear_iter nb_non_linear_tol)
               (map np_exp x) w2 Hl)
    as (s & Hrun & Hlens & Hdown & Hup).
  { rewrite length_map. lia. }
  exists (mkSolver payoff (length (arrays w)) dT nb_t_steps
                   (length (arrays w ++ [t])) (Some step) nb_x_steps l
                   nb_non_linear_iter nb_non_linear_tol).
  eexists. exists t, x, s.
  split; [exact Hrun|]. cbn [t_mesh x_mesh s_mesh udl arrays].
  unfold w2. cbn [arrays].
  split.
  { rewrite list_lookup_insert_ne by (unfold l; rewrite !length_app; simpl; lia).
    rewrite <- !app_assoc. apply list_lookup_middle. reflexivity. }
  split.
  { rewrite list_lookup_insert_ne by (unfold l; rewrite !length_app; simpl; lia).
    rewrite lookup_app_l by (rewrite !length_app; simpl; lia).
    apply list_lookup_middle. reflexivity. }
  split.
  { apply list_lookup_insert_eq. unfold l. rewrite !length_app. simpl. lia. }
  split.
  - intros d Hd Hin. simpl in Hd. subst down.
    assert (x_min = np_log d) as Hxm.
    { unfold x_min, clamp_down. apply Qle_bool_iff in Hin. now rewrite Hin. }
    split.
    + exists x0. split; [exact Hx0|]. now rewrite Hx0eq, Hxm.
    + apply Hdown; [reflexivity|]. rewrite Hxm. apply Qeq_bool_iff. reflexivity.
  - intros u Hu Hin. simpl in Hu. subst up.
    assert (x_max = np_log u) as Hxm.
    { unfold x_max, clamp_up. apply Qle_bool_iff in Hin. now rewrite Hin. }
    split.
    + now rewrite Hxlast, Hxm.
    + apply Hup; [reflexivity|]. rewrite Hxm. apply Qeq_bool_iff. reflexivity.
Qed.

Lemma float_value_num (v : pyval) (q : Q) : float_value v q -> num_val v = inr q.
Proof. now intros [-> | ->]. Qed.

(** The constructor returns only with a reference spot that [np.log]
    accepts and a reference volatility that is a number. *)
Lemma init_returns_inv (payoff : Payoff) (nb_t_steps nb_x_steps : nat)
    (nb_std_down nb_std_up : Q) (nb_non_linear_iter : nat) (nb_non_linear_tol : Q)
    (w : world) self w' :
  NonLinearPDESolver_init np_log np_exp np_sqrt payoff nb_t_steps nb_x_steps
    nb_std_down nb_std_up nb_non_linear_iter nb_non_linear_tol w = (inr self, w') ->
  exists rs rv,
    np_log_operand (reference_spot (udl w)) = inr rs
    /\ num_val (reference_vol (udl w)) = inr rv.
Proof.
  unfold NonLinearPDESolver_init.
  destruct (linspace (getExpiry payoff) 0 nb_t_steps) as [t dT].
  destruct (getContinousBarriers payoff) as [down up].
  unfold bind at 1. unfold alloc at 1. cbn beta iota.
  unfold bind at 1. unfold getReferenceSpot at 1. cbn [udl arrays].
  unfold bind at 1. unfold lift at 1.
  destruct (np_log_operand (reference_spot (udl w))) as [e|rs]; [discriminate|].
  unfold bind at 1. unfold getReferenceVol at 1. cbn [udl arrays].
  unfold bind at 1. unfold lift at 1.
  destruct (num_val (reference_vol (udl w))) as [e|rv]; [discriminate|].
  intros _. eauto.
Qed.

(** C9 (as the code has it).  On a mesh of at least two spot nodes the
    constructor returns as soon as [np.log] accepts the reference spot and
    the reference volatility is a float; and whenever it returns: if the
    payoff has a finite continuous barrier whose logarithm lies in the
    initial log-spot range, the matching end of the x-mesh is that
    logarithm and the matching end of the spot mesh is the barrier itself;
    and a call of [solvePDE], in whatever later world, leaves the time, x
    and spot meshes with the contents they were built with. *)
Theorem meshes_snap_to_barriers_and_stay (payoff : Payoff)
    (nb_t_steps nb_x_steps : nat) (nb_std_down nb_std_up : Q)
    (nb_non_linear_iter : nat) (nb_non_linear_tol : Q) (w : world) :
  (2 <= nb_x_steps)%nat ->
  (forall rs rv,
      np_log_operand (reference_spot (udl w)) = inr rs ->
      float_value (reference_vol (udl w)) rv ->
      exists self w',
        NonLinearPDESolver_init np_log np_exp np_sqrt payoff nb_t_steps nb_x_steps
          nb_std_down nb_std_up nb_non_linear_iter nb_non_linear_tol w = (inr self, w'))
  /\ forall self w',
       NonLinearPDESolver_init np_log np_exp np_sqrt payoff nb_t_steps nb_x_steps
         nb_std_down nb_std_up nb_non_linear_iter nb_non_linear_tol w = (inr self, w') ->
       exists rs rv t x s,
         np_log_operand (reference_spot (udl w)) = inr rs
         /\ num_val (reference_vol (udl w)) = inr rv
         /\ arrays w' !! t_mesh self = Some t
         /\ arrays w' !! x_mesh self = Some x
         /\ arrays w' !! s_mesh self = Some s
         /\ (forall d, fst (getContinousBarriers payoff) = Fin d ->
               np_log rs + nb_std_down * rv * np_sqrt (getExpiry payoff) <= np_log d
               <= np_log rs + nb_std_up * rv * np_sqrt (getExpiry payoff) ->
               (exists x0, x !! 0%nat = Some x0 /\ x0 == np_log d)
               /\ s !! 0%nat = Some d)
         /\ (forall u, snd (getContinousBarriers payoff) = Fin u ->
               np_log rs + nb_std_down * rv * np_sqrt (getExpiry payoff) <= np_log u
               <= np_log rs + nb_std_up * rv * np_sqrt (getExpiry payoff) ->
               last x = Some (np_log u) /\ last s = Some u)
         /\ (forall lin_norm solve_banded CubicSpline w1,
               arrays w1 !! t_mesh self = Some t ->
               arrays w1 !! x_mesh self = Some x ->
               arrays w1 !! s_mesh self = Some s ->
               let w2 := snd (solvePDE np_log lin_norm solve_banded CubicSpline self w1) in
               arrays w2 !! t_mesh self = Some t
               /\ arrays w2 !! x_mesh self = Some x
               /\ arrays w2 !! s_mesh self = Some s).
Proof.
  intros Hnx. split.
  - intros rs rv Hrs Hrv. apply float_value_num in Hrv.
    destruct (init_meshes payoff nb_t_steps nb_x_steps nb_std_down nb_std_up
                nb_non_linear_iter nb_non_linear_tol w rs rv Hrs Hrv Hnx)
      as (self & w' & _ & _ & _ & Hrun & _).
    now exists self, w'.
  - intros self0 w0 Hrun0.
    destruct (init_returns_inv _ _ _ _ _ _ _ _ _ _ Hrun0) as (rs & rv & Hrs & Hrv).
    destruct (init_meshes payoff nb_t_steps nb_x_steps nb_std_down nb_std_up
                nb_non_linear_iter nb_non_linear_tol w rs rv Hrs Hrv Hnx)
      as (self & w' & t & x & s & Hrun & Ht & Hx & Hs & Hdown & Hup).
    rewrite Hrun0 in Hrun. injection Hrun as <- <-.
    exists rs, rv, t, x, s.
    repeat (split; [assumption|]).
    split; [|split].
    + intros d Hd [Hlo _]. now apply Hdown.
    + intros u Hu [_ Hhi]. now apply Hup.
    + intros lin_norm solve_banded CubicSpline w1 Ht1 Hx1 Hs1 w2.
      destruct (solvePDE_stable np_log lin_norm solve_banded CubicSpline self0 w1)
        as (_ & _ & Hsame).
      fold w2 in Hsame.
      rewrite !Hsame by (eapply lookup_lt_Some; eassumption).
      auto.
Qed.

End InitFacts.

Lemma meshes_snap_to_barriers_and_stay_witness :
  exists self w' x0 x s,
    init_q (no_touch_80_120 None) 3 5 (- (6)) 6 50 (1 # 100000000)
      (World (linear_at (VNp 100)) []) = (inr self, w')
    /\ arrays w' !! x_mesh self = Some x
    /\ arrays w' !! s_mesh self = Some s
    /\ x !! 0%nat = Some x0 /\ x0 == log_approx 80
    /\ last x = Some (log_approx 120)
    /\ s !! 0%nat = Some 80
    /\ last s = Some 120
    /\ arrays (snd (solvePDE_q self w')) !! s_mesh self = Some s.
Proof.
  destruct (meshes_snap_to_barriers_and_stay log_approx exp_approx sqrt_approx
              (no_touch_80_120 None) 3 5 (- (6)) 6 50 (1 # 100000000)
              (World (linear_at (VNp 100)) [])) as [Hreturns Hmeshes].
  { lia. }
  destruct (Hreturns 100 (1#5) eq_refl (or_introl eq_refl)) as (self & w' & Hrun).
  destruct (Hmeshes self w' Hrun)
    as (rs & rv & t & x & s & Hrs & Hrv & Ht & Hx & Hs & Hdown & Hup & Hstay).
  injection Hrs as <-. injection Hrv as <-.
  destruct (Hdown 80 eq_refl) as [(x0 & Hx0 & Hx0eq) Hs0].
  { split; vm_compute; discriminate. }
  destruct (Hup 120 eq_refl) as [Hxl Hsl].
  { split; vm_compute; discriminate. }
  exists self, w', x0, x, s.
  repeat (split; [assumption|]).
  apply (Hstay norm_approx tridiagonal_solve interpolate w' Ht Hx Hs).
Defined.

(** The claim does not hold on a mesh of one spot node.  The two barriers
    80 and 120 of the no-touch have their logarithms in the initial
    log-spot range; the single node of the x-mesh is [log 80], so the
    upper end of the x-mesh is not [log 120], and the single node of the
    spot mesh is overwritten twice and ends as 120, so the lower end of
    the spot mesh is not 80. *)
Lemma one_node_mesh_misses_a_barrier :
  let x_min0 := log_approx 100 + - (6) * (1#5) * sqrt_approx (1#12) in
  let x_max0 := log_approx 100 + 6 * (1#5) * sqrt_approx (1#12) in
  exists self w',
    init_q (no_touch_80_120 None) 3 1 (- (6)) 6 50 (1 # 100000000)
      (World (linear_at (VNp 100)) []) = (inr self, w')
    /\ getContinousBarriers (no_touch_80_120 None) = (Fin 80, Fin 120)
    /\ x_min0 <= log_approx 80 <= x_max0
    /\ x_min0 <= log_approx 120 <= x_max0
    /\ arrays w' !! x_mesh self = Some [log_approx 80]
    /\ ~ log_approx 80 == log_approx 120
    /\ arrays w' !! s_mesh self = Some [120]
    /\ ~ 120 == 80.
Proof.
  intros x_min0 x_max0.
  let r := eval vm_compute in
             (init_q (no_touch_80_120 None) 3 1 (- (6)) 6 50 (1 # 100000000)
                (World (linear_at (VNp 100)) [])) in
  match r with
  | (inr ?self, ?w') => exists self, w'
  end.
  split; [vm_compute; reflexivity|].
  split; [reflexivity|].
  split; [split; vm_compute; discriminate|].
  split; [split; vm_compute; discriminate|].
  split; [vm_compute; reflexivity|].
  split; [intros H; vm_compute in H; discriminate|].
  split; [vm_compute; reflexivity|].
  intros H; vm_compute in H; discriminate.
Qed.

(** ** The non-linear loop: iterations, stopping and result *)

Section FixedPointRun.

Variable lin_norm : list Q -> Q.
Variable nb_x_steps : nat.
Variable dX : option Q.
Variable nb_non_linear_iter : nat.
Variable nb_non_linear_tol : Q.
Variable solve : list Q -> loc -> M loc.
Variable notional : option Q.
Variable solution : loc.


Lemma converged_world curr prev w :
  snd (converged lin_norm nb_x_steps nb_non_linear_tol curr prev w) = w.
Proof.
  unfold converged, bind, read, ret.
  destruct (arrays w !! curr); [|reflexivity].
  destruct (arrays w !! prev); reflexivity.
Qed.

Lemma non_linear_loop_run vol0 vol1 fuel :
  forall nlIter prev curr0 w r k w',
    non_linear_loop lin_norm nb_x_steps dX nb_non_linear_tol solve
      vol0 vol1 notional solution fuel nlIter prev curr0 w = (inr (r, k), w') ->
    exists trace met,
      passes lin_norm nb_x_steps dX nb_non_linear_tol solve notional solution vol0 vol1 prev w trace met
      /\ (length trace <= fuel)%nat
      /\ (0 < fuel -> 1 <= length trace)%nat
      /\ k = (nlIter + length trace)%nat
      /\ match last trace with
         | Some (l, wl) => r = Some l /\ w' = wl
         | None => r = curr0 /\ w' = w
         end
      /\ ((length trace < fuel)%nat -> met = true).
Proof.
  induction fuel as [|fuel IH]; intros nlIter prev curr0 w r k w' Hrun.
  - simpl in Hrun. inversion Hrun; subst.
    exists [], true. simpl. repeat split; auto; lia.
  - simpl in Hrun.
    apply bind_inv in Hrun as [(e & _ & H)|(optVol & w0 & Hvol & Hrun)]; [discriminate|].
    apply bind_inv in Hrun as [(e & _ & H)|(curr & w1 & Hsolve & Hrun)]; [discriminate|].
    assert (pass nb_x_steps dX solve notional solution vol0 vol1 prev w = (inr curr, w1)) as Hpass
      by (unfold pass; now rewrite (bind_ok _ _ _ _ _ Hvol)).
    apply bind_inv in Hrun as [(e & _ & H)|(stop & w1' & Hconv & Hrun)]; [discriminate|].
    pose proof (converged_world curr prev w1) as Hw. rewrite Hconv in Hw.
    simpl in Hw. subst w1'.
    assert (within_tolerance lin_norm nb_x_steps nb_non_linear_tol curr prev w1 stop) as Htol
      by (unfold within_tolerance; now rewrite Hconv).
    destruct stop.
    + inversion Hrun; subst.
      exists [(curr, w')], true. simpl. repeat split; auto; lia.
    + apply IH in Hrun as (trace & met & Hpasses & Hlen & Hpos & Hk & Hlast & Hmet).
      destruct trace as [|[c2 w2] rest].
      * simpl in Hlast. destruct Hlast as [-> ->].
        exists [(curr, w1)], false. simpl in *. repeat split; auto; try lia.
      * exists ((curr, w1) :: (c2, w2) :: rest), met.
        split; [simpl; auto|]. split; [simpl in *; lia|].
        split; [simpl; lia|]. split; [simpl in *; lia|].
        split; [|intros Hlt; apply Hmet; simpl in *; lia].
        change (last ((curr, w1) :: (c2, w2) :: rest)) with (last ((c2, w2) :: rest)).
        destruct (last ((c2, w2) :: rest)) as [[l' wl]|] eqn:E; [exact Hlast|].
        apply last_None in E. discriminate.
Qed.


(** The loop on its own, run with a step solver that returns.  With an
    iteration cap of at least one, whenever the non-linear branch of a
    time step returns: it first solved once with the midpoint
    volatility; the loop then computed between one and
    [nb_non_linear_iter] iterates, each from the previous one; it went on
    after an iterate only when that iterate missed the tolerance, so it
    stopped at the first one within tolerance; if it stopped before the
    cap the last iterate is within tolerance; and in every case the value
    it returns is the last iterate computed. *)
Theorem non_linear_step_runs (vol : pyval) (w : world) (l : loc) (w' : world) :
  (1 <= nb_non_linear_iter)%nat ->
  non_linear_step lin_norm nb_x_steps dX nb_non_linear_iter nb_non_linear_tol solve
    vol notional solution w = (inr l, w') ->
  exists v0 v1 guess w0 trace met,
    vol_component vol 0 = inr v0
    /\ vol_component vol 1 = inr v1
    /\ solve (replicate nb_x_steps ((1#2) * (v0 + v1))) solution w = (inr guess, w0)
    /\ passes lin_norm nb_x_steps dX nb_non_linear_tol solve notional solution v0 v1 guess w0 trace met
    /\ (1 <= length trace <= nb_non_linear_iter)%nat
    /\ last trace = Some (l, w')
    /\ ((length trace < nb_non_linear_iter)%nat -> met = true).
Proof.
  intros Hcap Hrun. unfold non_linear_step in Hrun.
  apply bind_inv in Hrun as [(e & _ & H)|(v0 & w1 & Hv0 & Hrun)]; [discriminate|].
  apply bind_inv in Hrun as [(e & _ & H)|(v1 & w2 & Hv1 & Hrun)]; [discriminate|].
  apply bind_inv in Hrun as [(e & _ & H)|(guess & w0 & Hguess & Hrun)]; [discriminate|].
  apply bind_inv in Hrun as [(e & _ & H)|([r k] & w3 & Hloop & Hrun)]; [discriminate|].
  unfold lift in Hv0, Hv1. inversion Hv0; subst w1. inversion Hv1; subst w2.
  apply non_linear_loop_run in Hloop
    as (trace & met & Hpasses & Hlen & Hpos & Hk & Hlast & Hmet).
  exists v0, v1, guess, w0, trace, met.
  repeat (split; [assumption|]).
  split; [lia|]. split; [|exact Hmet].
  destruct (last trace) as [[l' wl]|] eqn:E.
  - destruct Hlast as [-> ->]. simpl in Hrun. now inversion Hrun.
  - destruct Hlast as [-> ->]. simpl in Hrun. discriminate.
Qed.

(** With a cap of zero the loop body never runs and the name
    [solution_curr_iter] is unbound when the step reads it. *)
Lemma non_linear_step_zero_cap (vol : pyval) (w : world) v0 v1 guess w0 :
  nb_non_linear_iter = 0%nat ->
  vol_component vol 0 = inr v0 ->
  vol_component vol 1 = inr v1 ->
  solve (replicate nb_x_steps ((1#2) * (v0 + v1))) solution w = (inr guess, w0) ->
  non_linear_step lin_norm nb_x_steps dX nb_non_linear_iter nb_non_linear_tol solve
    vol notional solution w = (inl UnboundLocalError, w0).
Proof.
  intros -> Hv0 Hv1 Hguess. unfold non_linear_step, bind, lift.
  rewrite Hv0, Hv1, Hguess. reflexivity.
Qed.

End FixedPointRun.

Lemma non_linear_step_runs_witness :
  exists l w' trace met,
    non_linear_step norm_approx 5 (Some (1#10)) 50 (1 # 100000000)
      (plain_implicit_step (- (1#100)) (1#10) 5)
      (VTuple [VFloat (3#20); VFloat (1#5)]) (Some (- (1))) 0%nat
      (World (non_linear_at (VNp 100)) [[0; 0; 1; 3; 6]]) = (inr l, w')
    /\ (1 <= length trace <= 50)%nat
    /\ last trace = (Some (l, w') : option (loc * world))
    /\ ((length trace < 50)%nat -> met = true).
Proof.
  let r := eval vm_compute in (sample_fixed_point 50) in
  match r with
  | (inr ?l, ?w') =>
      assert (non_linear_step norm_approx 5 (Some (1#10)) 50 (1 # 100000000)
                (plain_implicit_step (- (1#100)) (1#10) 5)
                (VTuple [VFloat (3#20); VFloat (1#5)]) (Some (- (1))) 0%nat
                (World (non_linear_at (VNp 100)) [[0; 0; 1; 3; 6]]) = (inr l, w'))
        as Hrun by (vm_compute; reflexivity);
      destruct (non_linear_step_runs norm_approx 5 (Some (1#10)) 50 (1 # 100000000)
                  (plain_implicit_step (- (1#100)) (1#10) 5) (Some (- (1))) 0%nat
                  (VTuple [VFloat (3#20); VFloat (1#5)])
                  (World (non_linear_at (VNp 100)) [[0; 0; 1; 3; 6]]) l w'
                  ltac:(lia) Hrun)
        as (v0 & v1 & guess & w0 & trace & met & _ & _ & _ & _ & Hlen & Hlast & Hmet);
      exists l, w', trace, met;
      exact (conj Hrun (conj Hlen (conj Hlast Hmet)))
  end.
Defined.

(** The same step with a cap of one: the single iterate misses the
    tolerance and is returned all the same; with a cap of zero the step
    raises UnboundLocalError. *)
Lemma sample_fixed_point_caps :
  fst (sample_fixed_point 50) = inr 3%nat
  /\ fst (sample_fixed_point 1) = inr 2%nat
  /\ fst (sample_fixed_point 0) = inl UnboundLocalError.
Proof. repeat apply conj; vm_compute; reflexivity. Qed.

(** ** solvePDE: the slow path *)

Lemma read_run l a w : arrays w !! l = Some a -> read l w = (inr a, w).
Proof. intros H. unfold read. now rewrite H. Qed.

Lemma getPayoff_array_run p l s w :
  arrays w !! l = Some s ->
  getPayoff p (OArray l) w
  = (inr (OArray (length (arrays w))),
     World (udl w) (arrays w ++ [map (payoff_body p) s])).
Proof.
  intros Hl. unfold getPayoff, broadcast.
  rewrite (bind_ok _ _ _ _ _ (read_run _ _ _ Hl)). reflexivity.
Qed.

Lemma first_elt_ok (a : list Q) : a <> [] -> exists x, first_elt a = inr x.
Proof. destruct a; [congruence|]. intros _. simpl. eauto. Qed.

Lemma last_elt_ok (a : list Q) : a <> [] -> exists x, last_elt a = inr x.
Proof.
  intros Ha. unfold last_elt. destruct (last a) eqn:E; [eauto|].
  apply last_None in E. congruence.
Qed.


(** A conditional store returns and keeps everything but its target. *)
Lemma kept_refl solution a w : arrays w !! solution = Some a -> kept solution a w w.
Proof. intros H. repeat split; eauto. Qed.

Lemma conditional_store_run (first : bool) (c : bool) solution v a w :
  arrays w !! solution = Some a -> a <> [] ->
  exists w', (if c then (if first then store_first else store_last) solution v
              else ret tt) w = (inr tt, w')
             /\ kept solution a w w'.
Proof.
  intros Hl Ha. destruct c.
  - destruct first.
    + eexists. split; [apply (store_first_run _ _ _ _ Hl Ha)|].
      repeat split; simpl.
      * apply length_insert.
      * intros l Hne. now apply list_lookup_insert_ne.
      * eexists. split; [apply list_lookup_insert_eq; eapply lookup_lt_Some; eauto|].
        apply length_insert.
    + eexists. split; [apply (store_last_run _ _ _ _ Hl Ha)|].
      repeat split; simpl.
      * apply length_insert.
      * intros l Hne. now apply list_lookup_insert_ne.
      * eexists. split; [apply list_lookup_insert_eq; eapply lookup_lt_Some; eauto|].
        apply length_insert.
  - exists w. split; [reflexivity|]. now apply kept_refl.
Qed.

Lemma getConstraint_returns p S t solution s a w :
  arrays w !! S = Some s -> s <> [] ->
  arrays w !! solution = Some a -> length a = length s ->
  S <> solution ->
  exists l w', getConstraint p S t solution w = (inr l, w')
               /\ is_Some (arrays w' !! l).
Proof.
  intros HS Hs Hsol Hlen Hne.
  assert (a <> []) as Ha by (intros ->; destruct s; simpl in *; congruence).
  destruct p as [b strike|b strike upper ko|b strike ko rebate|b kd ku]; simpl.
  - rewrite (bind_ok _ _ _ _ _ (read_run _ _ _ HS)).
    rewrite (bind_ok _ _ _ _ _ (read_run _ _ _ Hsol)).
    unfold np_maximum2. rewrite length_map, <- Hlen, Nat.eqb_refl.
    unfold bind, lift, alloc. eexists. eexists. split; [reflexivity|].
    simpl. rewrite list_lookup_middle by reflexivity. eauto.
  - rewrite (bind_ok _ _ _ _ _ (read_run _ _ _ HS)).
    destruct (last_elt_ok s Hs) as [top Htop]. unfold lift at 1.
    unfold bind at 1. rewrite Htop.
    destruct (conditional_store_run false (Qle_bool ko top) solution 0 a w Hsol Ha)
      as (w' & Hrun & _ & _ & _ & a' & Ha' & _).
    simpl in Hrun. rewrite (bind_ok _ _ _ _ _ Hrun).
    exists solution, w'. split; [reflexivity|]. eauto.
  - rewrite (bind_ok _ _ _ _ _ (read_run _ _ _ HS)).
    destruct (first_elt_ok s Hs) as [bottom Hbot]. unfold lift at 1.
    unfold bind at 1. rewrite Hbot.
    destruct (conditional_store_run true (Qle_bool bottom ko) solution rebate a w Hsol Ha)
      as (w' & Hrun & _ & _ & _ & a' & Ha' & _).
    simpl in Hrun. rewrite (bind_ok _ _ _ _ _ Hrun).
    exists solution, w'. split; [reflexivity|]. eauto.
  - rewrite (bind_ok _ _ _ _ _ (read_run _ _ _ HS)).
    destruct (first_elt_ok s Hs) as [bottom Hbot]. unfold lift at 1.
    unfold bind at 1. rewrite Hbot.
    destruct (conditional_store_run true (Qle_bool bottom kd) solution 0 a w Hsol Ha)
      as (w1 & Hrun1 & _ & _ & Hother & a1 & Ha1 & Hlen1).
    simpl in Hrun1. rewrite (bind_ok _ _ _ _ _ Hrun1).
    assert (arrays w1 !! S = Some s) as HS1 by (rewrite Hother; auto).
    rewrite (bind_ok _ _ _ _ _ (read_run _ _ _ HS1)).
    destruct (last_elt_ok s Hs) as [top Htop]. unfold lift at 1.
    unfold bind at 1. rewrite Htop.
    assert (a1 <> []) as Ha1ne
      by (intros ->; destruct a; simpl in *; congruence).
    destruct (conditional_store_run false (Qle_bool ku top) solution 0 a1 w1 Ha1 Ha1ne)
      as (w2 & Hrun2 & _ & _ & _ & a2 & Ha2 & _).
    simpl in Hrun2. rewrite (bind_ok _ _ _ _ _ Hrun2).
    exists solution, w2. split; [reflexivity|]. eauto.
Qed.


Section SlowPath.

Variables np_log : Q -> Q.
Variable lin_norm : list Q -> Q.
Variable solve_banded : list Q -> list Q -> list Q -> list Q -> exn + list Q.
Variable CubicSpline : list Q -> list Q -> Q -> exn + Q.
Variable self : NonLinearPDESolver.

Lemma solveOneStep_raises i vol solution a t w :
  arrays w !! solution = Some a ->
  arrays w !! t_mesh self = Some t ->
  is_Some (t !! (i + 1)%nat) ->
  fst (solveOneStep solve_banded self i vol solution w) = inl TypeError.
Proof.
  intros Hsol Ht [tn Htn]. unfold solveOneStep.
  rewrite (bind_ok _ _ _ _ _ (read_run _ _ _ Hsol)).
  unfold bind at 1. unfold alloc at 1.
  assert (arrays (World (udl w) (arrays w ++ [a])) !! t_mesh self = Some t) as Ht'.
  { simpl. rewrite lookup_app_l; [exact Ht|]. eapply lookup_lt_Some; eassumption. }
  rewrite (bind_ok _ _ _ _ _ (read_run _ _ _ Ht')).
  unfold bind at 1. unfold lift at 1. unfold index. rewrite Htn.
  reflexivity.
Qed.

Lemma time_step_raises notional i solution a t w :
  arrays w !! solution = Some a ->
  arrays w !! t_mesh self = Some t ->
  is_Some (t !! (i + 1)%nat) ->
  consistent (udl w) ->
  fst (time_step lin_norm solve_banded self notional i solution w) = inl TypeError.
Proof.
  intros Hsol Ht Htn Hc. unfold time_step, getVol, isNonLinear.
  unfold bind at 1. unfold bind at 1. unfold consistent in Hc.
  destruct (is_non_linear (udl w)) as [[|]|].
  - destruct Hc as (bid & ask & Hv). rewrite Hv.
    unfold non_linear_step. simpl vol_component. unfold lift.
    unfold bind at 1. unfold bind at 1. unfold bind at 1.
    pose proof (solveOneStep_raises i
                  (replicate (nb_x_steps self) ((1#2) * (bid + ask)))
                  solution a t w Hsol Ht Htn) as H.
    destruct (solveOneStep _ _ _ _ _ _) as [[e|l] w']; simpl in H; [|discriminate].
    now inversion H.
  - destruct Hc as (v & Hv). unfold bind at 1. unfold lift at 1. rewrite Hv.
    now apply (solveOneStep_raises i _ solution a t w).
  - destruct Hc as (v & Hv). unfold bind at 1. unfold lift at 1. rewrite Hv.
    now apply (solveOneStep_raises i _ solution a t w).
Qed.

(** C5.  In the non-linear case no time step reaches its fixed-point
    loop.  The step first solves once with the midpoint volatility, and
    that solve raises TypeError ([solveOneStep] calls
    [getDirichletBoundaries] with three arguments, each class declares it
    with two): the exception is the outcome of the whole step, whatever
    the iteration cap and the tolerance of the solver, so no iterate is
    computed, no difference of iterates is compared with the tolerance,
    and the step has no solution. *)
Theorem non_linear_step_raises_in_initial_guess (notional : option Q) (i : nat)
    (solution : loc) (a t : list Q) (w : world) (bid ask : Q) :
  arrays w !! solution = Some a ->
  arrays w !! t_mesh self = Some t ->
  is_Some (t !! (i + 1)%nat) ->
  is_non_linear (udl w) = Some true ->
  vol (udl w) = VTuple [VFloat bid; VFloat ask] ->
  exists w',
    solveOneStep solve_banded self i
      (replicate (nb_x_steps self) ((1#2) * (bid + ask))) solution w
    = (inl TypeError, w')
    /\ time_step lin_norm solve_banded self notional i solution w = (inl TypeError, w').
Proof.
  intros Hsol Ht Htn Hnl Hvol.
  pose proof (solveOneStep_raises i
                (replicate (nb_x_steps self) ((1#2) * (bid + ask)))
                solution a t w Hsol Ht Htn) as Hraise.
  destruct (solveOneStep solve_banded self i
              (replicate (nb_x_steps self) ((1#2) * (bid + ask))) solution w)
    as [[e|l] w'] eqn:Hstep; simpl in Hraise; [|discriminate].
  injection Hraise as ->.
  exists w'. split; [reflexivity|].
  unfold time_step, getVol, isNonLinear.
  unfold bind at 1. unfold bind at 1. rewrite Hnl, Hvol.
  unfold non_linear_step. simpl vol_component. unfold lift.
  unfold bind at 1. unfold bind at 1. unfold bind at 1.
  now rewrite Hstep.
Qed.

(** C1.  Away from the fast path and past the notional check, with a
    time mesh of at least two points, [solvePDE] raises TypeError for
    every payoff: the first implicit step calls [getDirichletBoundaries]
    with three arguments, and each class declares it with two. *)
Theorem solvePDE_slow_path_raises_TypeError (w : world) (t s : list Q) :
  arrays w !! t_mesh self = Some t -> (2 <= length t)%nat ->
  (2 <= nb_t_steps self)%nat ->
  arrays w !! s_mesh self = Some s -> s <> [] ->
  consistent (udl w) ->
  fst (fast_path self (spot (udl w)) w) = inr false ->
  (is_non_linear (udl w) = Some true ->
   notional_missing (getNotional (payoff self)) = false) ->
  fst (solvePDE np_log lin_norm solve_banded CubicSpline self w) = inl TypeError.
Proof.
  intros Ht Hlt Hnt Hs Hsne Hc Hfast Hnotional.
  unfold solvePDE, getSpot. unfold bind at 1.
  pose proof (fast_path_world self (spot (udl w)) w) as Hw.
  unfold bind at 1.
  destruct (fast_path self (spot (udl w)) w) as [r w0].
  simpl in Hfast, Hw. subst r w0.
  unfold bind at 1. unfold isNonLinear at 1.
  assert ((match is_non_linear (udl w) with Some b => b | None => false end
           && notional_missing (getNotional (payoff self))) = false) as Hguard.
  { destruct (is_non_linear (udl w)) as [[|]|]; simpl; auto. }
  rewrite Hguard.
  rewrite (bind_ok _ _ _ _ _ (getPayoff_array_run _ _ _ _ Hs)).
  unfold bind at 1. unfold as_array at 1. unfold ret at 1.
  set (n := length (arrays w)).
  set (w1 := World (udl w) (arrays w ++ [map (payoff_body (payoff self)) s])).
  assert (arrays w1 !! t_mesh self = Some t) as Ht1.
  { unfold w1. simpl. rewrite lookup_app_l; [exact Ht|]. eapply lookup_lt_Some; eassumption. }
  assert (arrays w1 !! s_mesh self = Some s) as Hs1.
  { unfold w1. simpl. rewrite lookup_app_l; [exact Hs|]. eapply lookup_lt_Some; eassumption. }
  assert (arrays w1 !! n = Some (map (payoff_body (payoff self)) s)) as Hn1.
  { unfold w1, n. simpl. apply list_lookup_middle. reflexivity. }
  rewrite (bind_ok _ _ _ _ _ (read_run _ _ _ Ht1)).
  unfold bind at 1. unfold lift at 1. unfold index at 1.
  destruct t as [|t0 [|t1 t']]; try (simpl in Hlt; lia).
  simpl lookup at 1. cbn iota.
  destruct (getConstraint_returns (payoff self) (s_mesh self) t0 n s _ w1 Hs1 Hsne Hn1)
    as (l & w2 & Hrun & a2 & Ha2).
  { apply length_map. }
  { apply lookup_lt_Some in Hs. unfold n. lia. }
  assert (stable n w1 w2) as Hst.
  { pose proof (frames_getConstraint n (payoff self) (s_mesh self) t0 n) as Hf.
    specialize (Hf ltac:(unfold fresh; lia) w1).
    rewrite Hrun in Hf. apply Hf. unfold w1. simpl. rewrite length_app. unfold n. lia. }
  rewrite (bind_ok _ _ _ _ _ Hrun).
  destruct (nb_t_steps self) as [|[|k]]; try lia.
  simpl seq. simpl time_loop.
  destruct Hst as (Hu & _ & Hsame).
  pose proof (time_step_raises (getNotional (payoff self)) 0 l a2 (t0 :: t1 :: t') w2 Ha2)
    as Hraise.
  rewrite Hsame in Hraise by (apply lookup_lt_Some in Ht; exact Ht).
  specialize (Hraise Ht1 ltac:(simpl; eauto)).
  rewrite Hu in Hraise. simpl udl in Hraise. specialize (Hraise Hc).
  unfold bind at 1. unfold bind at 1.
  destruct (time_step _ _ _ _ _ _ _) as [[e|x] w3]; simpl in Hraise; [|discriminate].
  now inversion Hraise.
Qed.

End SlowPath.

Lemma non_linear_step_raises_in_initial_guess_witness :
  exists self w w',
    with_solver (put_3900 (Some (- (1)))) (non_linear_at (VNp 4000)) 3 5 ret
    = (inr self, w)
    /\ time_step norm_approx tridiagonal_solve self (Some (- (1))) 0 (s_mesh self) w
       = (inl TypeError, w').
Proof.
  let r := eval vm_compute in
             (with_solver (put_3900 (Some (- (1)))) (non_linear_at (VNp 4000)) 3 5 ret) in
  match r with
  | (inr ?self, World ?u [?t; ?x; ?s]) =>
      exists self, (World u [t; x; s]);
      destruct (non_linear_step_raises_in_initial_guess norm_approx tridiagonal_solve
                  self (Some (- (1))) 0 2%nat s t (World u [t; x; s]) (3#20) (1#5)
                  eq_refl eq_refl ltac:(simpl; eauto) eq_refl eq_refl)
        as (w' & _ & Hrun);
      exists w'; split; [vm_compute; reflexivity|exact Hrun]
  end.
Defined.

Lemma solvePDE_slow_path_raises_TypeError_witness :
  exists self w,
    with_solver (call_100 None) (linear_at (VNp 100)) 3 5 ret = (inr self, w)
    /\ fst (solvePDE_q self w) = inl TypeError.
Proof.
  let r := eval vm_compute in
             (with_solver (call_100 None) (linear_at (VNp 100)) 3 5 ret) in
  match r with
  | (inr ?self, ?w) =>
      exists self, w; split; [vm_compute; reflexivity|];
      eapply (solvePDE_slow_path_raises_TypeError log_approx norm_approx
                tridiagonal_solve interpolate self w);
      [ reflexivity | simpl; lia | simpl; lia | reflexivity | discriminate
      | simpl; eexists; reflexivity | vm_compute; reflexivity
      | simpl; discriminate ]
  end.
Defined.

(** The four payoffs, each away from the fast path and with the notional
    in place: the first implicit step raises TypeError. *)
Lemma solvePDE_slow_path_four_payoffs :
  fst (with_solver (call_100 None) (linear_at (VNp 100)) 3 5 solvePDE_q)
  = inl TypeError
  /\ fst (with_solver (call_spread_120 (Some (- (1)))) (non_linear_at (VNp 100)) 3 5
            solvePDE_q) = inl TypeError
  /\ fst (with_solver (put_3900 (Some (- (1)))) (non_linear_at (VNp 4000)) 3 5
            solvePDE_q) = inl TypeError
  /\ fst (with_solver (no_touch_80_120 None) (linear_at (VFloat 100)) 3 5 solvePDE_q)
     = inl TypeError.
Proof. repeat apply conj; vm_compute; reflexivity. Qed.

(** * Further properties *)

(** ** Underlying: what validation accepts, and what the setters store *)

Lemma Qle_bool_false_lt (x y : Q) : Qle_bool x y = false -> y < x.
Proof. intros H. apply Qltb_lt. unfold Qltb. now rewrite H. Qed.

Lemma Qle_bool_lt_false (x y : Q) : y < x -> Qle_bool x y = false.
Proof.
  intros H. destruct (Qle_bool x y) eqn:E; [|reflexivity].
  apply Qle_bool_iff in E. lra.
Qed.

(** X1.  [validateSpot] returns exactly on the numbers that are strictly
    positive; on every other value it raises. *)
Theorem validateSpot_accepts_iff (v : pyval) :
  validateSpot v = inr tt <-> valid_spot v.
Proof.
  unfold validateSpot, valid_spot. split.
  - destruct (num_val v) as [e|q]; [discriminate|].
    destruct (Qle_bool q 0) eqn:E; [discriminate|]. intros _.
    exists q. split; [reflexivity|]. now apply Qle_bool_false_lt.
  - intros (q & -> & Hq). now rewrite Qle_bool_lt_false.
Qed.

(** X2.  [validateVol] returns exactly on a Python float that is strictly
    positive and on a tuple of exactly two Python floats with
    [0 < bid <= ask]; a [numpy.float64], an [int] or any other value is
    rejected whatever its sign. *)
Theorem validateVol_accepts_iff (v : pyval) :
  validateVol v = inr tt <-> valid_vol v.
Proof.
  unfold valid_vol. split.
  - destruct v as [| | q | | |l]; simpl; try discriminate.
    + destruct (Qle_bool q 0) eqn:E; [discriminate|]. intros _.
      left. exists q. split; [reflexivity|]. now apply Qle_bool_false_lt.
    + destruct l as [|[| |bid| | |] [|[| |ask| | |] [|]]]; try discriminate.
      destruct (Qltb 0 bid && Qle_bool bid ask) eqn:E; [|discriminate].
      intros _. apply andb_true_iff in E as [E1 E2].
      right. exists bid, ask. split; [reflexivity|].
      split; [now apply Qltb_lt|now apply Qle_bool_iff].
  - intros [(q & -> & Hq)|(bid & ask & -> & Hb & Hba)]; simpl.
    + now rewrite Qle_bool_lt_false.
    + apply Qltb_lt in Hb. apply Qle_bool_iff in Hba. now rewrite Hb, Hba.
Qed.

Lemma setSpot_run v w :
  valid_spot v -> setSpot v w = (inr tt, World (assign_spot v (udl w)) (arrays w)).
Proof.
  intros Hv. apply validateSpot_accepts_iff in Hv.
  unfold setSpot, bind, lift, modify_udl. now rewrite Hv.
Qed.

Lemma setReferenceSpot_run v w :
  valid_spot v ->
  setReferenceSpot v w = (inr tt, World (assign_reference_spot v (udl w)) (arrays w)).
Proof.
  intros Hv. apply validateSpot_accepts_iff in Hv.
  unfold setReferenceSpot, bind, lift, modify_udl. now rewrite Hv.
Qed.

Lemma setVol_run v w :
  valid_vol v ->
  setVol v w
  = (inr tt, World (assign_is_non_linear (Some (is_tuple v)) (assign_vol v (udl w)))
                   (arrays w)).
Proof.
  intros Hv. apply validateVol_accepts_iff in Hv.
  unfold setVol, bind, lift, modify_udl. now rewrite Hv.
Qed.

(** X3.  A spot that validation accepts is what [getSpot] returns after
    [setSpot], and what [getReferenceSpot] returns after
    [setReferenceSpot]; each of the two setters changes no other attribute
    and no array. *)
Theorem spot_setters_store (v : pyval) (w : world) :
  valid_spot v ->
  (exists w', setSpot v w = (inr tt, w')
              /\ fst (getSpot w') = inr v
              /\ same_but_spot (udl w) (udl w') /\ arrays w' = arrays w)
  /\ (exists w', setReferenceSpot v w = (inr tt, w')
                 /\ fst (getReferenceSpot w') = inr v
                 /\ same_but_reference_spot (udl w) (udl w') /\ arrays w' = arrays w).
Proof.
  intros Hv. split; eexists.
  - split; [now apply setSpot_run|]. repeat split.
  - split; [now apply setReferenceSpot_run|]. repeat split.
Qed.

Lemma spot_setters_store_witness :
  exists w', setSpot (VNp 3800) (World sample_underlying []) = (inr tt, w')
             /\ fst (getSpot w') = inr (VNp 3800)
             /\ same_but_spot sample_underlying (udl w')
             /\ arrays w' = [].
Proof.
  apply (spot_setters_store (VNp 3800) (World sample_underlying [])).
  exists 3800. split; [reflexivity|]. reflexivity.
Defined.

(** X4.  A volatility that validation accepts is what [getVol] returns
    after [setVol], and [isNonLinear()] then tells whether it is a pair;
    the spot, the reference spot, the reference volatility and the arrays
    are unchanged. *)
Theorem setVol_stores (v : pyval) (w : world) :
  valid_vol v ->
  exists w', setVol v w = (inr tt, w')
             /\ fst (getVol w') = inr v
             /\ fst (isNonLinear w') = inr (is_tuple v)
             /\ same_but_vol (udl w) (udl w') /\ arrays w' = arrays w.
Proof.
  intros Hv. eexists. split; [now apply setVol_run|]. repeat split.
Qed.

Lemma setVol_stores_witness :
  exists w', setVol (VFloat (1#5)) (World sample_underlying []) = (inr tt, w')
             /\ fst (getVol w') = inr (VFloat (1#5))
             /\ fst (isNonLinear w') = inr false
             /\ same_but_vol sample_underlying (udl w') /\ arrays w' = [].
Proof.
  apply (setVol_stores (VFloat (1#5)) (World sample_underlying [])).
  left. exists (1#5). split; reflexivity.
Defined.

Lemma setReferenceVol_run (v : pyval) (w : world) :
  valid_vol v ->
  exists m,
    setReferenceVol v w
    = (inr tt, World (assign_reference_vol (VFloat m) (udl w)) (arrays w))
    /\ 0 < m
    /\ (forall q, v = VFloat q -> m = q)
    /\ (forall bid ask, v = VTuple [VFloat bid; VFloat ask] ->
          m = (1#2) * (bid + ask) /\ bid <= m <= ask).
Proof.
  intros Hv. pose proof Hv as Hval. apply validateVol_accepts_iff in Hval.
  destruct Hv as [(q & -> & Hq)|(bid & ask & -> & Hb & Hba)].
  - exists q. split.
    { unfold setReferenceVol, bind, lift, modify_udl. rewrite Hval. reflexivity. }
    split; [exact Hq|]. split; [now intros q' [= ->]|discriminate].
  - exists ((1#2) * (bid + ask)). split.
    { unfold setReferenceVol, bind, lift, modify_udl. rewrite Hval. reflexivity. }
    split; [lra|]. split; [discriminate|].
    intros b' a' [= <- <-]; repeat split; lra.
Qed.

(** X5.  [setReferenceVol] stores an accepted scalar as it is and an
    accepted pair as its midpoint: the reference volatility is then a
    positive Python float that lies between the bid and the ask.  The
    volatility itself, the non-linear flag, the spots and the arrays are
    unchanged. *)
Theorem setReferenceVol_stores_scalar (v : pyval) (w : world) :
  valid_vol v ->
  exists w' m,
    setReferenceVol v w = (inr tt, w')
    /\ fst (getReferenceVol w') = inr (VFloat m)
    /\ 0 < m
    /\ (forall q, v = VFloat q -> m = q)
    /\ (forall bid ask, v = VTuple [VFloat bid; VFloat ask] ->
          m = (1#2) * (bid + ask) /\ bid <= m <= ask)
    /\ same_but_reference_vol (udl w) (udl w') /\ arrays w' = arrays w.
Proof.
  intros Hv. destruct (setReferenceVol_run v w Hv) as (m & Hrun & Hm & Hq & Hp).
  eexists. exists m. split; [exact Hrun|].
  split; [reflexivity|]. split; [exact Hm|]. split; [exact Hq|].
  split; [exact Hp|]. repeat split.
Qed.

Lemma setReferenceVol_stores_scalar_witness :
  exists w' m,
    setReferenceVol (VTuple [VFloat (3#20); VFloat (1#5)])
      (World sample_underlying []) = (inr tt, w')
    /\ fst (getReferenceVol w') = inr (VFloat m)
    /\ 0 < m.
Proof.
  destruct (setReferenceVol_stores_scalar (VTuple [VFloat (3#20); VFloat (1#5)])
              (World sample_underlying []))
    as (w' & m & Hrun & Hget & Hm & _).
  { right. exists (3#20), (1#5). split; [reflexivity|]. split; reflexivity || discriminate. }
  exists w', m. auto.
Defined.

(** X6.  [Underlying(spot, vol)] is built exactly when both arguments pass
    validation.  The object then has the spot as its reference spot too,
    the volatility as given, the flag telling whether the volatility is a
    pair, and a positive Python float as reference volatility; otherwise
    the constructor raises. *)
Theorem Underlying_init_iff (s v : pyval) :
  (valid_spot s /\ valid_vol v ->
   exists rv, Underlying_init s v
              = inr (mkUnderlying s s v (VFloat rv) (Some (is_tuple v)))
              /\ 0 < rv)
  /\ (~ (valid_spot s /\ valid_vol v) ->
      exists e, Underlying_init s v = inl e).
Proof.
  split.
  - intros [Hs Hv].
    destruct (setReferenceVol_run v
                (World (mkUnderlying s s v VNone (Some (is_tuple v))) []) Hv)
      as (m & Hrun & Hm & _).
    exists m. split; [|exact Hm].
    unfold Underlying_init.
    rewrite (bind_ok _ _ _ _ _ (setSpot_run s _ Hs)).
    rewrite (bind_ok _ _ _ _ _ (setReferenceSpot_run s _ Hs)).
    rewrite (bind_ok _ _ _ _ _ (setVol_run v _ Hv)).
    unfold assign_is_non_linear, assign_vol, assign_reference_spot, assign_spot,
      blank_Underlying.
    cbn [udl arrays spot reference_spot vol reference_vol is_non_linear].
    rewrite Hrun. reflexivity.
  - intros Hnot. unfold Underlying_init.
    destruct (validateSpot s) as [e|[]] eqn:Hs.
    { exists e. unfold setSpot, bind, lift. now rewrite Hs. }
    apply validateSpot_accepts_iff in Hs.
    rewrite (bind_ok _ _ _ _ _ (setSpot_run s _ Hs)).
    rewrite (bind_ok _ _ _ _ _ (setReferenceSpot_run s _ Hs)).
    destruct (validateVol v) as [e|[]] eqn:Hv.
    { exists e. unfold setVol, bind, lift. now rewrite Hv. }
    apply validateVol_accepts_iff in Hv. elim Hnot. auto.
Qed.

(** ** Payoff: barriers, terminal values, constraints and boundaries *)

Lemma Qltb_false_le (x y : Q) : Qltb x y = false -> y <= x.
Proof. unfold Qltb. rewrite negb_false_iff. apply Qle_bool_iff. Qed.

Lemma barrier_up_out (spot b : Q) :
  (spot < b -> barrier spot b false true == 1)
  /\ (b <= spot -> barrier spot b false true == 0).
Proof.
  unfold barrier. split; intros H.
  - rewrite Qle_bool_lt_false by lra. reflexivity.
  - assert (Qle_bool 0 ((spot - b) * 1) = true) as -> by (apply Qle_bool_iff; lra).
    reflexivity.
Qed.

Lemma barrier_down_out (spot b : Q) :
  (b < spot -> barrier spot b true true == 1)
  /\ (spot <= b -> barrier spot b true true == 0).
Proof.
  unfold barrier. split; intros H.
  - rewrite Qle_bool_lt_false by lra. reflexivity.
  - assert (Qle_bool 0 ((spot - b) * - (1)) = true) as -> by (apply Qle_bool_iff; lra).
    reflexivity.
Qed.

(** X7.  The helper [barrier] is inclusive at the barrier: the knock-out
    indicator of an up barrier is 1 strictly below it and 0 at or above it,
    that of a down barrier is 1 strictly above it and 0 at or below it; the
    knock-in indicator is the complement of the knock-out one. *)
Theorem barrier_is_inclusive (spot b : Q) (is_down : bool) :
  (spot < b -> barrier spot b false true == 1)
  /\ (b <= spot -> barrier spot b false true == 0)
  /\ (b < spot -> barrier spot b true true == 1)
  /\ (spot <= b -> barrier spot b true true == 0)
  /\ barrier spot b is_down false + barrier spot b is_down true == 1.
Proof.
  split; [apply barrier_up_out|]. split; [apply barrier_up_out|].
  split; [apply barrier_down_out|]. split; [apply barrier_down_out|].
  unfold barrier. destruct (Qle_bool 0 _); ring.
Qed.

Lemma payoff_body_cases (p : Payoff) (x : Q) :
  (inside_barriers p x = false -> payoff_body p x == knock_out_value p)
  /\ (inside_barriers p x = true -> payoff_body p x == alive_value p x).
Proof.
  unfold inside_barriers.
  destruct p as [b k|b k u ko|b k ko rebate|b kd ku]; simpl.
  - split; [discriminate|reflexivity].
  - split; intros H.
    + apply Qltb_false_le in H.
      destruct (barrier_up_out x ko) as [_ H0]. rewrite (H0 H). ring.
    + apply Qltb_lt in H.
      destruct (barrier_up_out x ko) as [H1 _]. rewrite (H1 H). ring.
  - rewrite andb_true_r. split; intros H.
    + apply Qltb_false_le in H.
      destruct (barrier_down_out x ko) as [_ H0]. rewrite (H0 H). ring.
    + apply Qltb_lt in H.
      destruct (barrier_down_out x ko) as [H1 _]. rewrite (H1 H). ring.
  - split; intros H.
    + apply andb_false_iff in H as [H|H]; apply Qltb_false_le in H.
      * destruct (barrier_down_out x kd) as [_ H0]. rewrite (H0 H). ring.
      * destruct (barrier_up_out x ku) as [_ H0]. rewrite (H0 H). ring.
    + apply andb_true_iff in H as [Hd Hu]. apply Qltb_lt in Hd, Hu.
      destruct (barrier_down_out x kd) as [H1 _].
      destruct (barrier_up_out x ku) as [H2 _].
      rewrite (H1 Hd), (H2 Hu). ring.
Qed.

(** X8.  On a mesh array [getPayoff] returns a new array of the same
    length and leaves the mesh as it is.  A node strictly inside the
    continuous barriers carries the payoff of the contract without barrier
    (call, call spread, put, or 1 for the no-touch); a node at or beyond a
    barrier carries the knock-out value (0, or the rebate of the put). *)
Theorem getPayoff_on_mesh (p : Payoff) (l : loc) (s : list Q) (w : world) :
  arrays w !! l = Some s ->
  exists r,
    getPayoff p (OArray l) w
    = (inr (OArray (length (arrays w))), World (udl w) (arrays w ++ [r]))
    /\ length r = length s
    /\ forall i x, s !! i = Some x ->
         exists y, r !! i = Some y
                   /\ (inside_barriers p x = true -> y == alive_value p x)
                   /\ (inside_barriers p x = false -> y == knock_out_value p).
Proof.
  intros Hl. exists (map (payoff_body p) s).
  split; [now apply getPayoff_array_run|]. split; [apply length_map|].
  intros i x Hx. exists (payoff_body p x).
  split; [rewrite list_lookup_fmap, Hx; reflexivity|].
  destruct (payoff_body_cases p x). auto.
Qed.

Lemma getPayoff_on_mesh_witness :
  exists r,
    getPayoff (put_3900 None) (OArray 0%nat) (World sample_underlying [[3800; 3900; 4000]])
    = (inr (OArray 1%nat), World sample_underlying ([[3800; 3900; 4000]] ++ [r]))
    /\ length r = 3%nat.
Proof.
  destruct (getPayoff_on_mesh (put_3900 None) 0%nat [3800; 3900; 4000]
              (World sample_underlying [[3800; 3900; 4000]]) eq_refl)
    as (r & Hrun & Hlen & _).
  exists r. split; [exact Hrun|exact Hlen].
Defined.

Lemma Qmax_idem_l (x y : Q) : Qmax x (Qmax x y) = Qmax x y.
Proof.
  unfold Qmax, GenericMinMax.gmax.
  destruct (x ?= y) eqn:E; try reflexivity; try now rewrite E.
  - assert ((x ?= x) = Eq) as -> by (apply Qeq_alt; reflexivity). reflexivity.
  - assert ((x ?= x) = Eq) as -> by (apply Qeq_alt; reflexivity). reflexivity.
Qed.

Lemma zip_with_Qmax_idem (e a : list Q) :
  zip_with Qmax e (zip_with Qmax e a) = zip_with Qmax e a.
Proof.
  revert a. induction e as [|x e IH]; intros [|y a]; simpl; try reflexivity.
  now rewrite Qmax_idem_l, IH.
Qed.

Lemma constrained_values_length p s a :
  length a = length s -> length (constrained_values p s a) = length a.
Proof.
  intros Hlen. destruct p; simpl.
  - rewrite length_zip_with, length_map. lia.
  - destruct (last s); [|reflexivity]. destruct (Qle_bool _ _); [apply length_insert|reflexivity].
  - destruct (s !! 0%nat); [|reflexivity].
    destruct (Qle_bool _ _); [apply length_insert|reflexivity].
  - set (a1 := match s !! 0%nat with Some _ => _ | None => _ end).
    assert (length a1 = length a) as H1.
    { unfold a1. destruct (s !! 0%nat); [|reflexivity].
      destruct (Qle_bool _ _); [apply length_insert|reflexivity]. }
    destruct (last s); [|exact H1].
    destruct (Qle_bool _ _); [now rewrite length_insert|exact H1].
Qed.

Lemma insert_pair_idem (l : list Q) (i j : nat) (x y : Q) :
  <[i:=x]> (<[j:=y]> (<[i:=x]> (<[j:=y]> l))) = <[i:=x]> (<[j:=y]> l).
Proof.
  destruct (decide (i = j)) as [->|E].
  - now rewrite !list_insert_insert_eq.
  - rewrite (list_insert_insert_ne (<[j:=y]> l) j i y x) by (intros H; now apply E).
    now rewrite !list_insert_insert_eq.
Qed.

Lemma constrained_values_idem p s a :
  constrained_values p s (constrained_values p s a) = constrained_values p s a.
Proof.
  destruct p; simpl.
  - apply zip_with_Qmax_idem.
  - destruct (last s); [|reflexivity]. destruct (Qle_bool _ _); [|reflexivity].
    rewrite length_insert. apply list_insert_insert_eq.
  - destruct (s !! 0%nat); [|reflexivity]. destruct (Qle_bool _ _); [|reflexivity].
    apply list_insert_insert_eq.
  - destruct (s !! 0%nat) as [bottom|]; destruct (last s) as [top|];
      repeat (destruct (Qle_bool _ _)); rewrite ?length_insert;
      try reflexivity; try apply list_insert_insert_eq.
    apply insert_pair_idem.
Qed.

Lemma cond_store_first_run (c : bool) solution v a w :
  arrays w !! solution = Some a -> a <> [] ->
  (if c then store_first solution v else ret tt) w
  = (inr tt, World (udl w) (<[solution := if c then <[0%nat := v]> a else a]> (arrays w))).
Proof.
  intros Hl Ha. destruct c; [now apply store_first_run|].
  rewrite list_insert_id by exact Hl. now destruct w.
Qed.

Lemma cond_store_last_run (c : bool) solution v a w :
  arrays w !! solution = Some a -> a <> [] ->
  (if c then store_last solution v else ret tt) w
  = (inr tt, World (udl w)
               (<[solution := if c then <[pred (length a) := v]> a else a]> (arrays w))).
Proof.
  intros Hl Ha. destruct c; [now apply store_last_run|].
  rewrite list_insert_id by exact Hl. now destruct w.
Qed.

(** What one call of [getConstraint] does, on a solution that is not the
    mesh itself. *)
Lemma getConstraint_run p S t solution s a w :
  arrays w !! S = Some s -> s <> [] ->
  arrays w !! solution = Some a -> length a = length s ->
  S <> solution ->
  getConstraint p S t solution w
  = (inr (if calls_barrier p then solution else length (arrays w)),
     World (udl w)
       (if calls_barrier p then <[solution := constrained_values p s a]> (arrays w)
        else arrays w ++ [constrained_values p s a])).
Proof.
  intros HS Hs Hsol Hlen Hne.
  assert (a <> []) as Ha by (intros ->; destruct s; simpl in *; congruence).
  pose proof (lookup_lt_Some _ _ _ Hsol) as Hsollt.
  destruct p as [b strike|b strike upper ko|b strike ko rebate|b kd ku]; simpl.
  - rewrite (bind_ok _ _ _ _ _ (read_run _ _ _ HS)).
    rewrite (bind_ok _ _ _ _ _ (read_run _ _ _ Hsol)).
    unfold np_maximum2. rewrite length_map, <- Hlen, Nat.eqb_refl. reflexivity.
  - rewrite (bind_ok _ _ _ _ _ (read_run _ _ _ HS)).
    destruct (last_elt_ok s Hs) as [top Htop]. unfold lift at 1.
    unfold bind at 1. rewrite Htop.
    unfold last_elt in Htop. destruct (last s) as [top'|]; [|discriminate].
    inversion Htop; subst top'.
    rewrite (bind_ok _ _ _ _ _ (cond_store_last_run _ _ _ _ _ Hsol Ha)).
    unfold ret. now destruct (Qle_bool ko top).
  - rewrite (bind_ok _ _ _ _ _ (read_run _ _ _ HS)).
    destruct (first_elt_ok s Hs) as [bottom Hbot]. unfold lift at 1.
    unfold bind at 1. rewrite Hbot.
    unfold first_elt in Hbot. destruct (s !! 0%nat) as [bottom'|]; [|discriminate].
    inversion Hbot; subst bottom'.
    rewrite (bind_ok _ _ _ _ _ (cond_store_first_run _ _ _ _ _ Hsol Ha)).
    unfold ret. now destruct (Qle_bool bottom ko).
  - rewrite (bind_ok _ _ _ _ _ (read_run _ _ _ HS)).
    destruct (first_elt_ok s Hs) as [bottom Hbot]. unfold lift at 1.
    unfold bind at 1. rewrite Hbot.
    unfold first_elt in Hbot. destruct (s !! 0%nat) as [bottom'|]; [|discriminate].
    inversion Hbot; subst bottom'.
    destruct (last_elt_ok s Hs) as [top Htop].
    pose proof Htop as Htop'.
    unfold last_elt in Htop'. destruct (last s) as [top'|]; [|discriminate].
    inversion Htop'; subst top'.
    rewrite (bind_ok _ _ _ _ _ (cond_store_first_run _ _ _ _ _ Hsol Ha)).
    set (a1 := if Qle_bool bottom kd then <[0%nat := 0]> a else a).
    set (w1 := World (udl w) (<[solution := a1]> (arrays w))).
    assert (arrays w1 !! S = Some s) as HS1
      by (unfold w1; simpl; rewrite list_lookup_insert_ne; auto).
    assert (arrays w1 !! solution = Some a1) as Hsol1
      by (unfold w1; simpl; now apply list_lookup_insert_eq).
    assert (a1 <> []) as Ha1ne.
    { unfold a1. destruct (Qle_bool bottom kd); [|exact Ha].
      destruct a; simpl; congruence. }
    rewrite (bind_ok _ _ _ _ _ (read_run _ _ _ HS1)).
    unfold lift at 1. unfold bind at 1. rewrite Htop.
    rewrite (bind_ok _ _ _ _ _ (cond_store_last_run _ _ _ _ _ Hsol1 Ha1ne)).
    unfold ret, w1. simpl. now rewrite list_insert_insert_eq.
Qed.

Lemma constrained_values_nodes p s a :
  calls_barrier p = true -> length a = length s -> (2 <= length s)%nat ->
  (forall i, (0 < i < pred (length a))%nat -> constrained_values p s a !! i = a !! i)
  /\ (forall x v, s !! 0%nat = Some x -> a !! 0%nat = Some v ->
        constrained_values p s a !! 0%nat
        = Some (if xltb_l (fst (getContinousBarriers p)) x then v
                else knock_out_value p))
  /\ (forall x v, last s = Some x -> last a = Some v ->
        last (constrained_values p s a)
        = Some (if xltb_r x (snd (getContinousBarriers p)) then v
                else knock_out_value p)).
Proof.
  intros Hp Hlen H2.
  assert (forall (l : list Q) i v, (i < length l)%nat -> <[i := v]> l !! i = Some v) as Hset
    by (intros; now apply list_lookup_insert_eq).
  assert (forall (l : list Q) v, l <> [] -> last (<[pred (length l) := v]> l) = Some v) as Hlast.
  { intros l v Hl. rewrite last_lookup, length_insert. apply list_lookup_insert_eq.
    destruct l; [congruence|simpl; lia]. }
  assert (a <> []) as Ha by (intros ->; simpl in *; lia).
  assert (forall v, <[0%nat := v]> a <> []) as Ha0 by (intros v; destruct a; simpl; congruence).
  assert (forall v, last (<[0%nat := v]> a) = last a) as Hl0.
  { intros v. rewrite !last_lookup, length_insert.
    apply list_lookup_insert_ne. lia. }
  destruct p as [b strike|b strike upper ko|b strike ko rebate|b kd ku];
    simpl in Hp; try discriminate; simpl; unfold Qltb.
  - split; [|split].
    + intros i Hi. destruct (last s); [|reflexivity].
      destruct (Qle_bool ko q); [|reflexivity]. apply list_lookup_insert_ne. lia.
    + intros x v Hx Hv. destruct (last s); [|exact Hv].
      destruct (Qle_bool ko q); [|exact Hv]. rewrite list_lookup_insert_ne by lia. exact Hv.
    + intros x v Hx Hv. rewrite Hx. destruct (Qle_bool ko x); simpl; [|exact Hv].
      now apply Hlast.
  - split; [|split].
    + intros i Hi. destruct (s !! 0%nat); [|reflexivity].
      destruct (Qle_bool q ko); [|reflexivity]. apply list_lookup_insert_ne. lia.
    + intros x v Hx Hv. rewrite Hx. destruct (Qle_bool x ko); simpl; [|exact Hv].
      apply Hset. lia.
    + intros x v Hx Hv. destruct (s !! 0%nat); [|exact Hv].
      destruct (Qle_bool q ko); [|exact Hv]. now rewrite Hl0.
  - split; [|split].
    + intros i Hi. destruct (s !! 0%nat) as [bottom|]; destruct (last s) as [top|];
        repeat (destruct (Qle_bool _ _)); rewrite ?length_insert;
        rewrite ?list_lookup_insert_ne by lia; reflexivity.
    + intros x v Hx Hv. rewrite Hx.
      destruct (last s) as [top|]; destruct (Qle_bool x kd); simpl;
        try (destruct (Qle_bool ku top)); rewrite ?length_insert;
        rewrite ?(list_lookup_insert_ne _ (pred (length a)) 0) by lia;
        try exact Hv; apply Hset; lia.
    + intros x v Hx Hv. rewrite Hx.
      destruct (s !! 0%nat) as [bottom|]; try (destruct (Qle_bool bottom kd));
        destruct (Qle_bool ku x); simpl; rewrite ?Hl0; try exact Hv;
        try (now apply Hlast).
Qed.

(** X9.  The constraint of the American call is the early-exercise floor:
    [getConstraint] returns a new array in which every node carries the
    largest of the incoming solution, the exercise value [S - strike] and
    zero; the mesh, the incoming solution and the Underlying stay as they
    were. *)
Theorem american_constraint_is_exercise_floor
    (b : PayoffBase) (strike t : Q) (S solution : loc) (s a : list Q) (w : world) :
  arrays w !! S = Some s -> arrays w !! solution = Some a -> length a = length s ->
  exists r,
    getConstraint (AmericanCall b strike) S t solution w
    = (inr (length (arrays w)), World (udl w) (arrays w ++ [r]))
    /\ length r = length a
    /\ forall i x v, s !! i = Some x -> a !! i = Some v ->
         exists y, r !! i = Some y
                   /\ v <= y /\ x - strike <= y /\ 0 <= y
                   /\ (y == v \/ y == x - strike \/ y == 0).
Proof.
  intros HS Hsol Hlen.
  exists (zip_with Qmax (map (fun x => Qmax (x - strike) 0) s) a).
  split; [|split].
  - simpl. rewrite (bind_ok _ _ _ _ _ (read_run _ _ _ HS)).
    rewrite (bind_ok _ _ _ _ _ (read_run _ _ _ Hsol)).
    unfold np_maximum2. rewrite length_map, <- Hlen, Nat.eqb_refl. reflexivity.
  - rewrite length_zip_with, length_map. lia.
  - intros i x v Hx Hv. exists (Qmax (Qmax (x - strike) 0) v).
    split.
    { rewrite lookup_zip_with, list_lookup_fmap, Hx, Hv. reflexivity. }
    pose proof (Q.le_max_l (Qmax (x - strike) 0) v).
    pose proof (Q.le_max_r (Qmax (x - strike) 0) v).
    pose proof (Q.le_max_l (x - strike) 0).
    pose proof (Q.le_max_r (x - strike) 0).
    split; [assumption|]. split; [eapply Qle_trans; eassumption|].
    split; [eapply Qle_trans; eassumption|].
    destruct (Q.max_spec (Qmax (x - strike) 0) v) as [[_ E]|[_ E]];
      [left; exact E|].
    destruct (Q.max_spec (x - strike) 0) as [[_ E']|[_ E']];
      right; [right|left]; rewrite E; exact E'.
Qed.

Lemma american_constraint_is_exercise_floor_witness :
  exists r,
    getConstraint (call_100 None) 0%nat 0 1%nat
      (World sample_underlying [[90; 100; 110]; [3; 7; 9]])
    = (inr 2%nat, World sample_underlying ([[90; 100; 110]; [3; 7; 9]] ++ [r]))
    /\ length r = 3%nat.
Proof.
  destruct (american_constraint_is_exercise_floor (mkBase 1 None) 100 0 0%nat 1%nat
              [90; 100; 110] [3; 7; 9]
              (World sample_underlying [[90; 100; 110]; [3; 7; 9]])
              eq_refl eq_refl eq_refl) as (r & Hrun & Hlen & _).
  exists r. split; [exact Hrun|exact Hlen].
Defined.

(** X10.  The constraint of a barrier contract works in place on the
    solution it is given and only ever rewrites its two end nodes: an end
    node whose spot is at or beyond the continuous barrier of that side
    receives the knock-out value of [getPayoff], every other node, the
    mesh, the Underlying and every other array stay as they were. *)
Theorem barrier_constraint_knocks_out_ends
    (p : Payoff) (S solution : loc) (t : Q) (s a : list Q) (w : world) :
  calls_barrier p = true ->
  arrays w !! S = Some s -> arrays w !! solution = Some a ->
  length a = length s -> (2 <= length s)%nat -> S <> solution ->
  exists a',
    getConstraint p S t solution w
    = (inr solution, World (udl w) (<[solution := a']> (arrays w)))
    /\ length a' = length a
    /\ (forall i, (0 < i < pred (length a))%nat -> a' !! i = a !! i)
    /\ (forall x v, s !! 0%nat = Some x -> a !! 0%nat = Some v ->
          a' !! 0%nat = Some (if xltb_l (fst (getContinousBarriers p)) x then v
                               else knock_out_value p))
    /\ (forall x v, last s = Some x -> last a = Some v ->
          last a' = Some (if xltb_r x (snd (getContinousBarriers p)) then v
                          else knock_out_value p)).
Proof.
  intros Hp HS Hsol Hlen H2 Hne.
  assert (s <> []) as Hs by (intros ->; simpl in *; lia).
  rewrite (getConstraint_run p S t solution s a w HS Hs Hsol Hlen Hne), Hp.
  exists (constrained_values p s a).
  destruct (constrained_values_nodes p s a Hp Hlen H2) as (Hi & Hf & Hla).
  split; [reflexivity|].
  split; [now apply constrained_values_length|repeat split; assumption].
Qed.

Lemma barrier_constraint_knocks_out_ends_witness :
  exists a',
    getConstraint (no_touch_80_120 None) 0%nat 0 1%nat
      (World sample_underlying [[80; 100; 120]; [5; 6; 7]])
    = (inr 1%nat, World sample_underlying (<[1%nat := a']> [[80; 100; 120]; [5; 6; 7]]))
    /\ a' !! 1%nat = Some 6.
Proof.
  destruct (barrier_constraint_knocks_out_ends (no_touch_80_120 None) 0%nat 1%nat 0
              [80; 100; 120] [5; 6; 7]
              (World sample_underlying [[80; 100; 120]; [5; 6; 7]])
              eq_refl eq_refl eq_refl eq_refl ltac:(simpl; lia) ltac:(discriminate))
    as (a' & Hrun & _ & Hmid & _).
  exists a'. split; [exact Hrun|]. apply (Hmid 1%nat). simpl. lia.
Defined.

(** X11.  A constraint is idempotent: applied to its own result, at the
    same or another time, it returns an array with the same contents. *)
Theorem getConstraint_idempotent
    (p : Payoff) (S solution : loc) (t t' : Q) (s a : list Q) (w : world) :
  arrays w !! S = Some s -> s <> [] ->
  arrays w !! solution = Some a -> length a = length s -> S <> solution ->
  exists l w' l' w'' c,
    getConstraint p S t solution w = (inr l, w')
    /\ getConstraint p S t' l w' = (inr l', w'')
    /\ arrays w' !! l = Some c
    /\ arrays w'' !! l' = Some c
    /\ arrays w'' !! l = Some c.
Proof.
  intros HS Hs Hsol Hlen Hne.
  pose proof (lookup_lt_Some _ _ _ Hsol) as Hsollt.
  pose proof (lookup_lt_Some _ _ _ HS) as HSlt.
  pose proof (getConstraint_run p S t solution s a w HS Hs Hsol Hlen Hne) as Hrun.
  set (c := constrained_values p s a) in *.
  assert (length c = length s) as Hlenc
    by (unfold c; rewrite constrained_values_length; auto).
  assert (constrained_values p s c = c) as Hidem
    by (unfold c; apply constrained_values_idem).
  destruct (calls_barrier p) eqn:Hp.
  - set (w' := World (udl w) (<[solution := c]> (arrays w))) in *.
    assert (arrays w' !! S = Some s) as HS'
      by (unfold w'; simpl; rewrite list_lookup_insert_ne; auto).
    assert (arrays w' !! solution = Some c) as Hsol'
      by (unfold w'; simpl; now apply list_lookup_insert_eq).
    pose proof (getConstraint_run p S t' solution s c w' HS' Hs Hsol' Hlenc Hne) as Hrun'.
    rewrite Hp, Hidem in Hrun'.
    exists solution, w', solution, (World (udl w') (<[solution := c]> (arrays w'))), c.
    split; [exact Hrun|]. split; [exact Hrun'|]. split; [exact Hsol'|].
    assert (arrays (World (udl w') (<[solution := c]> (arrays w'))) !! solution = Some c)
      by (simpl; apply list_lookup_insert_eq; unfold w'; simpl;
          now rewrite length_insert).
    auto.
  - set (l := length (arrays w)) in *.
    set (w' := World (udl w) (arrays w ++ [c])) in *.
    assert (arrays w' !! S = Some s) as HS'
      by (unfold w'; simpl; now rewrite lookup_app_l).
    assert (arrays w' !! l = Some c) as Hsol'
      by (unfold w', l; simpl; now apply list_lookup_middle).
    assert (S <> l) as Hne' by (unfold l; lia).
    pose proof (getConstraint_run p S t' l s c w' HS' Hs Hsol' Hlenc Hne') as Hrun'.
    rewrite Hp, Hidem in Hrun'.
    exists l, w', (length (arrays w')), (World (udl w') (arrays w' ++ [c])), c.
    split; [exact Hrun|]. split; [exact Hrun'|]. split; [exact Hsol'|].
    split; [simpl; now apply list_lookup_middle|].
    simpl. rewrite lookup_app_l; [exact Hsol'|]. now apply lookup_lt_Some in Hsol'.
Qed.

Lemma getConstraint_idempotent_witness :
  exists l w' l' w'' c,
    getConstraint (put_3900 None) 0%nat 0 1%nat
      (World sample_underlying [[3800; 3900; 4000]; [5; 6; 7]]) = (inr l, w')
    /\ getConstraint (put_3900 None) 0%nat 1 l w' = (inr l', w'')
    /\ arrays w' !! l = Some c
    /\ arrays w'' !! l' = Some c
    /\ arrays w'' !! l = Some c.
Proof.
  apply (getConstraint_idempotent (put_3900 None) 0%nat 1%nat 0 1
           [3800; 3900; 4000] [5; 6; 7]
           (World sample_underlying [[3800; 3900; 4000]; [5; 6; 7]]));
    try reflexivity; discriminate.
Defined.

(** X12.  With ordered parameters the payoff at expiry is never negative,
    and the payoff of a call spread or of a no-touch never exceeds its cap
    (the difference of the strikes, or 1). *)
Theorem payoff_bounds (p : Payoff) (x : Q) :
  ordered_parameters p ->
  0 <= payoff_body p x
  /\ forall cap, payoff_cap p = Some cap -> payoff_body p x <= cap.
Proof.
  intros Hp. destruct (payoff_body_cases p x) as [Hout Hin].
  set (y := payoff_body p x) in *. clearbody y.
  destruct (inside_barriers p x).
  - specialize (Hin eq_refl). clear Hout.
    destruct p as [b strike|b strike upper ko|b strike ko rebate|b kd ku];
      cbn [alive_value payoff_cap ordered_parameters] in *.
    + pose proof (Q.le_max_r (x - strike) 0).
      split; [lra|discriminate].
    + destruct (Q.max_spec (x - strike) 0) as [[H1 E1]|[H1 E1]];
        destruct (Q.max_spec (x - upper) 0) as [[H2 E2]|[H2 E2]];
        (split; [lra|intros cap [= <-]; lra]).
    + pose proof (Q.le_max_r (strike - x) 0).
      split; [lra|discriminate].
    + split; [lra|intros cap [= <-]; lra].
  - specialize (Hout eq_refl). clear Hin.
    destruct p as [b strike|b strike upper ko|b strike ko rebate|b kd ku];
      cbn [knock_out_value payoff_cap ordered_parameters] in *;
      (split; [lra|try discriminate; intros cap [= <-]; lra]).
Qed.

Lemma payoff_bounds_witness :
  0 <= payoff_body (call_spread_120 None) 110
  /\ forall cap, payoff_cap (call_spread_120 None) = Some cap ->
                 payoff_body (call_spread_120 None) 110 <= cap.
Proof. apply (payoff_bounds (call_spread_120 None) 110). simpl. lra. Defined.

(** X13.  Called with the two arguments it declares, on a mesh array,
    [getDirichletBoundaries] returns a pair and changes nothing.  On a side
    where the contract has a continuous barrier the boundary value is the
    knock-out value; on a side without barrier it is zero for the barrier
    contracts, and for the American call zero below and the exercise value
    of the last mesh node above. *)
Theorem getDirichletBoundaries_declared_call
    (p : Payoff) (S : loc) (t : operand) (s : list Q) (top : Q) (w : world) :
  arrays w !! S = Some s -> last s = Some top ->
  exists lo hi,
    getDirichletBoundaries p [OArray S; t] w = (inr (lo, hi), w)
    /\ lo = (if isfinite (fst (getContinousBarriers p)) then knock_out_value p else 0)
    /\ hi = (if isfinite (snd (getContinousBarriers p)) then knock_out_value p
             else if calls_barrier p then 0 else payoff_body p top).
Proof.
  intros HS Htop.
  destruct p as [b strike|b strike upper ko|b strike ko rebate|b kd ku]; simpl.
  - rewrite (bind_ok _ _ _ _ _ (read_run _ _ _ HS)).
    unfold lift, last_elt, bind, ret. rewrite Htop. eauto.
  - unfold ret. eauto.
  - unfold ret. eauto.
  - unfold ret. eauto.
Qed.

Lemma getDirichletBoundaries_declared_call_witness :
  exists lo hi,
    getDirichletBoundaries (call_100 None) [OArray 0%nat; OScalar (VNp 0)]
      (World sample_underlying [[90; 100; 110]])
    = (inr (lo, hi), World sample_underlying [[90; 100; 110]])
    /\ lo = 0 /\ hi = payoff_body (call_100 None) 110.
Proof.
  apply (getDirichletBoundaries_declared_call (call_100 None) 0%nat (OScalar (VNp 0))
           [90; 100; 110] 110 (World sample_underlying [[90; 100; 110]]));
    reflexivity.
Defined.

(** ** The constructor of the solver: the three meshes *)

Lemma linspace_length (start stop : Q) (num : nat) :
  length (fst (linspace start stop num)) = num.
Proof.
  destruct num as [|[|k]]; try reflexivity.
  unfold linspace. cbn [fst]. rewrite length_app, length_map, length_seq. simpl. lia.
Qed.

Lemma linspace_nodes (start stop : Q) (num : nat) :
  (2 <= num)%nat ->
  exists x step,
    linspace start stop num = (x, Some step)
    /\ length x = num
    /\ step == (stop - start) / inject_Z (Z.of_nat (pred num))
    /\ (forall i xi, x !! i = Some xi -> xi == start + inject_Z (Z.of_nat i) * step)
    /\ last x = Some stop.
Proof.
  intros Hnum. destruct num as [|[|k]]; try lia.
  set (n := S k).
  set (step := (stop - start) / inject_Z (Z.of_nat n)).
  set (f := fun i : nat => inject_Z (Z.of_nat i) * step + start).
  exists (map f (seq 0 n) ++ [stop]), step.
  assert (~ inject_Z (Z.of_nat n) == 0) as Hn.
  { unfold n. intros H. unfold Qeq in H. simpl in H. lia. }
  split; [reflexivity|].
  split; [rewrite length_app, length_map, length_seq; simpl; unfold n; lia|].
  split; [reflexivity|]. split; [|apply last_snoc].
  intros i xi Hi.
  destruct (decide (i < n)%nat) as [Hlt|Hge].
  - rewrite lookup_app_l in Hi by (now rewrite length_map, length_seq).
    rewrite list_lookup_fmap, lookup_seq_lt in Hi by exact Hlt.
    simpl in Hi. inversion Hi. unfold f. ring.
  - assert (i = n) as ->.
    { apply lookup_lt_Some in Hi.
      rewrite length_app, length_map, length_seq in Hi. simpl in Hi. lia. }
    assert (length (map f (seq 0 n)) = n) as Hlen by (now rewrite length_map, length_seq).
    rewrite <- Hlen in Hi at 1. rewrite list_lookup_middle in Hi by reflexivity.
    inversion Hi as [Hx]. rewrite <- Hx. unfold step.
    assert (forall q, ~ q == 0 -> stop == start + q * ((stop - start) / q)) as Hf
      by (intros q Hq; field; exact Hq).
    now apply Hf.
Qed.

(** The two conditional stores that put the barriers on the spot mesh. *)
Lemma snap_nodes {A} (down up : xfloat) (c1 c2 : Q -> bool) (l : loc) (r : A)
    (s0 : list Q) (w : world) :
  arrays w !! l = Some s0 -> (2 <= length s0)%nat ->
  exists s,
    bind (match down with
          | Fin d => if c1 d then store_first l d else ret tt
          | _ => ret tt
          end)
      (fun _ =>
         bind (match up with
               | Fin u => if c2 u then store_last l u else ret tt
               | _ => ret tt
               end)
           (fun _ => ret r)) w
    = (inr r, World (udl w) (<[l := s]> (arrays w)))
    /\ length s = length s0
    /\ (forall i, (0 < i < pred (length s0))%nat -> s !! i = s0 !! i)
    /\ (forall d, down = Fin d -> c1 d = true -> s !! 0%nat = Some d)
    /\ (forall u, up = Fin u -> c2 u = true -> last s = Some u).
Proof.
  intros Hl Hlen.
  assert (s0 <> []) as Hne by (intros ->; simpl in Hlen; lia).
  set (b1 := match down with Fin d => c1 d | _ => false end).
  set (v1 := match down with Fin d => d | _ => 0 end).
  set (b2 := match up with Fin u => c2 u | _ => false end).
  set (v2 := match up with Fin u => u | _ => 0 end).
  assert (match down with
          | Fin d => if c1 d then store_first l d else ret tt
          | _ => ret tt
          end = if b1 then store_first l v1 else ret tt) as ->
    by (unfold b1, v1; now destruct down).
  assert (match up with
          | Fin u => if c2 u then store_last l u else ret tt
          | _ => ret tt
          end = if b2 then store_last l v2 else ret tt) as ->
    by (unfold b2, v2; now destruct up).
  set (s1 := if b1 then <[0%nat := v1]> s0 else s0).
  assert (length s1 = length s0) as Hlen1
    by (unfold s1; destruct b1; [apply length_insert|reflexivity]).
  assert (s1 <> []) as Hne1 by (intros E; rewrite E in Hlen1; simpl in Hlen1; lia).
  exists (if b2 then <[pred (length s1) := v2]> s1 else s1).
  rewrite (bind_ok _ _ _ _ _ (cond_store_first_run b1 l v1 s0 w Hl Hne)).
  fold s1.
  set (w1 := World (udl w) (<[l := s1]> (arrays w))).
  assert (arrays w1 !! l = Some s1) as Hl1.
  { unfold w1. simpl. apply list_lookup_insert_eq. eapply lookup_lt_Some; eassumption. }
  rewrite (bind_ok _ _ _ _ _ (cond_store_last_run b2 l v2 s1 w1 Hl1 Hne1)).
  unfold ret, w1. simpl. rewrite list_insert_insert_eq.
  split; [reflexivity|].
  split; [destruct b2; [now rewrite length_insert|exact Hlen1]|].
  split; [|split].
  - intros i Hi.
    assert (s1 !! i = s0 !! i) as H1
      by (unfold s1; destruct b1; [apply list_lookup_insert_ne; lia|reflexivity]).
    destruct b2; [|exact H1]. rewrite list_lookup_insert_ne by lia. exact H1.
  - intros d Hd Hc.
    assert (s1 !! 0%nat = Some d) as H0.
    { unfold s1, b1, v1. rewrite Hd, Hc. apply list_lookup_insert_eq. lia. }
    destruct b2; [|exact H0]. rewrite list_lookup_insert_ne by lia. exact H0.
  - intros u Hu Hc. unfold b2, v2. rewrite Hu, Hc.
    rewrite last_lookup, length_insert. apply list_lookup_insert_eq. lia.
Qed.

(** The sign of a mesh step that runs from [e] to 0 in [k] intervals. *)
Lemma step_sign (e d k : Q) :
  0 < k -> d == (0 - e) / k -> (Qle_bool 0 d = true <-> e <= 0).
Proof.
  intros Hk Hd. rewrite Qle_bool_iff.
  assert (~ k == 0) as Hk0 by (intros E; rewrite E in Hk; now apply Qlt_irrefl in Hk).
  assert (e == - (d * k)) as He by (rewrite Hd; field; exact Hk0).
  split; intros H.
  - rewrite He. pose proof (Qmult_le_0_compat d k H (Qlt_le_weak _ _ Hk)). lra.
  - rewrite Hd. unfold Qdiv. apply Qmult_le_0_compat; [lra|].
    apply Qlt_le_weak. now apply Qinv_lt_0_compat.
Qed.

Section InitRun.
Variables np_log np_exp np_sqrt : Q -> Q.

(** What the constructor returns and the store it leaves, on a mesh of at
    least two spot nodes. *)
Lemma init_run (payoff : Payoff) (nb_t_steps nb_x_steps : nat)
    (nb_std_down nb_std_up : Q) (nb_non_linear_iter : nat) (nb_non_linear_tol : Q)
    (w : world) (rs rv : Q) :
  np_log_operand (reference_spot (udl w)) = inr rs ->
  num_val (reference_vol (udl w)) = inr rv ->
  (2 <= nb_x_steps)%nat ->
  let x_min := clamp_down np_log (fst (getContinousBarriers payoff))
                 (np_log rs + nb_std_down * rv * np_sqrt (getExpiry payoff)) in
  let x_max := clamp_up np_log (snd (getContinousBarriers payoff))
                 (np_log rs + nb_std_up * rv * np_sqrt (getExpiry payoff)) in
  let t := linspace (getExpiry payoff) 0 nb_t_steps in
  let x := linspace x_min x_max nb_x_steps in
  let n := length (arrays w) in
  exists s,
    NonLinearPDESolver_init np_log np_exp np_sqrt payoff nb_t_steps nb_x_steps
      nb_std_down nb_std_up nb_non_linear_iter nb_non_linear_tol w
    = (inr (mkSolver payoff n (snd t) nb_t_steps (S n) (snd x) nb_x_steps (S (S n))
                     nb_non_linear_iter nb_non_linear_tol),
       World (udl w) (arrays w ++ [fst t; fst x; s]))
    /\ length s = nb_x_steps
    /\ (forall i xi, (0 < i < pred nb_x_steps)%nat -> fst x !! i = Some xi ->
          s !! i = Some (np_exp xi))
    /\ (forall d, fst (getContinousBarriers payoff) = Fin d ->
          Qeq_bool (np_log d) x_min = true -> s !! 0%nat = Some d)
    /\ (forall u, snd (getContinousBarriers payoff) = Fin u ->
          Qeq_bool (np_log u) x_max = true -> last s = Some u).
Proof.
  intros Hrs Hrv Hnx x_min x_max t x n.
  unfold NonLinearPDESolver_init.
  fold t. destruct t as [tm dTm] eqn:Et.
  destruct (getContinousBarriers payoff) as [down up] eqn:Eb.
  cbn [fst snd] in *.
  unfold bind at 1. unfold alloc at 1. cbn beta iota.
  unfold bind at 1. unfold getReferenceSpot at 1. cbn [udl arrays].
  unfold bind at 1. unfold lift at 1. rewrite Hrs.
  unfold bind at 1. unfold getReferenceVol at 1. cbn [udl arrays].
  unfold bind at 1. unfold lift at 1. rewrite Hrv.
  unfold bind at 1. unfold getReferenceSpot at 1. cbn [udl arrays].
  unfold bind at 1. unfold lift at 1. rewrite Hrs.
  unfold bind at 1. unfold getReferenceVol at 1. cbn [udl arrays].
  unfold bind at 1. unfold lift at 1. rewrite Hrv.
  fold x_min x_max. fold x. destruct x as [xm dXm] eqn:Ex.
  cbn [fst snd].
  assert (length xm = nb_x_steps) as Hlenx.
  { pose proof (linspace_length x_min x_max nb_x_steps) as H.
    unfold x in Ex. now rewrite Ex in H. }
  unfold bind at 1. unfold alloc at 1. cbn [udl arrays].
  unfold bind at 1. unfold alloc at 1. cbn [udl arrays].
  set (w2 := World (udl w) (((arrays w ++ [tm]) ++ [xm]) ++ [map np_exp xm])).
  set (l := length ((arrays w ++ [tm]) ++ [xm])).
  assert (l = S (S n)) as Hln by (unfold l, n; rewrite !length_app; simpl; lia).
  assert (length (arrays w ++ [tm]) = S n) as Hl1
    by (unfold n; rewrite length_app; simpl; lia).
  assert (arrays w2 !! l = Some (map np_exp xm)) as Hl.
  { unfold w2, l. cbn [arrays]. apply list_lookup_middle. reflexivity. }
  destruct (snap_nodes down up
              (fun d => Qeq_bool (np_log d) x_min) (fun u => Qeq_bool (np_log u) x_max)
              l (mkSolver payoff (length (arrays w)) dTm nb_t_steps
                          (length (arrays w ++ [tm])) dXm nb_x_steps l
                          nb_non_linear_iter nb_non_linear_tol)
              (map np_exp xm) w2 Hl)
    as (s & Hrun & Hlens & Hint & Hdown & Hup).
  { rewrite length_map. lia. }
  assert (<[l := s]> (arrays w2) = arrays w ++ [tm; xm; s]) as Hw.
  { unfold w2. cbn [arrays]. rewrite <- !app_assoc. simpl.
    rewrite insert_app_r_alt by (fold n; lia). fold n.
    replace (l - n)%nat with 2%nat by lia. reflexivity. }
  exists s. rewrite Hrun, Hl1, Hln, <- Hw. fold n. rewrite Hln.
  split; [reflexivity|].
  split; [now rewrite Hlens, length_map|].
  split; [|split; [exact Hdown|exact Hup]].
  intros i xi Hi Hxi. rewrite Hint by (rewrite length_map; lia).
  now rewrite list_lookup_fmap, Hxi.
Qed.

(** X14.  The constructor only allocates.  With a reference spot that
    [np.log] accepts (a float, or an [int] that fits a NumPy integer), a
    reference volatility that is a float and at least two spot nodes it
    returns a solver that records its arguments and owns three new arrays
    placed after the existing ones: the time mesh with [nb_t_steps] nodes,
    the log-spot mesh and the spot mesh with [nb_x_steps] nodes each.  The
    Underlying and the arrays that existed are left as they were. *)
Theorem init_allocates_three_meshes (payoff' : Payoff) (nb_t_steps' nb_x_steps' : nat)
    (nb_std_down nb_std_up : Q) (nb_non_linear_iter' : nat) (nb_non_linear_tol' : Q)
    (w : world) (rs rv : Q) :
  np_log_operand (reference_spot (udl w)) = inr rs ->
  float_value (reference_vol (udl w)) rv ->
  (2 <= nb_x_steps')%nat ->
  exists self t x s,
    NonLinearPDESolver_init np_log np_exp np_sqrt payoff' nb_t_steps' nb_x_steps'
      nb_std_down nb_std_up nb_non_linear_iter' nb_non_linear_tol' w
    = (inr self, World (udl w) (arrays w ++ [t; x; s]))
    /\ payoff self = payoff'
    /\ nb_t_steps self = nb_t_steps' /\ nb_x_steps self = nb_x_steps'
    /\ nb_non_linear_iter self = nb_non_linear_iter'
    /\ nb_non_linear_tol self = nb_non_linear_tol'
    /\ t_mesh self = length (arrays w)
    /\ x_mesh self = S (length (arrays w))
    /\ s_mesh self = S (S (length (arrays w)))
    /\ length t = nb_t_steps' /\ length x = nb_x_steps' /\ length s = nb_x_steps'.
Proof.
  intros Hrs Hrv Hnx.
  apply float_value_num in Hrv.
  destruct (init_run payoff' nb_t_steps' nb_x_steps' nb_std_down nb_std_up
              nb_non_linear_iter' nb_non_linear_tol' w rs rv Hrs Hrv Hnx)
    as (s & Hrun & Hlens & _).
  eexists. eexists. eexists. exists s. split; [exact Hrun|].
  cbn [payoff nb_t_steps nb_x_steps nb_non_linear_iter nb_non_linear_tol
       t_mesh x_mesh s_mesh].
  repeat (split; [reflexivity|]).
  split; [apply linspace_length|]. split; [apply linspace_length|exact Hlens].
Qed.

(** X15.  The time mesh is uniform and runs from the expiry down to today:
    for a reference spot that [np.log] accepts, a reference volatility that
    is a float and at least two spot nodes the constructor returns, and
    with at least two time nodes, node [i] is [expiry + i * dT] with
    [dT = -expiry / (nb_t_steps - 1)] and the last node is exactly 0.  So
    the step is negative for a contract that has time to run, and
    [dT >= 0], the test of the fast path of [solvePDE], holds exactly when
    the expiry is not in the future. *)
Theorem time_mesh_is_uniform (payoff' : Payoff) (nb_t_steps' nb_x_steps' : nat)
    (nb_std_down nb_std_up : Q) (nb_non_linear_iter' : nat) (nb_non_linear_tol' : Q)
    (w : world) (rs rv : Q) :
  np_log_operand (reference_spot (udl w)) = inr rs ->
  float_value (reference_vol (udl w)) rv ->
  (2 <= nb_x_steps')%nat -> (2 <= nb_t_steps')%nat ->
  exists self w' t d,
    NonLinearPDESolver_init np_log np_exp np_sqrt payoff' nb_t_steps' nb_x_steps'
      nb_std_down nb_std_up nb_non_linear_iter' nb_non_linear_tol' w = (inr self, w')
    /\ arrays w' !! t_mesh self = Some t
    /\ dT self = Some d
    /\ d == - getExpiry payoff' / inject_Z (Z.of_nat (pred nb_t_steps'))
    /\ (forall i ti, t !! i = Some ti ->
          ti == getExpiry payoff' + inject_Z (Z.of_nat i) * d)
    /\ last t = Some 0
    /\ (dT_nonneg self = true <-> getExpiry payoff' <= 0).
Proof.
  intros Hrs Hrv Hnx Hnt.
  apply float_value_num in Hrv.
  destruct (init_run payoff' nb_t_steps' nb_x_steps' nb_std_down nb_std_up
              nb_non_linear_iter' nb_non_linear_tol' w rs rv Hrs Hrv Hnx)
    as (s & Hrun & _).
  destruct (linspace_nodes (getExpiry payoff') 0 nb_t_steps' Hnt)
    as (t & d & Hlin & Hlen & Hd & Hnodes & Hlast).
  rewrite Hlin in Hrun. cbn [fst snd] in Hrun.
  eexists. eexists. exists t, d. split; [exact Hrun|].
  cbn [t_mesh dT arrays]. unfold dT_nonneg. cbn [dT].
  assert (0 < inject_Z (Z.of_nat (pred nb_t_steps'))) as Hk.
  { unfold Qlt. simpl. lia. }
  assert (d == - getExpiry payoff' / inject_Z (Z.of_nat (pred nb_t_steps'))) as Hd'.
  { rewrite Hd. field. intros E. rewrite E in Hk. now apply Qlt_irrefl in Hk. }
  split; [apply list_lookup_middle; reflexivity|].
  split; [reflexivity|]. split; [exact Hd'|]. split; [exact Hnodes|].
  split; [exact Hlast|].
  now apply (step_sign _ _ _ Hk Hd).
Qed.

(** X16.  For a positive reference spot, an expiry that is not negative
    and positive barriers (so that the logarithms and the square root the
    constructor takes are numbers), the log-spot mesh is uniform between
    the two clamped bounds: node [i] is [x_min + i * dX] with
    [dX = (x_max - x_min) / (nb_x_steps - 1)] and the last node is exactly
    [x_max].  The bounds never reach beyond the logarithm of a continuous
    barrier, and every interior node of the spot mesh is the exponential
    of its log-spot node. *)
Theorem log_spot_mesh_is_uniform (payoff' : Payoff) (nb_t_steps' nb_x_steps' : nat)
    (nb_std_down nb_std_up : Q) (nb_non_linear_iter' : nat) (nb_non_linear_tol' : Q)
    (w : world) (rs rv : Q) :
  np_log_operand (reference_spot (udl w)) = inr rs ->
  float_value (reference_vol (udl w)) rv ->
  (2 <= nb_x_steps')%nat ->
  0 < rs -> 0 <= getExpiry payoff' -> positive_barriers payoff' ->
  let x_min := clamp_down np_log (fst (getContinousBarriers payoff'))
                 (np_log rs + nb_std_down * rv * np_sqrt (getExpiry payoff')) in
  let x_max := clamp_up np_log (snd (getContinousBarriers payoff'))
                 (np_log rs + nb_std_up * rv * np_sqrt (getExpiry payoff')) in
  exists self w' x s d,
    NonLinearPDESolver_init np_log np_exp np_sqrt payoff' nb_t_steps' nb_x_steps'
      nb_std_down nb_std_up nb_non_linear_iter' nb_non_linear_tol' w = (inr self, w')
    /\ arrays w' !! x_mesh self = Some x
    /\ arrays w' !! s_mesh self = Some s
    /\ dX self = Some d
    /\ d == (x_max - x_min) / inject_Z (Z.of_nat (pred nb_x_steps'))
    /\ (forall i xi, x !! i = Some xi -> xi == x_min + inject_Z (Z.of_nat i) * d)
    /\ last x = Some x_max
    /\ (forall i xi, (0 < i < pred nb_x_steps')%nat -> x !! i = Some xi ->
          s !! i = Some (np_exp xi))
    /\ (forall b, fst (getContinousBarriers payoff') = Fin b -> np_log b <= x_min)
    /\ (forall b, snd (getContinousBarriers payoff') = Fin b -> x_max <= np_log b).
Proof.
  intros Hrs Hrv Hnx _ _ _ x_min x_max.
  apply float_value_num in Hrv.
  destruct (init_run payoff' nb_t_steps' nb_x_steps' nb_std_down nb_std_up
              nb_non_linear_iter' nb_non_linear_tol' w rs rv Hrs Hrv Hnx)
    as (s & Hrun & _ & Hint & _).
  fold x_min x_max in Hrun, Hint.
  destruct (linspace_nodes x_min x_max nb_x_steps' Hnx)
    as (x & d & Hlin & Hlen & Hd & Hnodes & Hlast).
  rewrite Hlin in Hrun, Hint. cbn [fst snd] in Hrun, Hint.
  eexists. eexists. exists x, s, d. split; [exact Hrun|].
  cbn [x_mesh s_mesh dX arrays].
  split.
  { rewrite (lookup_app_r (arrays w)) by lia.
    replace (S (length (arrays w)) - length (arrays w))%nat with 1%nat by lia.
    reflexivity. }
  split.
  { rewrite (lookup_app_r (arrays w)) by lia.
    replace (S (S (length (arrays w))) - length (arrays w))%nat with 2%nat by lia.
    reflexivity. }
  split; [reflexivity|]. split; [exact Hd|]. split; [exact Hnodes|].
  split; [exact Hlast|]. split; [exact Hint|].
  split.
  - intros b Hb. unfold x_min. rewrite Hb. unfold clamp_down.
    destruct (Qle_bool _ (np_log b)) eqn:E; [apply Qle_refl|].
    apply Qlt_le_weak. now apply Qle_bool_false_lt.
  - intros b Hb. unfold x_max. rewrite Hb. unfold clamp_up.
    destruct (Qle_bool (np_log b) _) eqn:E; [apply Qle_refl|].
    apply Qlt_le_weak. now apply Qle_bool_false_lt.
Qed.

(** X17.  A contract whose expiry is not in the future is priced at its
    payoff: for a reference spot that [np.log] accepts, a reference
    volatility that is a float and at least two time and spot nodes, the
    constructor returns, and the solver it builds returns, for a
    [numpy.float64] spot, the payoff at that spot as a Python float, in
    whatever later state of the market, and changes nothing. *)
Theorem solvePDE_at_expiry (payoff' : Payoff) (nb_t_steps' nb_x_steps' : nat)
    (nb_std_down nb_std_up : Q) (nb_non_linear_iter' : nat) (nb_non_linear_tol' : Q)
    (w : world) (rs rv : Q) :
  np_log_operand (reference_spot (udl w)) = inr rs ->
  float_value (reference_vol (udl w)) rv ->
  (2 <= nb_x_steps')%nat -> (2 <= nb_t_steps')%nat ->
  getExpiry payoff' <= 0 ->
  exists self w',
    NonLinearPDESolver_init np_log np_exp np_sqrt payoff' nb_t_steps' nb_x_steps'
      nb_std_down nb_std_up nb_non_linear_iter' nb_non_linear_tol' w = (inr self, w')
    /\ udl w' = udl w
    /\ forall lin_norm solve_banded CubicSpline w1 s,
         spot (udl w1) = VNp s ->
         solvePDE np_log lin_norm solve_banded CubicSpline self w1
         = (inr (VFloat (payoff_body payoff' s)), w1).
Proof.
  intros Hrs Hrv Hnx Hnt Hexp.
  apply float_value_num in Hrv.
  destruct (init_run payoff' nb_t_steps' nb_x_steps' nb_std_down nb_std_up
              nb_non_linear_iter' nb_non_linear_tol' w rs rv Hrs Hrv Hnx)
    as (s & Hrun & _).
  destruct (linspace_nodes (getExpiry payoff') 0 nb_t_steps' Hnt)
    as (t & d & Hlin & _ & Hd & _).
  rewrite Hlin in Hrun. cbn [fst snd] in Hrun.
  eexists. eexists. split; [exact Hrun|]. split; [reflexivity|].
  intros lin_norm solve_banded CubicSpline w1 s1 Hs1.
  assert (0 < inject_Z (Z.of_nat (pred nb_t_steps'))) as Hk.
  { unfold Qlt. simpl. lia. }
  rewrite (solvePDE_fast_path_numpy_spot np_log lin_norm solve_banded CubicSpline _ w1 s1 Hs1);
    [reflexivity|].
  unfold fast_path, dT_nonneg. cbn [dT].
  now rewrite (proj2 (step_sign _ _ _ Hk Hd) Hexp).
Qed.

End InitRun.

Lemma init_allocates_three_meshes_witness :
  exists self t x s,
    init_q (no_touch_80_120 None) 3 5 (- (6)) 6 50 (1 # 100000000)
      (World (linear_at (VNp 100)) [])
    = (inr self, World (linear_at (VNp 100)) ([] ++ [t; x; s]))
    /\ t_mesh self = 0%nat /\ x_mesh self = 1%nat /\ s_mesh self = 2%nat
    /\ length t = 3%nat /\ length x = 5%nat /\ length s = 5%nat.
Proof.
  destruct (init_allocates_three_meshes log_approx exp_approx sqrt_approx
              (no_touch_80_120 None) 3 5 (- (6)) 6 50 (1 # 100000000)
              (World (linear_at (VNp 100)) []) 100 (1#5) eq_refl (or_introl eq_refl))
    as (self & t & x & s & Hrun & _ & _ & _ & _ & _ & Ht & Hx & Hs & Hlt & Hlx & Hls).
  { lia. }
  exists self, t, x, s. repeat apply conj; assumption.
Defined.

Lemma time_mesh_is_uniform_witness :
  exists self w' t d,
    init_q (no_touch_80_120 None) 3 5 (- (6)) 6 50 (1 # 100000000)
      (World (linear_at (VNp 100)) []) = (inr self, w')
    /\ arrays w' !! t_mesh self = Some t
    /\ dT self = Some d
    /\ d == - (1#12) / 2
    /\ last t = Some 0.
Proof.
  destruct (time_mesh_is_uniform log_approx exp_approx sqrt_approx
              (no_touch_80_120 None) 3 5 (- (6)) 6 50 (1 # 100000000)
              (World (linear_at (VNp 100)) []) 100 (1#5) eq_refl (or_introl eq_refl))
    as (self & w' & t & d & Hrun & Ht & HdT & Hd & _ & Hlast & _).
  { lia. }
  { lia. }
  exists self, w', t, d. repeat apply conj; assumption.
Defined.

Lemma log_spot_mesh_is_uniform_witness :
  exists self w' x s d,
    init_q (no_touch_80_120 None) 3 5 (- (6)) 6 50 (1 # 100000000)
      (World (linear_at (VNp 100)) []) = (inr self, w')
    /\ arrays w' !! x_mesh self = Some x
    /\ arrays w' !! s_mesh self = Some s
    /\ dX self = Some d
    /\ forall i xi, (0 < i < 4)%nat -> x !! i = Some xi -> s !! i = Some (exp_approx xi).
Proof.
  destruct (log_spot_mesh_is_uniform log_approx exp_approx sqrt_approx
              (no_touch_80_120 None) 3 5 (- (6)) 6 50 (1 # 100000000)
              (World (linear_at (VNp 100)) []) 100 (1#5) eq_refl (or_introl eq_refl))
    as (self & w' & x & s & d & Hrun & Hx & Hs & HdX & _ & _ & _ & Hint & _).
  { lia. }
  { lra. }
  { vm_compute. discriminate. }
  { split; intros b [= <-]; lra. }
  exists self, w', x, s, d. repeat apply conj; assumption.
Defined.

Lemma solvePDE_at_expiry_witness :
  exists self w',
    init_q expired_call_100 3 5 (- (6)) 6 50 (1 # 100000000)
      (World (linear_at (VNp 110)) []) = (inr self, w')
    /\ solvePDE_q self w' = (inr (VFloat (payoff_body expired_call_100 110)), w').
Proof.
  destruct (solvePDE_at_expiry log_approx exp_approx sqrt_approx
              expired_call_100 3 5 (- (6)) 6 50 (1 # 100000000)
              (World (linear_at (VNp 110)) []) 110 (1#5) eq_refl (or_introl eq_refl))
    as (self & w' & Hrun & Hu & Hsolve).
  { lia. }
  { lia. }
  { vm_compute. discriminate. }
  exists self, w'. split; [exact Hrun|].
  apply Hsolve. now rewrite Hu.
Defined.

(** ** solvePDE: the fast path, and the state it leaves *)

Section SolvePDEMore.

Variables np_log : Q -> Q.
Variable lin_norm : list Q -> Q.
Variable solve_banded : list Q -> list Q -> list Q -> list Q -> exn + list Q.
Variable CubicSpline : list Q -> list Q -> Q -> exn + Q.

(** X18.  Once the spot is at or beyond a continuous barrier the contract
    is knocked out: for a [numpy.float64] spot [solvePDE] returns the
    knock-out value (zero, or the rebate of the put) whatever the time to
    expiry, the volatility and the notional, and changes nothing. *)
Theorem solvePDE_knocked_out (self : NonLinearPDESolver) (w : world) (s : Q) :
  spot (udl w) = VNp s ->
  inside_barriers (payoff self) s = false ->
  exists v,
    solvePDE np_log lin_norm solve_banded CubicSpline self w = (inr (VFloat v), w)
    /\ v == knock_out_value (payoff self).
Proof.
  intros Hs Hout. exists (payoff_body (payoff self) s).
  split; [|now apply payoff_body_cases].
  apply solvePDE_fast_path_numpy_spot; [exact Hs|].
  unfold fast_path. destruct (dT_nonneg self); [reflexivity|].
  unfold bind, lift, ret. cbn [num_val fst].
  unfold inside_barriers in Hout. now rewrite Hout.
Qed.

(** X19.  [solvePDE] reads the market and only ever allocates: whether it
    returns or raises, the Underlying is in the state it was called in and
    every array that existed still has its contents. *)
Theorem solvePDE_only_allocates (self : NonLinearPDESolver) (w : world) :
  let w' := snd (solvePDE np_log lin_norm solve_banded CubicSpline self w) in
  udl w' = udl w
  /\ forall l a, arrays w !! l = Some a -> arrays w' !! l = Some a.
Proof.
  intros w'.
  destruct (solvePDE_stable np_log lin_norm solve_banded CubicSpline self w)
    as (Hu & _ & Hsame).
  split; [exact Hu|].
  intros l a Hl. fold w' in Hsame. rewrite Hsame; [exact Hl|].
  eapply lookup_lt_Some; eassumption.
Qed.

End SolvePDEMore.

Lemma solvePDE_knocked_out_witness :
  exists self w v,
    with_solver (put_3900 (Some (- (1)))) (non_linear_at (VNp 3800)) 3 5 ret = (inr self, w)
    /\ solvePDE_q self w = (inr (VFloat v), w)
    /\ v == knock_out_value (payoff self).
Proof.
  let r := eval vm_compute in
             (with_solver (put_3900 (Some (- (1)))) (non_linear_at (VNp 3800)) 3 5 ret) in
  match r with
  | (inr ?self, ?w) =>
      exists self, w;
      destruct (solvePDE_knocked_out log_approx norm_approx tridiagonal_solve interpolate
                  self w 3800 eq_refl eq_refl) as (v & Hrun & Hv);
      exists v; split; [vm_compute; reflexivity|split; [exact Hrun|exact Hv]]
  end.
Defined.

(** ** The implicit step: rows of the banded system *)

Lemma halfVar_nth (vol : list Q) (i : nat) (v : Q) :
  vol !! i = Some v -> nth i (halfVar_of vol) 0 = (1#2) * v * v.
Proof.
  intros Hv. rewrite nth_lookup. unfold halfVar_of.
  now rewrite list_lookup_fmap, Hv.
Qed.

Lemma Qmult_nonneg_nonpos (a b : Q) : 0 <= a -> 0 <= b -> a * - b <= 0.
Proof.
  intros Ha Hb. pose proof (Qmult_le_0_compat a b Ha Hb).
  assert (a * - b == - (a * b)) as -> by ring. lra.
Qed.

(** X20.  With a negative time step and a log-spot step of size at most 2,
    the matrix of the implicit step is an M-matrix at every interior row:
    the entries left and right of the diagonal are not positive, the
    diagonal is at least 1, and the three entries of the row add up to 1,
    so that a flat solution solves the interior equations. *)
Theorem implicit_matrix_rows (dT dX firstOrder secondOrder : Q)
    (vol : list Q) (i : nat) (v : Q) :
  coefficients (Some dT) (Some dX) = Some (firstOrder, secondOrder) ->
  dT < 0 -> - (2) <= dX <= 2 ->
  (1 <= i < length vol - 1)%nat ->
  vol !! i = Some v ->
  let n := length vol in
  let halfVar := halfVar_of vol in
  exists lo di up,
    band_lower n firstOrder secondOrder halfVar !! (i - 1)%nat = Some lo
    /\ diagonal secondOrder halfVar !! i = Some di
    /\ band_upper n firstOrder secondOrder halfVar !! (i + 1)%nat = Some up
    /\ lo + di + up == 1
    /\ lo <= 0 /\ up <= 0 /\ 1 <= di.
Proof.
  intros Hc HdT HdX Hi Hv n halfVar.
  apply coefficients_inv in Hc as (HdX0 & -> & ->).
  set (h := (1#2) * v * v).
  set (fo := - (1#2) * dT / dX). set (so := - dT / (dX * dX)).
  exists (h * (- fo - so)), (1 + 2 * h * so), (h * (fo - so)).
  assert (nth i halfVar 0 = h) as Hh by (now apply halfVar_nth).
  split.
  { assert (i - 1 < n)%nat as Hlt by (unfold n; lia).
    unfold band_lower. rewrite list_lookup_fmap. rewrite (lookup_seq_lt _ _ _ Hlt).
    cbn [fmap option_fmap option_map Nat.add].
    replace (i - 1 <? n - 1)%nat with true
      by (symmetry; apply Nat.ltb_lt; unfold n; lia).
    replace (i - 1 + 1)%nat with i by lia. now rewrite Hh. }
  split.
  { unfold diagonal, halfVar, halfVar_of. now rewrite !list_lookup_fmap, Hv. }
  split.
  { assert (i + 1 < n)%nat as Hlt by (unfold n; lia).
    unfold band_upper. rewrite list_lookup_fmap. rewrite (lookup_seq_lt _ _ _ Hlt).
    cbn [fmap option_fmap option_map Nat.add].
    replace (1 <=? i + 1)%nat with true
      by (symmetry; apply Nat.leb_le; lia).
    replace (i + 1 - 1)%nat with i by lia. now rewrite Hh. }
  split; [ring|].
  assert (0 < dX * dX) as Hsq by now apply Qsquare_pos.
  assert (~ dX * dX == 0) as Hsq0 by lra.
  assert (0 <= h) as Hh0.
  { unfold h. assert ((1#2) * v * v == (1#2) * (v * v)) as -> by ring.
    apply Qmult_le_0_compat; [lra|].
    destruct (Qeq_dec v 0) as [E|E]; [rewrite E; lra|].
    apply Qlt_le_weak. now apply Qsquare_pos. }
  set (a := - dT * / (dX * dX)).
  assert (0 < a) as Ha.
  { unfold a. apply Qmult_lt_0_compat; [lra|]. now apply Qinv_lt_0_compat. }
  assert (- fo - so == - (a * (1 + (1#2) * dX))) as Hlo
    by (unfold fo, so, a; field; try split; assumption).
  assert (fo - so == - (a * (1 - (1#2) * dX))) as Hup
    by (unfold fo, so, a; field; try split; assumption).
  assert (so == a) as Hso by (unfold so, a; field; try split; assumption).
  split; [|split].
  - rewrite Hlo. apply Qmult_nonneg_nonpos; [exact Hh0|].
    apply Qmult_le_0_compat; lra.
  - rewrite Hup. apply Qmult_nonneg_nonpos; [exact Hh0|].
    apply Qmult_le_0_compat; lra.
  - rewrite Hso. pose proof (Qmult_le_0_compat h a Hh0 (Qlt_le_weak _ _ Ha)) as H.
    assert (2 * h * a == 2 * (h * a)) as -> by ring. lra.
Qed.

Lemma implicit_matrix_rows_witness :
  exists firstOrder secondOrder lo di up,
    coefficients (Some (- (1#100))) (Some (1#10)) = Some (firstOrder, secondOrder)
    /\ band_lower 4 firstOrder secondOrder (halfVar_of [1#5; 1#5; 1#5; 1#5]) !! 0%nat
       = Some lo
    /\ diagonal secondOrder (halfVar_of [1#5; 1#5; 1#5; 1#5]) !! 1%nat = Some di
    /\ band_upper 4 firstOrder secondOrder (halfVar_of [1#5; 1#5; 1#5; 1#5]) !! 2%nat
       = Some up
    /\ lo + di + up == 1
    /\ lo <= 0 /\ up <= 0 /\ 1 <= di.
Proof.
  let r := eval vm_compute in (coefficients (Some (- (1#100))) (Some (1#10))) in
  match r with
  | Some (?fo, ?so) =>
      exists fo, so;
      destruct (implicit_matrix_rows (- (1#100)) (1#10) fo so [1#5; 1#5; 1#5; 1#5] 1 (1#5))
        as (lo & di & up & H);
      [vm_compute; reflexivity|lra|lra|simpl; lia|reflexivity|];
      exists lo, di, up; split; [vm_compute; reflexivity|exact H]
  end.
Defined.

(** ** The non-linear loop: range of the chosen volatility *)

Lemma choose_vol_range (bid ask notional g : Q) :
  bid <= ask -> bid <= choose_vol bid ask notional g <= ask.
Proof.
  intros Hle. destruct (choose_vol_cases bid ask notional g) as (Hp & Hn & Hz).
  destruct (Qlt_le_dec 0 (- g * notional)) as [H|H].
  - rewrite (Hp H). lra.
  - apply Qle_lt_or_eq in H as [H|H].
    + rewrite (Hn H). lra.
    + rewrite (Hz H). lra.
Qed.

Lemma copy_edges_elements (a r : list Q) :
  copy_edges a = inr r ->
  length r = length a /\ forall j v, r !! j = Some v -> exists k, a !! k = Some v.
Proof.
  unfold copy_edges.
  destruct (a !! 1%nat) as [a1|] eqn:H1; [|discriminate].
  rewrite length_insert.
  destruct (<[0%nat := a1]> a !! (length a - 2)%nat) as [b|] eqn:H2; [|discriminate].
  intros [= <-]. split; [now rewrite !length_insert|].
  assert (forall j v, <[0%nat := a1]> a !! j = Some v -> exists k, a !! k = Some v) as Hin.
  { intros j v Hj. destruct (decide (j = 0%nat)) as [->|Hne].
    - rewrite list_lookup_insert_eq in Hj by (apply lookup_lt_Some in H1; lia).
      inversion Hj; subst. eauto.
    - rewrite list_lookup_insert_ne in Hj by auto. eauto. }
  intros j v Hj. destruct (decide (j = (length a - 1)%nat)) as [->|Hne].
  - rewrite list_lookup_insert_eq in Hj
      by (rewrite length_insert; apply lookup_lt_Some in H1; lia).
    inversion Hj; subst. eauto.
  - rewrite list_lookup_insert_ne in Hj by auto. eauto.
Qed.

Lemma copy_edges_returns (a : list Q) :
  (2 <= length a)%nat -> exists r, copy_edges a = inr r.
Proof.
  intros Hlen. unfold copy_edges.
  assert (1 < length a)%nat as H1 by lia.
  destruct (lookup_lt_is_Some_2 a 1%nat H1) as [a1 ->].
  assert (length (<[0%nat := a1]> a) - 2 < length (<[0%nat := a1]> a))%nat as H2
    by (rewrite length_insert; lia).
  destruct (lookup_lt_is_Some_2 _ _ H2) as [b ->].
  eauto.
Qed.

Lemma copy_edges_short (a : list Q) :
  (length a < 2)%nat -> copy_edges a = inl IndexError.
Proof.
  intros Hlen. unfold copy_edges.
  rewrite (lookup_ge_None_2 a 1%nat) by lia. reflexivity.
Qed.

(** X21.  The volatility handed to a re-solve never leaves the bid-ask
    range: on at least two nodes [optimizedVol] is an array as long as
    [gamma] all of whose entries, edges included, lie between the bid and
    the ask; on fewer than two nodes the edge copy raises IndexError. *)
Theorem optimizedVol_within_bid_ask (bid ask notional : Q) (gamma : list Q) :
  bid <= ask ->
  ((length gamma < 2)%nat -> optimizedVol bid ask notional gamma = inl IndexError)
  /\ ((2 <= length gamma)%nat ->
      exists vols,
        optimizedVol bid ask notional gamma = inr vols
        /\ length vols = length gamma
        /\ forall j v, vols !! j = Some v -> bid <= v <= ask).
Proof.
  intros Hle. unfold optimizedVol. split; intros Hlen.
  - apply copy_edges_short. now rewrite length_map.
  - destruct (copy_edges_returns (map (choose_vol bid ask notional) gamma)) as [vols Hv];
      [now rewrite length_map|].
    exists vols. split; [exact Hv|].
    apply copy_edges_elements in Hv as [Hl Hel].
    split; [now rewrite Hl, length_map|].
    intros j v Hj. destruct (Hel j v Hj) as [k Hk].
    rewrite list_lookup_fmap in Hk.
    destruct (gamma !! k) as [g|]; [|discriminate].
    inversion Hk; subst. now apply choose_vol_range.
Qed.

Lemma optimizedVol_within_bid_ask_witness :
  exists vols,
    optimizedVol (1#10) (3#10) (- (1)) [0; 2; - (3); 0] = inr vols
    /\ length vols = 4%nat
    /\ forall j v, vols !! j = Some v -> 1#10 <= v <= 3#10.
Proof.
  destruct (optimizedVol_within_bid_ask (1#10) (3#10) (- (1)) [0; 2; - (3); 0]) as [_ H].
  { lra. }
  apply H. simpl. lia.
Defined.


(** ** Greeks: bump and reprice *)

Section GreeksRun.

Variables np_log : Q -> Q.
Variable lin_norm : list Q -> Q.
Variable solve_banded : list Q -> list Q -> list Q -> list Q -> exn + list Q.
Variable CubicSpline : list Q -> list Q -> Q -> exn + Q.
Variable pde_solver : NonLinearPDESolver.

Lemma solvePDE_on_fast_path (w : world) (s : Q) :
  spot (udl w) = VNp s -> on_fast_path pde_solver s = true ->
  solvePDE np_log lin_norm solve_banded CubicSpline pde_solver w
  = (inr (VFloat (payoff_body (payoff pde_solver) s)), w).
Proof.
  intros Hs Hfast. apply solvePDE_fast_path_numpy_spot; [exact Hs|].
  unfold fast_path. unfold on_fast_path in Hfast.
  destruct (dT_nonneg pde_solver); [reflexivity|].
  unfold bind, lift, ret. cbn [num_val fst]. simpl in Hfast.
  unfold inside_barriers in Hfast. now rewrite Hfast.
Qed.

Lemma valid_spot_np (s : Q) : 0 < s -> valid_spot (VNp s).
Proof. intros H. exists s. split; [reflexivity|exact H]. Qed.

Lemma Qeq_bool_false (x : Q) : ~ x == 0 -> Qeq_bool x 0 = false.
Proof.
  intros H. destruct (Qeq_bool x 0) eqn:E; [|reflexivity].
  apply Qeq_bool_iff in E. contradiction.
Qed.

(** Where the three solves take the fast path, [computeGreeks] returns
    the payoff at the spot and its central differences over the bumped
    spots, and leaves the world as it found it. *)
Lemma computeGreeks_fast_run (bump s : Q) (w : world) :
  spot (udl w) = VNp s -> 0 < s -> 0 < bump -> bump < 1 ->
  well_formed (udl w) ->
  on_fast_path pde_solver s = true ->
  on_fast_path pde_solver (s - bump * s) = true ->
  on_fast_path pde_solver (s + bump * s) = true ->
  let P := payoff_body (payoff pde_solver) in
  computeGreeks np_log lin_norm solve_banded CubicSpline pde_solver bump w
  = (inr (VFloat (P s),
          VNp (100 * (P (s + bump * s) - P (s - bump * s)) / (2 * (bump * s))),
          VNp (100 * (P (s + bump * s) - 2 * P s + P (s - bump * s))
               / (bump * s * (bump * s))),
          VFloat (P s - P s)),
     w).
Proof.
  intros Hs Hpos Hb0 Hb1 [Hvol Hflag] Hf0 Hfm Hfp P.
  assert (0 < bump * s) as Hbs by now apply Qmult_lt_0_compat.
  assert (bump * s < s) as Hbs1.
  { assert (s == 1 * s) as E by ring. rewrite E at 2.
    apply Qmult_lt_compat_r; assumption. }
  assert (0 < s - bump * s) as Hdown by lra.
  assert (0 < s + bump * s) as Hup by lra.
  destruct w as [u arr]. cbn [udl] in *.
  unfold computeGreeks.
  unfold bind at 1. unfold getSpot at 1. cbn [udl]. rewrite Hs.
  unfold bind at 1. unfold lift at 1. cbn [py_mul py_arith].
  rewrite (bind_ok _ _ _ _ _ (solvePDE_on_fast_path (World u arr) s Hs Hf0)).
  unfold bind at 1. unfold lift at 1. cbn [py_sub py_arith].
  rewrite (bind_ok _ _ _ _ _
             (setSpot_run (VNp (s - bump * s)) (World u arr)
                          (valid_spot_np _ Hdown))).
  cbn [udl arrays].
  rewrite (bind_ok _ _ _ _ _
             (solvePDE_on_fast_path (World (assign_spot (VNp (s - bump * s)) u) arr)
                                    (s - bump * s) eq_refl Hfm)).
  unfold bind at 1. unfold lift at 1. cbn [py_add py_arith].
  set (u1 := assign_spot (VNp (s - bump * s)) u).
  rewrite (bind_ok _ _ _ _ _
             (setSpot_run (VNp (s + bump * s)) (World u1 arr) (valid_spot_np _ Hup))).
  cbn [udl arrays].
  set (u2 := assign_spot (VNp (s + bump * s)) u1).
  rewrite (bind_ok _ _ _ _ _
             (solvePDE_on_fast_path (World u2 arr) (s + bump * s) eq_refl Hfp)).
  rewrite (bind_ok _ _ _ _ _
             (setSpot_run (VNp s) (World u2 arr) (valid_spot_np _ Hpos))).
  cbn [udl arrays]. unfold u2, u1.
  assert (assign_spot (VNp s)
            (assign_spot (VNp (s + bump * s)) (assign_spot (VNp (s - bump * s)) u)) = u)
    as -> by (rewrite <- Hs; apply assign_spot_back).
  unfold bind at 1. unfold isNonLinear at 1. cbn [udl]. rewrite Hflag.
  assert (Qeq_bool (2 * (bump * s)) 0 = false) as Hd3 by (apply Qeq_bool_false; lra).
  assert (Qeq_bool (bump * s * (bump * s)) 0 = false) as Hg5.
  { apply Qeq_bool_false. pose proof (Qmult_lt_0_compat _ _ Hbs Hbs). lra. }
  destruct Hvol as [(q & Hq & Hq0)|(bid & ask & Hv & Hbid & Hask)].
  - rewrite Hq. cbn [is_tuple].
    unfold bind at 1. unfold ret at 1.
    unfold bind, lift, ret. cbn [py_sub py_mul py_add py_arith py_div num_val is_np orb].
    rewrite Hd3, Hg5. reflexivity.
  - rewrite Hv. cbn [is_tuple].
    match goal with
    | |- bind ?m ?k ?w = _ =>
        assert (m w = (inr (VFloat (P s)), w)) as Hblock
    end.
    { unfold bind at 1. unfold getVol at 1. cbn [udl]. rewrite Hv.
      unfold bind at 1. unfold lift at 1.
      change (mid_vol (VTuple [VFloat bid; VFloat ask]))
        with (inr (VFloat ((1#2) * (bid + ask))) : exn + pyval).
      cbn beta iota.
      assert (valid_vol (VFloat ((1#2) * (bid + ask)))) as Hmid
        by (left; eexists; split; [reflexivity|lra]).
      rewrite (bind_ok _ _ _ _ _ (setVol_run _ (World u arr) Hmid)).
      cbn [udl arrays is_tuple].
      set (um := assign_is_non_linear (Some false)
                   (assign_vol (VFloat ((1#2) * (bid + ask))) u)).
      rewrite (bind_ok _ _ _ _ _ (solvePDE_on_fast_path (World um arr) s Hs Hf0)).
      assert (valid_vol (VTuple [VFloat bid; VFloat ask])) as Hpair
        by (right; exists bid, ask; auto).
      rewrite (bind_ok _ _ _ _ _ (setVol_run _ (World um arr) Hpair)).
      unfold ret. cbn [udl arrays is_tuple]. f_equal. f_equal.
      unfold um. destruct u as [sp rsp v rv fl]. simpl in *. now subst. }
    rewrite (bind_ok _ _ _ _ _ Hblock).
    unfold bind, lift, ret. cbn [py_sub py_mul py_add py_arith py_div num_val is_np orb].
    rewrite Hd3, Hg5. reflexivity.
Qed.

(** X23.  For a contract at expiry ([dT >= 0]), a [numpy.float64] spot
    and a bump strictly between 0 and 1, [computeGreeks] returns: as
    premium the payoff at the spot, as delta and gamma the central first
    and second differences of the payoff over the two bumped spots, scaled
    by 100, and a surprime of [premium - premium]; the Underlying and the
    arrays are then exactly as before the call. *)
Theorem computeGreeks_at_expiry (bump s : Q) (w : world) :
  dT_nonneg pde_solver = true ->
  spot (udl w) = VNp s -> 0 < s -> 0 < bump -> bump < 1 ->
  well_formed (udl w) ->
  let P := payoff_body (payoff pde_solver) in
  computeGreeks np_log lin_norm solve_banded CubicSpline pde_solver bump w
  = (inr (VFloat (P s),
          VNp (100 * (P (s + bump * s) - P (s - bump * s)) / (2 * (bump * s))),
          VNp (100 * (P (s + bump * s) - 2 * P s + P (s - bump * s))
               / (bump * s * (bump * s))),
          VFloat (P s - P s)),
     w).
Proof.
  intros HdT Hs Hpos Hb0 Hb1 Hwf.
  apply computeGreeks_fast_run; try assumption; unfold on_fast_path; now rewrite HdT.
Qed.

(** X24.  A bump of 100% or more cannot be priced: the down-bumped spot
    [spot - bump * spot] is not positive, so [computeGreeks] raises, either
    in the first solve or with the "Spot cannot be negative" exception of
    [setSpot]; the Underlying and the arrays that existed are as before
    the call. *)
Theorem computeGreeks_bump_too_large (bump s : Q) (w : world) :
  spot (udl w) = VNp s -> 0 < s -> 1 <= bump ->
  exists e w',
    computeGreeks np_log lin_norm solve_banded CubicSpline pde_solver bump w = (inl e, w')
    /\ udl w' = udl w
    /\ (forall l a, arrays w !! l = Some a -> arrays w' !! l = Some a)
    /\ match fst (solvePDE np_log lin_norm solve_banded CubicSpline pde_solver w) with
       | inl e0 => e = e0
       | inr _ => e = Exception "validateSpot : Spot cannot be negative"
       end.
Proof.
  intros Hs Hpos Hb.
  assert (s - bump * s <= 0) as Hdown.
  { assert (1 * s <= bump * s) by (apply Qmult_le_compat_r; lra). lra. }
  pose proof (solvePDE_stable np_log lin_norm solve_banded CubicSpline pde_solver w)
    as (Hu & _ & Hsame).
  assert (forall l a, arrays w !! l = Some a ->
            arrays (snd (solvePDE np_log lin_norm solve_banded CubicSpline pde_solver w))
              !! l = Some a) as Harr.
  { intros l a Hl. rewrite Hsame; [exact Hl|]. eapply lookup_lt_Some; eassumption. }
  unfold computeGreeks.
  unfold bind at 1. unfold getSpot at 1. rewrite Hs.
  unfold bind at 1. unfold lift at 1. cbn [py_mul py_arith].
  unfold bind at 1.
  destruct (solvePDE np_log lin_norm solve_banded CubicSpline pde_solver w)
    as [[e|premium] w1]; cbn [fst snd] in *.
  - exists e, w1. auto.
  - unfold bind at 1. unfold lift at 1. cbn [py_sub py_arith].
    unfold bind at 1. unfold setSpot at 1. unfold bind at 1. unfold lift at 1.
    unfold validateSpot. cbn [num_val].
    apply Qle_bool_iff in Hdown. rewrite Hdown.
    eexists. exists w1. auto.
Qed.

(** The pieces of [computeGreeks] keep the references and the arrays. *)
Lemma keeps_references_refl w : keeps_references w w.
Proof. repeat split; auto. Qed.

Lemma keeps_references_trans w1 w2 w3 :
  keeps_references w1 w2 -> keeps_references w2 w3 -> keeps_references w1 w3.
Proof.
  intros (Hs1 & Hv1 & Ha1) (Hs2 & Hv2 & Ha2).
  repeat split; [congruence|congruence|auto].
Qed.

Lemma always_bind {A B} (m : M A) (k : A -> M B) :
  always keeps_references m -> (forall a, always keeps_references (k a)) ->
  always keeps_references (bind m k).
Proof.
  intros Hm Hk w. specialize (Hm w). unfold bind.
  destruct (m w) as [[e|a] w1]; [exact Hm|].
  eapply keeps_references_trans; [exact Hm|apply Hk].
Qed.

Lemma always_lift {A} (r : exn + A) : always keeps_references (lift r).
Proof. intros w. apply keeps_references_refl. Qed.

Lemma always_ret {A} (a : A) : always keeps_references (ret a).
Proof. intros w. apply keeps_references_refl. Qed.

Lemma always_getter {A} (f : Underlying -> A) :
  always keeps_references (fun w => (inr (f (udl w)), w)).
Proof. intros w. apply keeps_references_refl. Qed.

Lemma always_setSpot v : always keeps_references (setSpot v).
Proof.
  intros w. unfold setSpot, bind, lift, modify_udl.
  destruct (validateSpot v); [apply keeps_references_refl|].
  repeat split; auto.
Qed.

Lemma always_setVol v : always keeps_references (setVol v).
Proof.
  intros w. unfold setVol, bind, lift, modify_udl.
  destruct (validateVol v); [apply keeps_references_refl|].
  repeat split; auto.
Qed.

Lemma always_solvePDE :
  always keeps_references (solvePDE np_log lin_norm solve_banded CubicSpline pde_solver).
Proof.
  intros w.
  destruct (solvePDE_stable np_log lin_norm solve_banded CubicSpline pde_solver w)
    as (Hu & _ & Hsame).
  split; [now rewrite Hu|]. split; [now rewrite Hu|].
  intros l a Hl. rewrite Hsame; [exact Hl|]. eapply lookup_lt_Some; eassumption.
Qed.

(** X25.  Whatever exit [computeGreeks] takes, the reference spot, the
    reference volatility and every array that existed (so the meshes of
    the solver) are as before the call; and when it returns the four
    numbers the whole Underlying is, spot, volatility and flag included. *)
Theorem computeGreeks_state_after (bump : Q) (w : world) :
  let r := computeGreeks np_log lin_norm solve_banded CubicSpline pde_solver bump w in
  keeps_references w (snd r)
  /\ forall g, fst r = inr g -> udl (snd r) = udl w.
Proof.
  intros r. split.
  - unfold r. clear r. revert w. change (always keeps_references
      (computeGreeks np_log lin_norm solve_banded CubicSpline pde_solver bump)).
    unfold computeGreeks.
    apply always_bind; [apply (always_getter spot)|intros spot0].
    apply always_bind; [apply always_lift|intros spot_bump].
    apply always_bind; [apply always_solvePDE|intros premium].
    apply always_bind; [apply always_lift|intros down].
    apply always_bind; [apply always_setSpot|intros _].
    apply always_bind; [apply always_solvePDE|intros premium_minus].
    apply always_bind; [apply always_lift|intros up].
    apply always_bind; [apply always_setSpot|intros _].
    apply always_bind; [apply always_solvePDE|intros premium_plus].
    apply always_bind; [apply always_setSpot|intros _].
    apply always_bind; [apply (always_getter (fun u =>
        match is_non_linear u with Some b => b | None => false end))|intros nl].
    apply always_bind.
    { destruct nl; [|apply always_ret].
      apply always_bind; [apply (always_getter vol)|intros vol0].
      apply always_bind; [apply always_lift|intros mid].
      apply always_bind; [apply always_setVol|intros _].
      apply always_bind; [apply always_solvePDE|intros premium_linear].
      apply always_bind; [apply always_setVol|intros _].
      apply always_ret. }
    intros premium_linear.
    do 11 (apply always_bind; [apply always_lift|intros ?]).
    apply always_ret.
  - intros g Hg. unfold r in *.
    destruct (computeGreeks np_log lin_norm solve_banded CubicSpline pde_solver bump w)
      as [res w'] eqn:Hrun.
    simpl in Hg. subst res. simpl.
    now destruct (post_computeGreeks np_log lin_norm solve_banded CubicSpline pde_solver
                    bump (udl w) w _ w' eq_refl Hrun).
Qed.

End GreeksRun.

Lemma computeGreeks_at_expiry_witness :
  exists self w premium delta gamma surprime,
    with_solver expired_call_100 (linear_at (VNp 110)) 3 5 ret = (inr self, w)
    /\ computeGreeks_q self (1#100) w = (inr (premium, delta, gamma, surprime), w)
    /\ premium = VFloat (payoff_body expired_call_100 110).
Proof.
  let r := eval vm_compute in
             (with_solver expired_call_100 (linear_at (VNp 110)) 3 5 ret) in
  match r with
  | (inr ?self, ?w) =>
      exists self, w; do 4 eexists;
      split; [vm_compute; reflexivity|];
      split;
      [apply (computeGreeks_at_expiry log_approx norm_approx tridiagonal_solve
                interpolate self (1#100) 110 w);
       [vm_compute; reflexivity|reflexivity|lra|lra|lra
       |split; [left; exists (1#5); split; [reflexivity|lra]|reflexivity]]
      |reflexivity]
  end.
Defined.

Lemma computeGreeks_bump_too_large_witness :
  exists self w e w',
    with_solver expired_call_100 (linear_at (VNp 110)) 3 5 ret = (inr self, w)
    /\ computeGreeks_q self 1 w = (inl e, w')
    /\ udl w' = udl w
    /\ e = Exception "validateSpot : Spot cannot be negative".
Proof.
  let r := eval vm_compute in
             (with_solver expired_call_100 (linear_at (VNp 110)) 3 5 ret) in
  match r with
  | (inr ?self, ?w) =>
      exists self, w;
      destruct (computeGreeks_bump_too_large log_approx norm_approx tridiagonal_solve
                  interpolate self 1 110 w eq_refl)
        as (e & w' & Hrun & Hu & _ & He); [lra|lra|];
      exists e, w';
      split; [vm_compute; reflexivity|];
      split; [exact Hrun|]; split; [exact Hu|];
      assert (fst (solvePDE log_approx norm_approx tridiagonal_solve interpolate self w)
              = inr (VFloat 10)) as Hp by (vm_compute; reflexivity);
      rewrite Hp in He; exact He
  end.
Defined.

(** ** The non-linear loop: an iteration cap of zero *)

(** X26.  With an iteration cap of zero the non-linear branch of a time
    step never returns: the loop body does not run, so once the midpoint
    solve has returned the read of [solution_curr_iter] raises
    UnboundLocalError, and before that only an exception can leave. *)
Theorem non_linear_step_needs_an_iteration (lin_norm : list Q -> Q) (nb_x_steps' : nat)
    (dX' : option Q) (tol : Q) (solve : list Q -> loc -> M loc)
    (vol' : pyval) (notional' : option Q) (solution : loc) (w : world) :
  (exists e, fst (non_linear_step lin_norm nb_x_steps' dX' 0 tol solve
                    vol' notional' solution w) = inl e)
  /\ forall v0 v1 guess w0,
       vol_component vol' 0 = inr v0 ->
       vol_component vol' 1 = inr v1 ->
       solve (replicate nb_x_steps' ((1#2) * (v0 + v1))) solution w = (inr guess, w0) ->
       non_linear_step lin_norm nb_x_steps' dX' 0 tol solve vol' notional' solution w
       = (inl UnboundLocalError, w0).
Proof.
  unfold non_linear_step, bind, lift. split.
  - destruct (vol_component vol' 0) as [e|v0]; [now exists e|].
    destruct (vol_component vol' 1) as [e|v1]; [now exists e|].
    destruct (solve _ solution w) as [[e|guess] w0]; [now exists e|].
    now exists UnboundLocalError.
  - intros v0 v1 guess w0 -> -> ->. reflexivity.
Qed.

(** ** The driver: Greeks of one spot slide *)

Lemma validateSpot_inr (v : pyval) : validateSpot v = inr tt -> valid_spot v.
Proof.
  unfold validateSpot, valid_spot.
  destruct (num_val v) as [e|q]; [discriminate|].
  destruct (Qle_bool q 0) eqn:E; [discriminate|]. intros _.
  exists q. split; [reflexivity|]. now apply Qle_bool_false_lt.
Qed.

Lemma Qdiv_zero_num (x y : Q) : x == 0 -> x / y == 0.
Proof. intros H. unfold Qdiv. rewrite H. ring. Qed.

Section DriverFacts.

Variables np_log np_exp np_sqrt : Q -> Q.
Variable lin_norm : list Q -> Q.
Variable solve_banded : list Q -> list Q -> list Q -> list Q -> exn + list Q.
Variable CubicSpline : list Q -> list Q -> Q -> exn + Q.

(** X27.  A slide whose spot is not a strictly positive number is refused
    before anything is built: [computeGreeksAtSpot] raises, out of the
    first setter, with the copy of the Underlying unchanged and no array
    allocated. *)
Theorem computeGreeksAtSpot_rejects_spot (spot' : pyval) (payoff' : Payoff)
    (underlying : Underlying) :
  ~ valid_spot spot' ->
  exists e,
    validateSpot spot' = inl e
    /\ computeGreeksAtSpot np_log np_exp np_sqrt lin_norm solve_banded CubicSpline
         spot' payoff' underlying
       = (inl e, World underlying []).
Proof.
  intros Hbad. unfold computeGreeksAtSpot.
  unfold bind at 1. unfold setReferenceSpot at 1. unfold bind at 1. unfold lift at 1.
  destruct (validateSpot spot') as [e|[]] eqn:E.
  - exists e. split; reflexivity.
  - exfalso. apply Hbad. now apply validateSpot_inr.
Qed.

(** X28.  The slide overrides the spot and the reference spot of the
    market it is given: two Underlyings that agree on the volatility, the
    reference volatility and the non-linear flag give the same result,
    value or exception, whatever their own spots. *)
Theorem computeGreeksAtSpot_overrides_spot (spot' : pyval) (payoff' : Payoff)
    (u u' : Underlying) :
  vol u' = vol u -> reference_vol u' = reference_vol u ->
  is_non_linear u' = is_non_linear u ->
  fst (computeGreeksAtSpot np_log np_exp np_sqrt lin_norm solve_banded CubicSpline
         spot' payoff' u)
  = fst (computeGreeksAtSpot np_log np_exp np_sqrt lin_norm solve_banded CubicSpline
           spot' payoff' u').
Proof.
  intros Hv Hrv Hfl. unfold computeGreeksAtSpot.
  unfold bind at 1. unfold bind at 3.
  unfold setReferenceSpot at 1. unfold setReferenceSpot at 1.
  unfold bind at 1. unfold bind at 3. unfold lift at 1. unfold lift at 1.
  destruct (validateSpot spot') as [e|[]] eqn:E; [reflexivity|].
  unfold modify_udl at 1. unfold modify_udl at 1. cbn [udl arrays].
  unfold bind at 1. unfold bind at 3.
  unfold setSpot at 1. unfold setSpot at 1.
  unfold bind at 1. unfold bind at 3. unfold lift at 1. unfold lift at 1.
  rewrite E. unfold modify_udl at 1. unfold modify_udl at 1. cbn [udl arrays].
  assert (assign_spot spot' (assign_reference_spot spot' u)
          = assign_spot spot' (assign_reference_spot spot' u')) as ->; [|reflexivity].
  unfold assign_spot, assign_reference_spot.
  cbn [spot reference_spot vol reference_vol is_non_linear].
  now rewrite Hv, Hrv, Hfl.
Qed.

(** X29.  A slide that is knocked out with both of its bumps (the spot,
    [0.99 * spot] and [1.01 * spot] all at or beyond a continuous barrier)
    returns without solving anything: the premium is the knock-out value
    of the contract and delta, gamma and surprime are zero, whatever the
    volatility, the notional and the time to expiry. *)
Theorem computeGreeksAtSpot_knocked_out (s rv : Q) (payoff' : Payoff)
    (underlying : Underlying) :
  0 < s ->
  well_formed underlying ->
  num_val (reference_vol underlying) = inr rv ->
  inside_barriers payoff' s = false ->
  inside_barriers payoff' (s - (1#100) * s) = false ->
  inside_barriers payoff' (s + (1#100) * s) = false ->
  exists premium delta gamma surprime w',
    computeGreeksAtSpot np_log np_exp np_sqrt lin_norm solve_banded CubicSpline
      (VNp s) payoff' underlying
    = (inr (VFloat premium, VNp delta, VNp gamma, VFloat surprime), w')
    /\ premium == knock_out_value payoff'
    /\ delta == 0 /\ gamma == 0 /\ surprime == 0
    /\ udl w' = assign_spot (VNp s) (assign_reference_spot (VNp s) underlying).
Proof.
  intros Hpos [Hvol Hflag] Hrv H0 Hm Hp.
  set (u1 := assign_spot (VNp s) (assign_reference_spot (VNp s) underlying)).
  unfold computeGreeksAtSpot.
  rewrite (bind_ok _ _ _ _ _
             (setReferenceSpot_run (VNp s) (World underlying []) (valid_spot_np s Hpos))).
  rewrite (bind_ok _ _ _ _ _
             (setSpot_run (VNp s) _ (valid_spot_np s Hpos))).
  cbn [udl arrays]. fold u1.
  destruct (init_run np_log np_exp np_sqrt payoff' 253 500 (- (6)) 6 50 (1 # 100000000)
              (World u1 []) s rv eq_refl Hrv ltac:(lia)) as (sm & Hinit & _).
  rewrite (bind_ok _ _ _ _ _ Hinit).
  match goal with
  | |- context [computeGreeks _ _ _ _ ?self _ ?w] =>
      set (self0 := self); set (w0 := w)
  end.
  assert (forall x, inside_barriers payoff' x = false -> on_fast_path self0 x = true)
    as Hfast.
  { intros x Hx. unfold on_fast_path, self0. cbn [payoff].
    rewrite Hx. apply orb_true_r. }
  pose proof (computeGreeks_fast_run np_log lin_norm solve_banded CubicSpline
                self0 (1#100) s w0 eq_refl Hpos ltac:(lra) ltac:(lra)
                (conj Hvol Hflag) (Hfast _ H0) (Hfast _ Hm) (Hfast _ Hp)) as Hrun.
  cbn zeta in Hrun. rewrite Hrun.
  replace (payoff self0) with payoff' by reflexivity.
  destruct (payoff_body_cases payoff' s) as [Hk0 _].
  destruct (payoff_body_cases payoff' (s - (1#100) * s)) as [Hkm _].
  destruct (payoff_body_cases payoff' (s + (1#100) * s)) as [Hkp _].
  specialize (Hk0 H0). specialize (Hkm Hm). specialize (Hkp Hp).
  do 5 eexists. split; [reflexivity|].
  split; [exact Hk0|].
  split; [apply Qdiv_zero_num; rewrite Hkp, Hkm; ring|].
  split; [apply Qdiv_zero_num; rewrite Hkp, Hkm, Hk0; ring|].
  split; [ring|reflexivity].
Qed.

End DriverFacts.

Lemma computeGreeksAtSpot_rejects_spot_witness :
  exists e,
    validateSpot (VNp 0) = inl e
    /\ computeGreeksAtSpot log_approx exp_approx sqrt_approx norm_approx
         tridiagonal_solve interpolate (VNp 0) (put_3900 None) sample_underlying
       = (inl e, World sample_underlying []).
Proof.
  apply (computeGreeksAtSpot_rejects_spot log_approx exp_approx sqrt_approx norm_approx
           tridiagonal_solve interpolate (VNp 0) (put_3900 None) sample_underlying).
  intros (q & Hq & Hpos). simpl in Hq. injection Hq as <-. lra.
Defined.

Lemma computeGreeksAtSpot_overrides_spot_witness :
  fst (computeGreeksAtSpot log_approx exp_approx sqrt_approx norm_approx
         tridiagonal_solve interpolate (VNp 3800) (put_3900 None)
         (linear_at (VNp 100)))
  = fst (computeGreeksAtSpot log_approx exp_approx sqrt_approx norm_approx
           tridiagonal_solve interpolate (VNp 3800) (put_3900 None)
           (linear_at (VNp 4000))).
Proof.
  apply (computeGreeksAtSpot_overrides_spot log_approx exp_approx sqrt_approx norm_approx
           tridiagonal_solve interpolate (VNp 3800) (put_3900 None)
           (linear_at (VNp 100)) (linear_at (VNp 4000))); reflexivity.
Defined.

Lemma computeGreeksAtSpot_knocked_out_witness :
  exists premium delta gamma surprime w',
    computeGreeksAtSpot log_approx exp_approx sqrt_approx norm_approx
      tridiagonal_solve interpolate (VNp 3800) (put_3900 None)
      (non_linear_at (VNp 4000))
    = (inr (VFloat premium, VNp delta, VNp gamma, VFloat surprime), w')
    /\ premium == 0 /\ delta == 0 /\ gamma == 0 /\ surprime == 0.
Proof.
  destruct (computeGreeksAtSpot_knocked_out log_approx exp_approx sqrt_approx norm_approx
              tridiagonal_solve interpolate 3800 ((1#2) * ((3#20) + (1#5)))
              (put_3900 None) (non_linear_at (VNp 4000)))
    as (premium & delta & gamma & surprime & w' & Hrun & Hp & Hd & Hg & Hs & _).
  - lra.
  - split; [right; exists (3#20), (1#5); split; [reflexivity|split; lra]|reflexivity].
  - reflexivity.
  - vm_compute. reflexivity.
  - vm_compute. reflexivity.
  - vm_compute. reflexivity.
  - exists premium, delta, gamma, surprime, w'.
    split; [exact Hrun|]. split; [exact Hp|]. auto.
Defined.

(** ** The implicit step: dominance and solvability of the banded system *)

Lemma band_lower_nth (n : nat) (fo so : Q) (hs : list Q) (j : nat) :
  (S j < n)%nat ->
  nth j (band_lower n fo so hs) 0 = nth (S j) hs 0 * (- fo - so).
Proof.
  intros Hj. assert (j < n)%nat as Hlt by lia.
  rewrite nth_lookup. unfold band_lower.
  rewrite list_lookup_fmap. rewrite (lookup_seq_lt _ _ _ Hlt).
  cbn [fmap option_fmap option_map Nat.add default from_option].
  replace (j <? n - 1)%nat with true by (symmetry; apply Nat.ltb_lt; lia).
  replace (j + 1)%nat with (S j) by lia. reflexivity.
Qed.

Lemma band_upper_nth (n : nat) (fo so : Q) (hs : list Q) (i : nat) :
  nth (S i) (band_upper n fo so hs) 0
  = if (S i <? n)%nat then nth i hs 0 * (fo - so) else 0.
Proof.
  rewrite nth_lookup. unfold band_upper. rewrite list_lookup_fmap.
  destruct (S i <? n)%nat eqn:E.
  - apply Nat.ltb_lt in E. rewrite (lookup_seq_lt _ _ _ E).
    cbn [fmap option_fmap option_map Nat.add default from_option].
    replace (S i - 1)%nat with i by lia. reflexivity.
  - apply Nat.ltb_ge in E. rewrite lookup_seq_ge by exact E. reflexivity.
Qed.

Lemma diagonal_nth (so : Q) (hs : list Q) (i : nat) :
  (i < length hs)%nat -> nth i (diagonal so hs) 0 = 1 + 2 * nth i hs 0 * so.
Proof.
  intros Hi. rewrite !nth_lookup. unfold diagonal. rewrite list_lookup_fmap.
  destruct (lookup_lt_is_Some_2 hs i Hi) as [h ->]. reflexivity.
Qed.

Lemma halfVar_nonneg (vol : list Q) (i : nat) : 0 <= nth i (halfVar_of vol) 0.
Proof.
  rewrite nth_lookup. unfold halfVar_of. rewrite list_lookup_fmap.
  destruct (vol !! i) as [v|]; simpl; [|lra].
  assert ((1#2) * v * v == (1#2) * (v * v)) as -> by ring.
  apply Qmult_le_0_compat; [lra|].
  destruct (Qeq_dec v 0) as [E|E]; [rewrite E; lra|].
  apply Qlt_le_weak. now apply Qsquare_pos.
Qed.

Lemma halfVar_pos (vol : list Q) (i : nat) :
  (forall j v, vol !! j = Some v -> 0 < v) -> (i < length vol)%nat ->
  0 < nth i (halfVar_of vol) 0.
Proof.
  intros Hpos Hi. destruct (lookup_lt_is_Some_2 vol i Hi) as [v Hv].
  rewrite (halfVar_nth vol i v Hv).
  assert (0 < v) as Hv0 by (eapply Hpos; exact Hv).
  assert ((1#2) * v * v == (1#2) * (v * v)) as -> by ring.
  apply Qmult_lt_0_compat; [lra|]. now apply Qmult_lt_0_compat.
Qed.

(** Sums. *)
Lemma sumQ_ext (f g : nat -> Q) (k : nat) :
  (forall i, (i < k)%nat -> f i == g i) -> sumQ f k == sumQ g k.
Proof.
  induction k as [|k IH]; intros H; simpl; [reflexivity|].
  rewrite IH by (intros i Hi; apply H; lia). rewrite (H k) by lia. reflexivity.
Qed.

Lemma sumQ_nonneg (f : nat -> Q) (k : nat) :
  (forall i, (i < k)%nat -> 0 <= f i) -> 0 <= sumQ f k.
Proof.
  induction k as [|k IH]; intros H; simpl; [lra|].
  pose proof (IH (fun i Hi => H i ltac:(lia))). pose proof (H k ltac:(lia)). lra.
Qed.

Lemma sumQ_nonpos (f : nat -> Q) (k : nat) :
  (forall i, (i < k)%nat -> f i <= 0) -> sumQ f k <= 0.
Proof.
  induction k as [|k IH]; intros H; simpl; [lra|].
  pose proof (IH (fun i Hi => H i ltac:(lia))). pose proof (H k ltac:(lia)). lra.
Qed.

Lemma sumQ_zero_terms (f : nat -> Q) (k : nat) :
  (forall i, (i < k)%nat -> f i <= 0) -> 0 <= sumQ f k ->
  forall i, (i < k)%nat -> f i == 0.
Proof.
  induction k as [|k IH]; intros H Hsum i Hi; [lia|].
  simpl in Hsum.
  pose proof (sumQ_nonpos f k (fun j Hj => H j ltac:(lia))) as Hk.
  pose proof (H k ltac:(lia)) as Hfk.
  destruct (decide (i = k)) as [->|Hne]; [lra|].
  apply IH; [intros j Hj; apply H; lia|lra|lia].
Qed.

(** Summation by parts for the interior stencil of the implicit step. *)
Lemma stencil_energy (fo so : Q) (y : nat -> Q) (k : nat) :
  sumQ (fun i => y i * ((- fo - so) * shifted y i + 2 * so * y i
                        + (fo - so) * y (S i))) k
  == so * (sumQ (fun i => (y i - shifted y i) * (y i - shifted y i)) k
           + shifted y k * shifted y k - shifted y k * y k)
     + fo * (shifted y k * y k).
Proof.
  induction k as [|k IH]; simpl.
  - ring.
  - rewrite IH. ring.
Qed.

Lemma Qsquare_zero (c : Q) : c * c == 0 -> c == 0.
Proof.
  intros H. destruct (Qeq_dec c 0) as [E|E]; [exact E|].
  pose proof (Qsquare_pos c E). lra.
Qed.

Section ImplicitSystem.

Variables dT dX firstOrder secondOrder : Q.
Variable vol : list Q.
Hypothesis Hcoeff : coefficients (Some dT) (Some dX) = Some (firstOrder, secondOrder).
Hypothesis HdT : dT < 0.


Lemma secondOrder_pos : 0 < secondOrder.
Proof.
  apply coefficients_inv in Hcoeff as (HdX0 & _ & ->).
  unfold Qdiv. apply Qmult_lt_0_compat; [lra|].
  apply Qinv_lt_0_compat. now apply Qsquare_pos.
Qed.

Lemma off_diagonal_factors :
  - (2) <= dX <= 2 -> - firstOrder - secondOrder <= 0 /\ firstOrder - secondOrder <= 0.
Proof.
  intros HdX. apply coefficients_inv in Hcoeff as (HdX0 & -> & ->).
  assert (0 < dX * dX) as Hsq by now apply Qsquare_pos.
  assert (~ dX * dX == 0) as Hsq0 by lra.
  set (a := - dT * / (dX * dX)).
  assert (0 < a) as Ha.
  { unfold a. apply Qmult_lt_0_compat; [lra|]. now apply Qinv_lt_0_compat. }
  assert (- (- (1#2) * dT / dX) - - dT / (dX * dX) == - (a * (1 + (1#2) * dX))) as Hlo
    by (unfold a; field; try split; assumption).
  assert (- (1#2) * dT / dX - - dT / (dX * dX) == - (a * (1 - (1#2) * dX))) as Hup
    by (unfold a; field; try split; assumption).
  split.
  - rewrite Hlo. assert (0 <= a * (1 + (1#2) * dX)) by (apply Qmult_le_0_compat; lra). lra.
  - rewrite Hup. assert (0 <= a * (1 - (1#2) * dX)) by (apply Qmult_le_0_compat; lra). lra.
Qed.

Lemma halfVar_length : length (halfVar_of vol) = length vol.
Proof. unfold halfVar_of. apply length_map. Qed.

(** The entries of row [i]. *)
Lemma sub_entry_row (i : nat) :
  (i < length vol)%nat ->
  sub_entry (band_lower (length vol) firstOrder secondOrder (halfVar_of vol)) i
  = match i with
    | O => 0
    | S _ => nth i (halfVar_of vol) 0 * (- firstOrder - secondOrder)
    end.
Proof.
  intros Hi. destruct i as [|j]; [reflexivity|].
  unfold sub_entry. now apply band_lower_nth.
Qed.

Lemma super_entry_row (i : nat) :
  super_entry (band_upper (length vol) firstOrder secondOrder (halfVar_of vol)) i
  = if (S i <? length vol)%nat
    then nth i (halfVar_of vol) 0 * (firstOrder - secondOrder) else 0.
Proof. unfold super_entry. apply band_upper_nth. Qed.

Lemma diag_row (i : nat) :
  (i < length vol)%nat ->
  nth i (diagonal secondOrder (halfVar_of vol)) 0
  = 1 + 2 * nth i (halfVar_of vol) 0 * secondOrder.
Proof. intros Hi. apply diagonal_nth. now rewrite halfVar_length. Qed.

Lemma rows_dominant (i : nat) :
  - (2) <= dX <= 2 -> (i < length vol)%nat ->
  Qabs (sub_entry (band_lower (length vol) firstOrder secondOrder (halfVar_of vol)) i)
  + Qabs (super_entry (band_upper (length vol) firstOrder secondOrder (halfVar_of vol)) i)
  < nth i (diagonal secondOrder (halfVar_of vol)) 0.
Proof.
  intros HdX Hi.
  destruct (off_diagonal_factors HdX) as [Hlo Hup].
  pose proof secondOrder_pos as Hso.
  pose proof (halfVar_nonneg vol i) as Hh.
  rewrite (sub_entry_row i Hi), super_entry_row, (diag_row i Hi).
  set (h := nth i (halfVar_of vol) 0) in *.
  assert (0 <= h * secondOrder) as Hhs by (apply Qmult_le_0_compat; lra).
  assert (Qabs (h * (- firstOrder - secondOrder)) == h * (firstOrder + secondOrder)) as E1.
  { rewrite Qabs_neg.
    - ring.
    - assert (h * (- firstOrder - secondOrder) == - (h * (firstOrder + secondOrder)))
        as -> by ring.
      assert (0 <= h * (firstOrder + secondOrder)) by (apply Qmult_le_0_compat; lra).
      lra. }
  assert (Qabs (h * (firstOrder - secondOrder)) == h * (secondOrder - firstOrder)) as E2.
  { rewrite Qabs_neg.
    - ring.
    - assert (h * (firstOrder - secondOrder) == - (h * (secondOrder - firstOrder)))
        as -> by ring.
      assert (0 <= h * (secondOrder - firstOrder)) by (apply Qmult_le_0_compat; lra).
      lra. }
  assert (0 <= h * (firstOrder + secondOrder)) as B1 by (apply Qmult_le_0_compat; lra).
  assert (0 <= h * (secondOrder - firstOrder)) as B2 by (apply Qmult_le_0_compat; lra).
  assert (h * (firstOrder + secondOrder) + h * (secondOrder - firstOrder)
          == 2 * h * secondOrder) as Esum by ring.
  assert (Qabs 0 == 0) as E0 by reflexivity.
  destruct i as [|j]; destruct (S _ <? (length vol))%nat;
    rewrite ?E1, ?E2, ?E0; lra.
Qed.

Lemma rows_have_trivial_kernel (x : list Q) :
  (forall j v, vol !! j = Some v -> 0 < v) ->
  length x = length vol ->
  (forall i, (i < length vol)%nat ->
     banded_row (band_upper (length vol) firstOrder secondOrder (halfVar_of vol))
       (diagonal secondOrder (halfVar_of vol))
       (band_lower (length vol) firstOrder secondOrder (halfVar_of vol)) x i == 0) ->
  forall i xi, x !! i = Some xi -> xi == 0.
Proof.
  intros Hpos Hlen Hrows.
  pose proof secondOrder_pos as Hso.
  set (y := fun i => nth i x 0).
  set (h := fun i => nth i (halfVar_of vol) 0).
  set (c := fun i => (- firstOrder - secondOrder) * shifted y i + 2 * secondOrder * y i
                     + (firstOrder - secondOrder) * y (S i)).
  assert (y (length vol) == 0) as Hyn.
  { unfold y. rewrite nth_overflow by lia. reflexivity. }
  assert (forall i, (i < length vol)%nat -> y i == - (h i * c i)) as Hy.
  { intros i Hi. specialize (Hrows i Hi). unfold banded_row in Hrows.
    rewrite (sub_entry_row i Hi), super_entry_row, (diag_row i Hi) in Hrows.
    fold (y i) (y (S i)) (h i) in Hrows.
    assert ((if (S i <? (length vol))%nat then h i * (firstOrder - secondOrder) else 0) * y (S i)
            == h i * (firstOrder - secondOrder) * y (S i)) as Hsup.
    { destruct (S i <? (length vol))%nat eqn:E; [reflexivity|].
      apply Nat.ltb_ge in E. unfold y. rewrite (nth_overflow x) by lia. ring. }
    rewrite Hsup in Hrows. unfold c.
    destruct i as [|j]; simpl shifted; [|fold (y j) in *]; lra. }
  assert (forall i, (i < length vol)%nat -> 0 < h i) as Hh.
  { intros i Hi. unfold h. now apply halfVar_pos. }
  assert (forall i, (i < length vol)%nat -> y i * c i == - (h i * (c i * c i))) as Hterm.
  { intros i Hi. rewrite (Hy i Hi). ring. }
  assert (forall i, (i < length vol)%nat -> y i * c i <= 0) as Hneg.
  { intros i Hi. rewrite (Hterm i Hi).
    assert (0 <= h i * (c i * c i)).
    { apply Qmult_le_0_compat; [apply Qlt_le_weak; auto|].
      destruct (Qeq_dec (c i) 0) as [E|E]; [rewrite E; lra|].
      apply Qlt_le_weak. now apply Qsquare_pos. }
    lra. }
  assert (0 <= sumQ (fun i => y i * c i) (length vol)) as Hsum.
  { unfold c. rewrite stencil_energy. rewrite Hyn.
    assert (0 <= sumQ (fun i => (y i - shifted y i) * (y i - shifted y i)) (length vol)) as Hsq.
    { apply sumQ_nonneg. intros i _.
      destruct (Qeq_dec (y i - shifted y i) 0) as [E|E]; [rewrite E; lra|].
      apply Qlt_le_weak. now apply Qsquare_pos. }
    assert (0 <= shifted y (length vol) * shifted y (length vol)) as Hsq2.
    { destruct (Qeq_dec (shifted y (length vol)) 0) as [E|E]; [rewrite E; lra|].
      apply Qlt_le_weak. now apply Qsquare_pos. }
    assert (0 <= secondOrder
                 * (sumQ (fun i => (y i - shifted y i) * (y i - shifted y i)) (length vol)
                    + shifted y (length vol) * shifted y (length vol)))
      by (apply Qmult_le_0_compat; lra).
    lra. }
  pose proof (sumQ_zero_terms _ (length vol) Hneg Hsum) as Hzero.
  intros i xi Hxi.
  assert (i < length vol)%nat as Hi by (rewrite <- Hlen; eapply lookup_lt_Some; eassumption).
  assert (xi = y i) as -> by (unfold y; rewrite nth_lookup, Hxi; reflexivity).
  assert (c i == 0) as Hc.
  { apply Qsquare_zero.
    pose proof (Hzero i Hi) as Hz. rewrite (Hterm i Hi) in Hz.
    pose proof (Hh i Hi) as Hhi.
    destruct (Qeq_dec (c i * c i) 0) as [E|E]; [exact E|].
    assert (0 < c i * c i).
    { destruct (Qeq_dec (c i) 0) as [E'|E']; [rewrite E' in E; elim E; ring|].
      now apply Qsquare_pos. }
    pose proof (Qmult_lt_0_compat _ _ Hhi H). lra. }
  rewrite (Hy i Hi), Hc. ring.
Qed.

End ImplicitSystem.

(** C8 (as the code has it).  In an implicit step with [dT < 0] and a
    space step that is not zero: the diagonal entry of a node with
    positive local volatility [v] is [1 - v^2 dT / dX^2], that is
    [1 + v^2 |dT| / dX^2], and it is strictly greater than 1; when
    [|dX| <= 2] every row of the banded system is strictly diagonally
    dominant; and when every local volatility is positive the system is
    solvable: its matrix is nonsingular, the homogeneous system has the
    zero solution only. *)
Theorem implicit_system_diagonal_dominance_solvability
    (dT dX firstOrder secondOrder : Q) (vol : list Q) :
  coefficients (Some dT) (Some dX) = Some (firstOrder, secondOrder) ->
  dT < 0 ->
  let n := length vol in
  let upper := band_upper n firstOrder secondOrder (halfVar_of vol) in
  let diag := diagonal secondOrder (halfVar_of vol) in
  let lower := band_lower n firstOrder secondOrder (halfVar_of vol) in
  (forall j v, vol !! j = Some v -> 0 < v ->
     exists d, diag !! j = Some d
               /\ d == 1 - v * v * dT / (dX * dX)
               /\ 1 < d)
  /\ (- (2) <= dX <= 2 ->
      forall i, (i < n)%nat ->
        Qabs (sub_entry lower i) + Qabs (super_entry upper i) < nth i diag 0)
  /\ ((forall j v, vol !! j = Some v -> 0 < v) ->
      forall x, length x = n ->
        (forall i, (i < n)%nat -> banded_row upper diag lower x i == 0) ->
        forall i xi, x !! i = Some xi -> xi == 0).
Proof.
  intros Hcoeff HdT n upper diag lower. split; [|split].
  - intros j v Hv Hpos.
    exact (diagonal_exceeds_one dT dX firstOrder secondOrder vol j v Hcoeff HdT Hv Hpos).
  - intros HdX i Hi.
    exact (rows_dominant dT dX firstOrder secondOrder vol Hcoeff HdT i HdX Hi).
  - intros Hpos x Hlen Hrows.
    exact (rows_have_trivial_kernel dT dX firstOrder secondOrder vol Hcoeff HdT x
             Hpos Hlen Hrows).
Qed.

Lemma implicit_system_diagonal_dominance_solvability_witness :
  exists firstOrder secondOrder d,
    coefficients (Some (- (1))) (Some 2) = Some (firstOrder, secondOrder)
    /\ diagonal secondOrder (halfVar_of [1#5; 3#10; 1#5]) !! 1%nat = Some d
    /\ 1 < d
    /\ Qabs (sub_entry (band_lower 3 firstOrder secondOrder
                           (halfVar_of [1#5; 3#10; 1#5])) 1)
       + Qabs (super_entry (band_upper 3 firstOrder secondOrder
                              (halfVar_of [1#5; 3#10; 1#5])) 1)
       < nth 1 (diagonal secondOrder (halfVar_of [1#5; 3#10; 1#5])) 0
    /\ forall x, length x = 3%nat ->
         (forall i, (i < 3)%nat ->
            banded_row (band_upper 3 firstOrder secondOrder (halfVar_of [1#5; 3#10; 1#5]))
              (diagonal secondOrder (halfVar_of [1#5; 3#10; 1#5]))
              (band_lower 3 firstOrder secondOrder (halfVar_of [1#5; 3#10; 1#5])) x i
            == 0) ->
         forall i xi, x !! i = Some xi -> xi == 0.
Proof.
  let r := eval vm_compute in (coefficients (Some (- (1))) (Some 2)) in
  match r with
  | Some (?fo, ?so) =>
      exists fo, so;
      destruct (implicit_system_diagonal_dominance_solvability
                  (- (1)) 2 fo so [1#5; 3#10; 1#5])
        as (Hdiag & Hdom & Hker);
      [vm_compute; reflexivity|lra|];
      destruct (Hdiag 1%nat (3#10) eq_refl) as (d & Hd & _ & Hgt); [lra|];
      exists d;
      split; [vm_compute; reflexivity|];
      split; [exact Hd|];
      split; [exact Hgt|];
      split; [apply Hdom; [lra|simpl; lia]|];
      apply Hker;
      intros j v Hj;
      destruct j as [|[|[|j]]]; simpl in Hj; try discriminate;
      injection Hj as <-; lra
  end.
Defined.

(** Neither the formula of the claim nor its conclusion is what the code
    has.  At [vol = 1], [dT = -1], [dX = 1] the diagonal is 2 while
    [1 + vol^2 dT / dX^2] is 0.  At [vol = 1], [dT = -100], [dX = 4] the
    middle row of the system is [-75/8, 29/4, 25/8]: its diagonal is above
    1, and yet the row is not diagonally dominant. *)
Lemma claimed_diagonal_and_dominance_fail :
  (coefficients (Some (- (1))) (Some 1) = Some ((1#2), 1)
   /\ exists d, diagonal 1 (halfVar_of [1]) !! 0%nat = Some d
                /\ d == 2
                /\ ~ (d == 1 + 1 * 1 * (- (1)) / (1 * 1) /\ 1 < d))
  /\ exists firstOrder secondOrder,
       coefficients (Some (- (100))) (Some 4) = Some (firstOrder, secondOrder)
       /\ sub_entry (band_lower 3 firstOrder secondOrder (halfVar_of [1; 1; 1])) 1
          == - (75#8)
       /\ nth 1 (diagonal secondOrder (halfVar_of [1; 1; 1])) 0 == 29#4
       /\ super_entry (band_upper 3 firstOrder secondOrder (halfVar_of [1; 1; 1])) 1
          == 25#8
       /\ 1 < nth 1 (diagonal secondOrder (halfVar_of [1; 1; 1])) 0
       /\ ~ (Qabs (sub_entry (band_lower 3 firstOrder secondOrder
                                (halfVar_of [1; 1; 1])) 1)
             + Qabs (super_entry (band_upper 3 firstOrder secondOrder
                                    (halfVar_of [1; 1; 1])) 1)
             <= nth 1 (diagonal secondOrder (halfVar_of [1; 1; 1])) 0).
Proof.
  split.
  - split; [reflexivity|].
    eexists. split; [reflexivity|]. split; [reflexivity|].
    intros [H _]. vm_compute in H. discriminate.
  - let r := eval vm_compute in (coefficients (Some (- (100))) (Some 4)) in
    match r with
    | Some (?fo, ?so) => exists fo, so
    end.
    split; [vm_compute; reflexivity|].
    split; [vm_compute; reflexivity|].
    split; [vm_compute; reflexivity|].
    split; [vm_compute; reflexivity|].
    split; [vm_compute; reflexivity|].
    intros H. vm_compute in H. apply H. reflexivity.
Qed.

(** ** The constructor: a reference spot that np.log refuses *)


